(** * FEValues / FEFaceValues (deal.II, fe/fe_values.cc): a shallow embedding

    The evaluator classes of [source/fe/fe_values.cc] and [fe/fe_values.h]
    are rendered as records and functions in an error monad.  Scalars
    ([double]) are kept abstract behind the [Scalar] class so that every
    statement holds for any interpretation of [+], [*] and [/] (IEEE
    binary64 included); exact rationals give a computable instance. *)

From Stdlib Require Import QArith.
From stdpp Require Import base decidable option numbers list.

Local Open Scope nat_scope.

(** ** Failures

    The [Exc...] constructors are the exception classes declared with
    [DeclException] in [fe_values.h].  The [UB_...] constructors mark
    behaviour the C++ language leaves undefined: an index past the end of a
    [vector], [Point] or matrix, an index past the end of one of the
    built-in arrays of [2*dim] per-face tables, and a division whose second
    operand is zero.  [ExcInvalidIndex] is declared with two [int]
    arguments. *)
Inductive exc : Type :=
| ExcInvalidIndex (i n : Z)
| ExcAccessToUninitializedField
| ExcCannotInitializeField
| ExcInternalError
| ExcNotImplemented
| UB_OutOfBounds
| UB_ArrayOutOfBounds
| UB_DivisionByZero.

(** The accessors hand [unsigned int] values to [ExcInvalidIndex]; the
    conversion to [int] wraps a value above [INT_MAX] around (32 bits,
    two's complement). *)
Definition int_of_unsigned (n : nat) : Z :=
  let z := (Z.of_nat n mod 2 ^ 32)%Z in
  if (z <? 2 ^ 31)%Z then z else (z - 2 ^ 32)%Z.

(** [ExcInvalidIndex (i, n)] with [i] and [n] of type [unsigned int]. *)
Definition InvalidIndex (i n : nat) : exc :=
  ExcInvalidIndex (int_of_unsigned i) (int_of_unsigned n).

Inductive result (A : Type) : Type :=
| Ok (a : A)
| Err (e : exc).
Arguments Ok {A} a.
Arguments Err {A} e.

Definition bind {A B : Type} (m : result A) (k : A -> result B) : result B :=
  match m with
  | Ok a => k a
  | Err e => Err e
  end.

Declare Scope result_scope.
Delimit Scope result_scope with result.
Notation "x <~ m ;; k" := (bind m (fun x => k))
  (at level 100, m at next level, right associativity) : result_scope.
Notation "m ;;; k" := (bind m (fun _ => k))
  (at level 100, right associativity) : result_scope.
Local Open Scope result_scope.

Definition is_ok {A : Type} (m : result A) : bool :=
  match m with Ok _ => true | Err _ => false end.

(** [for (unsigned int i = lo; i < lo + n; ++i) body]. *)
Fixpoint for_from {St : Type} (lo n : nat) (body : nat -> St -> result St)
  (st : St) : result St :=
  match n with
  | O => Ok st
  | S n' => st' <~ body lo st ;; for_from (S lo) n' body st'
  end.

Definition for_upto {St : Type} (n : nat) (body : nat -> St -> result St)
  (st : St) : result St :=
  for_from 0 n body st.

(** ** Checked container accesses *)

(** [v[i]] as an rvalue. *)
Definition rd {A : Type} (l : list A) (i : nat) : result A :=
  match l !! i with
  | Some x => Ok x
  | None => Err UB_OutOfBounds
  end.

(** [v[i] = x]. *)
Definition wr {A : Type} (l : list A) (i : nat) (x : A) : result (list A) :=
  match l !! i with
  | Some _ => Ok (<[i := x]> l)
  | None => Err UB_OutOfBounds
  end.

(** [a[face]] and [a[face] = x] on a built-in array [T a[2*dim]]. *)
Definition rd_arr {A : Type} (l : list A) (i : nat) : result A :=
  match l !! i with
  | Some x => Ok x
  | None => Err UB_ArrayOutOfBounds
  end.

Definition wr_arr {A : Type} (l : list A) (i : nat) (x : A) : result (list A) :=
  match l !! i with
  | Some _ => Ok (<[i := x]> l)
  | None => Err UB_ArrayOutOfBounds
  end.

(** [t[i][j]] and [t[i][j] = x] on a [vector<vector<...> >]. *)
Definition rd2 {A : Type} (t : list (list A)) (i j : nat) : result A :=
  row <~ rd t i ;; rd row j.

Definition wr2 {A : Type} (t : list (list A)) (i j : nat) (x : A)
  : result (list (list A)) :=
  row <~ rd t i ;; row' <~ wr row j x ;; wr t i row'.

(** [t[i][j](k)] and [t[i][j](k) = x] on a [vector<vector<Point<dim> > >]. *)
Definition rd3 {A : Type} (t : list (list (list A))) (i j k : nat) : result A :=
  row <~ rd t i ;; rd2 row j k.

Definition wr3 {A : Type} (t : list (list (list A))) (i j k : nat) (x : A)
  : result (list (list (list A))) :=
  row <~ rd t i ;; row' <~ wr2 row j k x ;; wr t i row'.

(** ** Scalars *)

Class Scalar : Type := {
  S_ : Type;
  szero : S_;
  sone : S_;
  sadd : S_ -> S_ -> S_;
  smul : S_ -> S_ -> S_;
  squot : S_ -> S_ -> S_;
  s_is_zero : S_ -> bool
}.

(** [x / y] in C++: undefined when [y] is zero. *)
Definition sdiv `{Scalar} (x y : S_) : result S_ :=
  if s_is_zero y then Err UB_DivisionByZero else Ok (squot x y).

#[global] Instance QScalar : Scalar := {|
  S_ := Q;
  szero := 0%Q;
  sone := 1%Q;
  sadd := Qplus;
  smul := Qmult;
  squot := Qdiv;
  s_is_zero := fun y => Qeq_bool y 0%Q
|}.

(** ** Data model *)

Section Evaluators.
Context `{Sc : Scalar}.

(** [Point<dim>]: its coordinates, first to last.  [grid/point.h] is not
    among the sources; its default constructor is taken to produce the
    origin, as [vector<double>(n, 0)] does for scalars. *)
Definition Point : Type := list S_.
Definition Point_origin (d : nat) : Point := replicate d szero.
Definition Point2 (x y : S_) : Point := [x; y].

(** [dFMatrix]: [m()] rows, [n()] columns, and the entries by row. *)
Record dFMatrix : Type := {
  mat_m : nat;
  mat_n : nat;
  mat_rows : list (list S_)
}.

Definition dFMatrix_new (m n : nat) : dFMatrix :=
  {| mat_m := m; mat_n := n; mat_rows := replicate m (replicate n szero) |}.

Definition mat_rd (A : dFMatrix) (i j : nat) : result S_ :=
  rd2 (mat_rows A) i j.

Definition mat_wr (A : dFMatrix) (i j : nat) (x : S_) : result dFMatrix :=
  rows <~ wr2 (mat_rows A) i j x ;;
  Ok {| mat_m := mat_m A; mat_n := mat_n A; mat_rows := rows |}.

(** [UpdateFlags] is a bit mask; [flags & tag] used as a condition. *)
Definition UpdateFlags : Type := N.
Definition has (flags tag : UpdateFlags) : bool :=
  negb (N.land flags tag =? 0)%N.

(** What the translation unit takes from headers that are not among the
    sources: the template parameter [dim], whether [Assert] is compiled
    in (debug mode), the cell iterator and boundary types,
    [dFMatrix::determinant], and the enumerators of [UpdateFlags]. *)
Class Config : Type := {
  dim : nat;
  debug : bool;
  Cell : Type;
  Boundary : Type;
  determinant : dFMatrix -> S_;
  update_q_points : UpdateFlags;
  update_gradients : UpdateFlags;
  update_jacobians : UpdateFlags;
  update_JxW_values : UpdateFlags;
  update_ansatz_points : UpdateFlags;
  update_normal_vectors : UpdateFlags
}.

Context `{Cfg : Config}.

(** [Assert (cond, exc)]: active in debug mode only (see the class
    documentation in [fe_values.h]). *)
Definition Assert (cond : bool) (e : exc) : result unit :=
  if debug && negb cond then Err e else Ok tt.

(** [Assert (cond, exc)] where [cond] and [exc] read [a]: the read takes
    place in debug mode only. *)
Definition Assert_reading {A : Type} (a : result A) (cond : A -> bool)
  (e : A -> exc) : result unit :=
  if debug then x <~ a ;; if cond x then Ok tt else Err (e x) else Ok tt.

Record Quadrature : Type := {
  q_n_quadrature_points : nat;
  quad_point : nat -> Point;
  weight : nat -> S_
}.

(** The out-parameters of [FiniteElement::fill_fe_values] and
    [FiniteElement::fill_fe_face_values] after the call. *)
Record CellFill : Type := {
  cf_jacobians : list dFMatrix;
  cf_ansatz_points : list Point;
  cf_q_points : list Point
}.

Record FaceFill : Type := {
  ff_jacobians : list dFMatrix;
  ff_ansatz_points : list Point;
  ff_q_points : list Point;
  ff_face_jacobi_dets : list S_;
  ff_normal_vectors : list Point
}.

(** [FiniteElement<dim>]: the two fill functions receive the current
    content of every array passed by reference and return the new one. *)
Record FiniteElement : Type := {
  fe_total_dofs : nat;
  fe_shape_value : nat -> Point -> S_;
  fe_shape_grad : nat -> Point -> Point;
  fill_fe_values :
    Cell -> list Point ->
    list dFMatrix -> bool -> list Point -> bool -> list Point -> bool ->
    Boundary -> CellFill;
  fill_fe_face_values :
    Cell -> nat -> list Point -> list Point ->
    list dFMatrix -> bool -> list Point -> bool -> list Point -> bool ->
    list S_ -> bool -> list Point -> bool ->
    Boundary -> FaceFill
}.

(** *** FEValues *)

Record FEValues : Type := {
  n_quadrature_points : nat;
  total_dofs : nat;
  shape_values : dFMatrix;
  shape_gradients : list (list Point);
  unit_shape_gradients : list (list Point);
  weights : list S_;
  JxW_values : list S_;
  quadrature_points : list Point;
  unit_quadrature_points : list Point;
  ansatz_points : list Point;
  jacobi_matrices : list dFMatrix;
  update_flags : UpdateFlags
}.

Definition set_shape_gradients (this : FEValues) (sg : list (list Point))
  : FEValues :=
  {| n_quadrature_points := n_quadrature_points this;
     total_dofs := total_dofs this;
     shape_values := shape_values this;
     shape_gradients := sg;
     unit_shape_gradients := unit_shape_gradients this;
     weights := weights this;
     JxW_values := JxW_values this;
     quadrature_points := quadrature_points this;
     unit_quadrature_points := unit_quadrature_points this;
     ansatz_points := ansatz_points this;
     jacobi_matrices := jacobi_matrices this;
     update_flags := update_flags this |}.

Definition set_JxW_values (this : FEValues) (jxw : list S_) : FEValues :=
  {| n_quadrature_points := n_quadrature_points this;
     total_dofs := total_dofs this;
     shape_values := shape_values this;
     shape_gradients := shape_gradients this;
     unit_shape_gradients := unit_shape_gradients this;
     weights := weights this;
     JxW_values := jxw;
     quadrature_points := quadrature_points this;
     unit_quadrature_points := unit_quadrature_points this;
     ansatz_points := ansatz_points this;
     jacobi_matrices := jacobi_matrices this;
     update_flags := update_flags this |}.

Definition set_cell_fill (this : FEValues) (r : CellFill) : FEValues :=
  {| n_quadrature_points := n_quadrature_points this;
     total_dofs := total_dofs this;
     shape_values := shape_values this;
     shape_gradients := shape_gradients this;
     unit_shape_gradients := unit_shape_gradients this;
     weights := weights this;
     JxW_values := JxW_values this;
     quadrature_points := cf_q_points r;
     unit_quadrature_points := unit_quadrature_points this;
     ansatz_points := cf_ansatz_points r;
     jacobi_matrices := cf_jacobians r;
     update_flags := update_flags this |}.

(** The constructor: the member initialisers, then the two loops. *)
Definition FEValues_ctor (fe : FiniteElement) (quadrature : Quadrature)
  (flags : UpdateFlags) : result FEValues :=
  let nq := q_n_quadrature_points quadrature in
  let td := fe_total_dofs fe in
  tabs <~ for_upto td (fun i =>
            for_upto nq (fun j '(sv, usg) =>
              sv' <~ mat_wr sv i j
                       (fe_shape_value fe i (quad_point quadrature j)) ;;
              usg' <~ wr2 usg i j
                        (fe_shape_grad fe i (quad_point quadrature j)) ;;
              Ok (sv', usg')))
          (dFMatrix_new td nq, replicate td (replicate nq (Point_origin dim))) ;;
  wq <~ for_upto nq (fun i '(w, uqp) =>
          w' <~ wr w i (weight quadrature i) ;;
          uqp' <~ wr uqp i (quad_point quadrature i) ;;
          Ok (w', uqp'))
        (replicate nq szero, replicate nq (Point_origin dim)) ;;
  Ok {| n_quadrature_points := nq;
        total_dofs := td;
        shape_values := fst tabs;
        shape_gradients := replicate td (replicate nq (Point_origin dim));
        unit_shape_gradients := snd tabs;
        weights := fst wq;
        JxW_values := replicate nq szero;
        quadrature_points := replicate nq (Point_origin dim);
        unit_quadrature_points := snd wq;
        ansatz_points := replicate td (Point_origin dim);
        jacobi_matrices := replicate nq (dFMatrix_new dim dim);
        update_flags := flags |}.

Definition FEValues_shape_value (this : FEValues) (i j : nat) : result S_ :=
  Assert (i <? mat_m (shape_values this))
    (InvalidIndex i (mat_m (shape_values this))) ;;;
  Assert (j <? mat_n (shape_values this))
    (InvalidIndex j (mat_n (shape_values this))) ;;;
  mat_rd (shape_values this) i j.

Definition FEValues_shape_grad (this : FEValues) (i j : nat) : result Point :=
  Assert (i <? mat_m (shape_values this))
    (InvalidIndex i (mat_m (shape_values this))) ;;;
  Assert (j <? mat_n (shape_values this))
    (InvalidIndex j (mat_n (shape_values this))) ;;;
  Assert (has (update_flags this) update_gradients)
    ExcAccessToUninitializedField ;;;
  rd2 (shape_gradients this) i j.

Definition FEValues_quadrature_point (this : FEValues) (i : nat)
  : result Point :=
  Assert (i <? n_quadrature_points this)
    (InvalidIndex i (n_quadrature_points this)) ;;;
  Assert (has (update_flags this) update_q_points)
    ExcAccessToUninitializedField ;;;
  rd (quadrature_points this) i.

Definition FEValues_ansatz_point (this : FEValues) (i : nat) : result Point :=
  Assert (i <? length (ansatz_points this))
    (InvalidIndex i (length (ansatz_points this))) ;;;
  Assert (has (update_flags this) update_ansatz_points)
    ExcAccessToUninitializedField ;;;
  rd (ansatz_points this) i.

Definition FEValues_JxW (this : FEValues) (i : nat) : result S_ :=
  Assert (i <? n_quadrature_points this)
    (InvalidIndex i (n_quadrature_points this)) ;;;
  Assert (has (update_flags this) update_JxW_values)
    ExcAccessToUninitializedField ;;;
  rd (JxW_values this) i.

(** The gradient loop nest shared, statement for statement, by
    [FEValues::reinit] and [FEFaceValues::reinit]; the two differ only in
    where [unit_shape_gradients...[i][j](b)] is read, hence [rd_usg]. *)
Definition transform_gradients (td nq : nat)
  (rd_usg : nat -> nat -> nat -> result S_)
  (jacobi : list dFMatrix)
  (sg : list (list Point)) : result (list (list Point)) :=
  for_upto td (fun i =>
    for_upto nq (fun j =>
      for_upto dim (fun s sg =>
        sg0 <~ wr3 sg i j s szero ;;
        for_upto dim (fun b sg =>
          acc <~ rd3 sg i j s ;;
          u <~ rd_usg i j b ;;
          J <~ rd jacobi j ;;
          a <~ mat_rd J b s ;;
          wr3 sg i j s (sadd acc (smul u a))) sg0))) sg.

Definition wants_cell_fill (flags : UpdateFlags) : bool :=
  has flags update_jacobians || has flags update_q_points
  || has flags update_ansatz_points.

Definition FEValues_reinit (this : FEValues) (cell : Cell)
  (fe : FiniteElement) (boundary : Boundary) : result FEValues :=
  let flags := update_flags this in
  let this :=
    if wants_cell_fill flags
    then set_cell_fill this
           (fill_fe_values fe cell
              (unit_quadrature_points this)
              (jacobi_matrices this) (has flags update_jacobians)
              (ansatz_points this) (has flags update_ansatz_points)
              (quadrature_points this) (has flags update_q_points)
              boundary)
    else this in
  this <~ (if has flags update_gradients
           then
             Assert (has flags update_jacobians) ExcCannotInitializeField ;;;
             sg <~ transform_gradients (fe_total_dofs fe)
                     (n_quadrature_points this)
                     (rd3 (unit_shape_gradients this))
                     (jacobi_matrices this)
                     (shape_gradients this) ;;
             Ok (set_shape_gradients this sg)
           else Ok this) ;;
  if has flags update_JxW_values
  then
    Assert (has flags update_jacobians) ExcCannotInitializeField ;;;
    jxw <~ for_upto (n_quadrature_points this) (fun i jxw =>
             w <~ rd (weights this) i ;;
             J <~ rd (jacobi_matrices this) i ;;
             q <~ sdiv w (determinant J) ;;
             wr jxw i q)
           (JxW_values this) ;;
    Ok (set_JxW_values this jxw)
  else Ok this.

(** *** FEFaceValues *)

Record FEFaceValues : Type := {
  f_n_quadrature_points : nat;
  f_total_dofs : nat;
  f_shape_values : list dFMatrix;
  f_shape_gradients : list (list Point);
  f_unit_shape_gradients : list (list (list Point));
  f_weights : list S_;
  f_JxW_values : list S_;
  f_quadrature_points : list Point;
  f_unit_quadrature_points : list Point;
  f_global_unit_quadrature_points : list (list Point);
  f_ansatz_points : list Point;
  f_jacobi_matrices : list dFMatrix;
  f_face_jacobi_determinants : list S_;
  f_normal_vectors : list Point;
  f_update_flags : UpdateFlags;
  selected_face : nat
}.

Definition set_selected_face (this : FEFaceValues) (face_no : nat)
  : FEFaceValues :=
  {| f_n_quadrature_points := f_n_quadrature_points this;
     f_total_dofs := f_total_dofs this;
     f_shape_values := f_shape_values this;
     f_shape_gradients := f_shape_gradients this;
     f_unit_shape_gradients := f_unit_shape_gradients this;
     f_weights := f_weights this;
     f_JxW_values := f_JxW_values this;
     f_quadrature_points := f_quadrature_points this;
     f_unit_quadrature_points := f_unit_quadrature_points this;
     f_global_unit_quadrature_points := f_global_unit_quadrature_points this;
     f_ansatz_points := f_ansatz_points this;
     f_jacobi_matrices := f_jacobi_matrices this;
     f_face_jacobi_determinants := f_face_jacobi_determinants this;
     f_normal_vectors := f_normal_vectors this;
     f_update_flags := f_update_flags this;
     selected_face := face_no |}.

Definition set_face_fill (this : FEFaceValues) (r : FaceFill)
  : FEFaceValues :=
  {| f_n_quadrature_points := f_n_quadrature_points this;
     f_total_dofs := f_total_dofs this;
     f_shape_values := f_shape_values this;
     f_shape_gradients := f_shape_gradients this;
     f_unit_shape_gradients := f_unit_shape_gradients this;
     f_weights := f_weights this;
     f_JxW_values := f_JxW_values this;
     f_quadrature_points := ff_q_points r;
     f_unit_quadrature_points := f_unit_quadrature_points this;
     f_global_unit_quadrature_points := f_global_unit_quadrature_points this;
     f_ansatz_points := ff_ansatz_points r;
     f_jacobi_matrices := ff_jacobians r;
     f_face_jacobi_determinants := ff_face_jacobi_dets r;
     f_normal_vectors := ff_normal_vectors r;
     f_update_flags := f_update_flags this;
     selected_face := selected_face this |}.

Definition set_f_shape_gradients (this : FEFaceValues)
  (sg : list (list Point)) : FEFaceValues :=
  {| f_n_quadrature_points := f_n_quadrature_points this;
     f_total_dofs := f_total_dofs this;
     f_shape_values := f_shape_values this;
     f_shape_gradients := sg;
     f_unit_shape_gradients := f_unit_shape_gradients this;
     f_weights := f_weights this;
     f_JxW_values := f_JxW_values this;
     f_quadrature_points := f_quadrature_points this;
     f_unit_quadrature_points := f_unit_quadrature_points this;
     f_global_unit_quadrature_points := f_global_unit_quadrature_points this;
     f_ansatz_points := f_ansatz_points this;
     f_jacobi_matrices := f_jacobi_matrices this;
     f_face_jacobi_determinants := f_face_jacobi_determinants this;
     f_normal_vectors := f_normal_vectors this;
     f_update_flags := f_update_flags this;
     selected_face := selected_face this |}.

Definition set_f_JxW_values (this : FEFaceValues) (jxw : list S_)
  : FEFaceValues :=
  {| f_n_quadrature_points := f_n_quadrature_points this;
     f_total_dofs := f_total_dofs this;
     f_shape_values := f_shape_values this;
     f_shape_gradients := f_shape_gradients this;
     f_unit_shape_gradients := f_unit_shape_gradients this;
     f_weights := f_weights this;
     f_JxW_values := jxw;
     f_quadrature_points := f_quadrature_points this;
     f_unit_quadrature_points := f_unit_quadrature_points this;
     f_global_unit_quadrature_points := f_global_unit_quadrature_points this;
     f_ansatz_points := f_ansatz_points this;
     f_jacobi_matrices := f_jacobi_matrices this;
     f_face_jacobi_determinants := f_face_jacobi_determinants this;
     f_normal_vectors := f_normal_vectors this;
     f_update_flags := f_update_flags this;
     selected_face := selected_face this |}.

(** The [switch (dim)] / [switch (face)] statement of the constructor:
    one assignment to [global_unit_quadrature_points[face][p]], reading
    [unit_quadrature_points[p](0)] as that member stands at this point. *)
Definition embed_face_point (uqp : list Point) (face p : nat)
  (guqp : list (list Point)) : result (list (list Point)) :=
  let assign (x : result Point) :=
    pt <~ x ;;
    row <~ rd_arr guqp face ;;
    row' <~ wr row p pt ;;
    wr_arr guqp face row' in
  if dim =? 2 then
    match face with
    | 0 => assign (pt <~ rd uqp p ;; t <~ rd pt 0 ;; Ok (Point2 t szero))
    | 1 => assign (pt <~ rd uqp p ;; t <~ rd pt 0 ;; Ok (Point2 sone t))
    | 2 => assign (pt <~ rd uqp p ;; t <~ rd pt 0 ;; Ok (Point2 t sone))
    | 3 => assign (pt <~ rd uqp p ;; t <~ rd pt 0 ;; Ok (Point2 szero t))
    | _ => Assert false ExcInternalError ;;; Ok guqp
    end
  else Assert false ExcNotImplemented ;;; Ok guqp.

(** The constructor, loop by loop in the order of the source: the three
    per-face arrays are sized, the face points are embedded, the weights
    and unit points are copied from the quadrature rule, and the tables
    are filled. *)
Definition FEFaceValues_ctor (fe : FiniteElement) (quadrature : Quadrature)
  (flags : UpdateFlags) : result FEFaceValues :=
  let nq := q_n_quadrature_points quadrature in
  let td := fe_total_dofs fe in
  let uqp0 := replicate nq (Point_origin (dim - 1)) in
  arrs <~ for_upto (2 * dim) (fun face '(svs, usgs, guqp) =>
            svs' <~ wr_arr svs face (dFMatrix_new td nq) ;;
            usgs' <~ wr_arr usgs face
                       (replicate td (replicate nq (Point_origin dim))) ;;
            guqp' <~ wr_arr guqp face (replicate nq (Point_origin dim)) ;;
            Ok (svs', usgs', guqp'))
          (replicate (2 * dim) (dFMatrix_new 0 0),
           replicate (2 * dim) [],
           replicate (2 * dim) []) ;;
  guqp <~ for_upto (2 * dim) (fun face =>
            for_upto nq (fun p guqp => embed_face_point uqp0 face p guqp))
          (snd arrs) ;;
  wq <~ for_upto nq (fun i '(w, uqp) =>
          w' <~ wr w i (weight quadrature i) ;;
          uqp' <~ wr uqp i (quad_point quadrature i) ;;
          Ok (w', uqp'))
        (replicate nq szero, uqp0) ;;
  tabs <~ for_upto (2 * dim) (fun face =>
            for_upto td (fun i =>
              for_upto nq (fun j '(svs, usgs) =>
                gp <~ (row <~ rd_arr guqp face ;; rd row j) ;;
                M <~ rd_arr svs face ;;
                M' <~ mat_wr M i j (fe_shape_value fe i gp) ;;
                svs' <~ wr_arr svs face M' ;;
                gp' <~ (row <~ rd_arr guqp face ;; rd row j) ;;
                t <~ rd_arr usgs face ;;
                t' <~ wr2 t i j (fe_shape_grad fe i gp') ;;
                usgs' <~ wr_arr usgs face t' ;;
                Ok (svs', usgs'))))
          (fst (fst arrs), snd (fst arrs)) ;;
  Ok {| f_n_quadrature_points := nq;
        f_total_dofs := td;
        f_shape_values := fst tabs;
        f_shape_gradients := replicate td (replicate nq (Point_origin dim));
        f_unit_shape_gradients := snd tabs;
        f_weights := fst wq;
        f_JxW_values := replicate nq szero;
        f_quadrature_points := replicate nq (Point_origin dim);
        f_unit_quadrature_points := snd wq;
        f_global_unit_quadrature_points := guqp;
        f_ansatz_points := replicate td (Point_origin dim);
        f_jacobi_matrices := replicate nq (dFMatrix_new dim dim);
        f_face_jacobi_determinants := replicate nq szero;
        f_normal_vectors := replicate nq (Point_origin dim);
        f_update_flags := flags;
        selected_face := 0 |}.

Definition FEFaceValues_shape_value (this : FEFaceValues) (i j : nat)
  : result S_ :=
  M <~ rd_arr (f_shape_values this) (selected_face this) ;;
  Assert (i <? mat_m M) (InvalidIndex i (mat_m M)) ;;;
  Assert (j <? mat_n M) (InvalidIndex j (mat_n M)) ;;;
  mat_rd M i j.

(** [shape_values[selected_face]] occurs in the two index assertions
    only; the statement that returns reads [shape_gradients]. *)
Definition FEFaceValues_shape_grad (this : FEFaceValues) (i j : nat)
  : result Point :=
  Assert_reading (rd_arr (f_shape_values this) (selected_face this))
    (fun M => i <? mat_m M) (fun M => InvalidIndex i (mat_m M)) ;;;
  Assert_reading (rd_arr (f_shape_values this) (selected_face this))
    (fun M => j <? mat_n M) (fun M => InvalidIndex j (mat_n M)) ;;;
  Assert (has (f_update_flags this) update_gradients)
    ExcAccessToUninitializedField ;;;
  rd2 (f_shape_gradients this) i j.

Definition FEFaceValues_quadrature_point (this : FEFaceValues) (i : nat)
  : result Point :=
  Assert (i <? f_n_quadrature_points this)
    (InvalidIndex i (f_n_quadrature_points this)) ;;;
  Assert (has (f_update_flags this) update_q_points)
    ExcAccessToUninitializedField ;;;
  rd (f_quadrature_points this) i.

Definition FEFaceValues_ansatz_point (this : FEFaceValues) (i : nat)
  : result Point :=
  Assert (i <? length (f_ansatz_points this))
    (InvalidIndex i (length (f_ansatz_points this))) ;;;
  Assert (has (f_update_flags this) update_ansatz_points)
    ExcAccessToUninitializedField ;;;
  rd (f_ansatz_points this) i.

Definition FEFaceValues_normal_vector (this : FEFaceValues) (i : nat)
  : result Point :=
  Assert (i <? length (f_normal_vectors this))
    (InvalidIndex i (length (f_normal_vectors this))) ;;;
  Assert (has (f_update_flags this) update_normal_vectors)
    ExcAccessToUninitializedField ;;;
  rd (f_normal_vectors this) i.

Definition FEFaceValues_JxW (this : FEFaceValues) (i : nat) : result S_ :=
  Assert (i <? f_n_quadrature_points this)
    (InvalidIndex i (f_n_quadrature_points this)) ;;;
  Assert (has (f_update_flags this) update_JxW_values)
    ExcAccessToUninitializedField ;;;
  rd (f_JxW_values this) i.

Definition wants_face_fill (flags : UpdateFlags) : bool :=
  has flags update_jacobians || has flags update_q_points
  || has flags update_ansatz_points || has flags update_JxW_values.

(** [unit_shape_gradients[face_no][i][j](b)]. *)
Definition rd_face_usg (usgs : list (list (list Point))) (face_no : nat)
  (i j b : nat) : result S_ :=
  t <~ rd_arr usgs face_no ;; rd3 t i j b.

Definition FEFaceValues_reinit (this : FEFaceValues) (cell : Cell)
  (face_no : nat) (fe : FiniteElement) (boundary : Boundary)
  : result FEFaceValues :=
  let this := set_selected_face this face_no in
  let flags := f_update_flags this in
  this <~ (if wants_face_fill flags
           then
             gq <~ rd_arr (f_global_unit_quadrature_points this) face_no ;;
             Ok (set_face_fill this
                   (fill_fe_face_values fe cell face_no
                      (f_unit_quadrature_points this) gq
                      (f_jacobi_matrices this) (has flags update_jacobians)
                      (f_ansatz_points this) (has flags update_ansatz_points)
                      (f_quadrature_points this) (has flags update_q_points)
                      (f_face_jacobi_determinants this)
                      (has flags update_JxW_values)
                      (f_normal_vectors this)
                      (has flags update_normal_vectors)
                      boundary))
           else Ok this) ;;
  this <~ (if has flags update_gradients
           then
             Assert (has flags update_jacobians) ExcCannotInitializeField ;;;
             sg <~ transform_gradients (fe_total_dofs fe)
                     (f_n_quadrature_points this)
                     (rd_face_usg (f_unit_shape_gradients this) face_no)
                     (f_jacobi_matrices this)
                     (f_shape_gradients this) ;;
             Ok (set_f_shape_gradients this sg)
           else Ok this) ;;
  if has flags update_JxW_values
  then
    Assert (has flags update_jacobians) ExcCannotInitializeField ;;;
    jxw <~ for_upto (f_n_quadrature_points this) (fun i jxw =>
             w <~ rd (f_weights this) i ;;
             d <~ rd (f_face_jacobi_determinants this) i ;;
             wr jxw i (smul w d))
           (f_JxW_values this) ;;
    Ok (set_f_JxW_values this jxw)
  else Ok this.

End Evaluators.

(** ** The inline functions of [fe_values.h] *)

Section Getters.
Context `{Sc : Scalar} `{Cfg : @Config Sc}.

Definition FEValues_get_shape_values (this : FEValues) : result dFMatrix :=
  Ok (shape_values this).

Definition FEValues_get_shape_grads (this : FEValues)
  : result (list (list Point)) :=
  Assert (has (update_flags this) update_gradients)
    ExcAccessToUninitializedField ;;;
  Ok (shape_gradients this).

Definition FEValues_get_quadrature_points (this : FEValues)
  : result (list Point) :=
  Assert (has (update_flags this) update_q_points)
    ExcAccessToUninitializedField ;;;
  Ok (quadrature_points this).

Definition FEValues_get_ansatz_points (this : FEValues) : result (list Point) :=
  Assert (has (update_flags this) update_ansatz_points)
    ExcAccessToUninitializedField ;;;
  Ok (ansatz_points this).

Definition FEValues_get_JxW_values (this : FEValues) : result (list S_) :=
  Assert (has (update_flags this) update_JxW_values)
    ExcAccessToUninitializedField ;;;
  Ok (JxW_values this).

Definition FEFaceValues_get_shape_values (this : FEFaceValues)
  : result dFMatrix :=
  rd_arr (f_shape_values this) (selected_face this).

Definition FEFaceValues_get_shape_grads (this : FEFaceValues)
  : result (list (list Point)) :=
  Assert (has (f_update_flags this) update_gradients)
    ExcAccessToUninitializedField ;;;
  Ok (f_shape_gradients this).

Definition FEFaceValues_get_quadrature_points (this : FEFaceValues)
  : result (list Point) :=
  Assert (has (f_update_flags this) update_q_points)
    ExcAccessToUninitializedField ;;;
  Ok (f_quadrature_points this).

Definition FEFaceValues_get_ansatz_points (this : FEFaceValues)
  : result (list Point) :=
  Assert (has (f_update_flags this) update_ansatz_points)
    ExcAccessToUninitializedField ;;;
  Ok (f_ansatz_points this).

Definition FEFaceValues_get_JxW_values (this : FEFaceValues)
  : result (list S_) :=
  Assert (has (f_update_flags this) update_JxW_values)
    ExcAccessToUninitializedField ;;;
  Ok (f_JxW_values this).

Definition FEFaceValues_get_normal_vectors (this : FEFaceValues)
  : result (list Point) :=
  Assert (has (f_update_flags this) update_normal_vectors)
    ExcAccessToUninitializedField ;;;
  Ok (f_normal_vectors this).

(** A sequence of [reinit] calls on one face evaluator. *)
Fixpoint FEFaceValues_reinit_all (this : FEFaceValues)
  (calls : list (Cell * nat * FiniteElement * Boundary))
  : result FEFaceValues :=
  match calls with
  | [] => Ok this
  | (cell, face_no, fe, boundary) :: rest =>
      this' <~ FEFaceValues_reinit this cell face_no fe boundary ;;
      FEFaceValues_reinit_all this' rest
  end.

End Getters.

(** ** Vocabulary of the statements *)

(** The failures that stand for an access out of range. *)
Definition access_error (e : exc) : Prop :=
  e = UB_OutOfBounds \/ e = UB_ArrayOutOfBounds.

(** The shape of a [vector<vector<Point> >]: the length of every point. *)
Definition skeleton {A : Type} (t : list (list (list A))) : list (list nat) :=
  map (map length) t.

Section Vocabulary.
Context `{Sc : Scalar} `{Cfg : @Config Sc}.

(** The value of a read that is known to be in range. *)
Definition val (m : result S_) : S_ :=
  match m with Ok x => x | Err _ => szero end.

(** [jacobi_matrices[j](b,s)]. *)
Definition rd_jac (jacobi : list dFMatrix) (j b s : nat) : result S_ :=
  J <~ rd jacobi j ;; mat_rd J b s.

(** The sum over [b < n] of
    [unit_shape_gradients[i][j](b) * jacobi_matrices[j](b,s)], added up
    from zero in increasing [b], as the innermost loop does. *)
Definition grad_sum (rd_usg : nat -> nat -> nat -> result S_)
  (jacobi : list dFMatrix) (i j s n : nat) : S_ :=
  fold_left
    (fun acc b => sadd acc (smul (val (rd_usg i j b)) (val (rd_jac jacobi j b s))))
    (seq 0 n) szero.

(** Every operand of that sum can be read. *)
Definition reads_ok (rd_usg : nat -> nat -> nat -> result S_)
  (jacobi : list dFMatrix) (i j s : nat) : Prop :=
  forall b, b < dim ->
    is_ok (rd_usg i j b) = true /\ is_ok (rd_jac jacobi j b s) = true.

(** What the gradient loop nest needs at entry [(i,j,s)]. *)
Definition pre_ok (rd_usg : nat -> nat -> nat -> result S_)
  (jacobi : list dFMatrix) (sg : list (list Point)) (i j s : nat) : Prop :=
  is_ok (rd3 sg i j s) = true /\ reads_ok rd_usg jacobi i j s.

(** [sg'] is [sg] with the entries of region [D] replaced by the
    transformed gradient, and nothing else touched. *)
Definition Post (rd_usg : nat -> nat -> nat -> result S_)
  (jacobi : list dFMatrix) (D : nat -> nat -> nat -> Prop)
  (sg sg' : list (list Point)) : Prop :=
  skeleton sg' = skeleton sg /\
  (forall i j s, D i j s ->
     rd3 sg' i j s = Ok (grad_sum rd_usg jacobi i j s dim) /\
     reads_ok rd_usg jacobi i j s) /\
  (forall i j s, ~ D i j s -> rd3 sg' i j s = rd3 sg i j s).

(** The statements of one pass of the loop nest over [s], for fixed
    [i] and [j]. *)
Definition grad_entry (rd_usg : nat -> nat -> nat -> result S_)
  (jacobi : list dFMatrix) (i j s : nat) (sg : list (list Point))
  : result (list (list Point)) :=
  sg0 <~ wr3 sg i j s szero ;;
  for_upto dim (fun b sg =>
    acc <~ rd3 sg i j s ;;
    u <~ rd_usg i j b ;;
    J <~ rd jacobi j ;;
    a <~ mat_rd J b s ;;
    wr3 sg i j s (sadd acc (smul u a))) sg0.

(** The evaluator after the call of [fill_fe_values], if there is one. *)
Definition cell_filled (this : FEValues) (cell : Cell) (fe : FiniteElement)
  (boundary : Boundary) : FEValues :=
  let flags := update_flags this in
  if wants_cell_fill flags
  then set_cell_fill this
         (fill_fe_values fe cell
            (unit_quadrature_points this)
            (jacobi_matrices this) (has flags update_jacobians)
            (ansatz_points this) (has flags update_ansatz_points)
            (quadrature_points this) (has flags update_q_points)
            boundary)
  else this.

(** [weights[i] / jacobi_matrices[i].determinant()]. *)
Definition cell_JxW_at (this : FEValues) (i : nat) : result S_ :=
  w <~ rd (weights this) i ;;
  J <~ rd (jacobi_matrices this) i ;;
  sdiv w (determinant J).

(** The face evaluator after [selected_face = face_no] and the call of
    [fill_fe_face_values], if there is one. *)
Definition face_filled (this : FEFaceValues) (cell : Cell) (face_no : nat)
  (fe : FiniteElement) (boundary : Boundary) : result FEFaceValues :=
  let this := set_selected_face this face_no in
  let flags := f_update_flags this in
  if wants_face_fill flags
  then
    gq <~ rd_arr (f_global_unit_quadrature_points this) face_no ;;
    Ok (set_face_fill this
          (fill_fe_face_values fe cell face_no
             (f_unit_quadrature_points this) gq
             (f_jacobi_matrices this) (has flags update_jacobians)
             (f_ansatz_points this) (has flags update_ansatz_points)
             (f_quadrature_points this) (has flags update_q_points)
             (f_face_jacobi_determinants this)
             (has flags update_JxW_values)
             (f_normal_vectors this)
             (has flags update_normal_vectors)
             boundary))
  else Ok this.

(** [weights[i] * face_jacobi_determinants[i]]. *)
Definition face_JxW_at (this : FEFaceValues) (i : nat) : result S_ :=
  w <~ rd (f_weights this) i ;;
  d <~ rd (f_face_jacobi_determinants this) i ;;
  Ok (smul w d).

(** A sequence of [reinit] calls on one evaluator. *)
Fixpoint FEValues_reinit_all (this : FEValues)
  (calls : list (Cell * FiniteElement * Boundary)) : result FEValues :=
  match calls with
  | [] => Ok this
  | (cell, fe, boundary) :: rest =>
      this' <~ FEValues_reinit this cell fe boundary ;;
      FEValues_reinit_all this' rest
  end.

(** The order of the checks in an accessor: the indices, then the tag
    (if the accessor has one), then the read. *)
Definition checked2 {A : Type} (i m j n : nat) (tag : option bool)
  (read : result A) : result A :=
  if i <? m then
    if j <? n then
      match tag with
      | Some false => Err ExcAccessToUninitializedField
      | _ => read
      end
    else Err (InvalidIndex j n)
  else Err (InvalidIndex i m).

Definition checked1 {A : Type} (i n : nat) (tag : bool) (read : result A)
  : result A :=
  if i <? n then
    if tag then read else Err ExcAccessToUninitializedField
  else Err (InvalidIndex i n).

(** The per-face arrays have their [2*dim] entries and the recorded face
    is one of them. *)
Definition face_inv (this : FEFaceValues) : Prop :=
  selected_face this < 2 * dim /\
  length (f_shape_values this) = 2 * dim /\
  length (f_unit_shape_gradients this) = 2 * dim /\
  length (f_global_unit_quadrature_points this) = 2 * dim.




(** Where the constructor of the face evaluator puts the points of
    face [face]: the image of the coordinate [t] under the embedding of
    that face. *)
Definition embed_face (face : nat) (t : S_) : Point :=
  match face with
  | 0 => Point2 t szero
  | 1 => Point2 sone t
  | 2 => Point2 t sone
  | _ => Point2 szero t
  end.

(** The gradients of an element are points of [dim] coordinates; in the
    source the type [Point<dim>] says so. *)
Definition gradients_have_dim (fe : FiniteElement) : Prop :=
  forall i p, length (fe_shape_grad fe i p) = dim.

(** What the loops of [reinit] need of [fill_fe_values] when it is asked
    for the Jacobians of [nq] points on [cell]: one matrix per point, with
    its [dim] by [dim] entries, none of them singular. *)
Definition cell_mapper_regular (fe : FiniteElement) (cell : Cell) (nq : nat)
  : Prop :=
  forall uqp jac ap ba qp bq boundary,
    length uqp = nq -> length jac = nq ->
    let r := fill_fe_values fe cell uqp jac true ap ba qp bq boundary in
    length (cf_jacobians r) = nq /\
    forall (j : nat) J, cf_jacobians r !! j = Some J ->
      s_is_zero (determinant J) = false /\
      forall b s, b < dim -> s < dim -> is_ok (mat_rd J b s) = true.

(** An evaluator on which [reinit] can run for an element of at most
    [td] shape functions: the arrays indexed by quadrature point have
    [nq] entries, and the gradient tables have an entry for every shape
    function, point and coordinate. *)
Definition cell_ready (td nq : nat) (flags : UpdateFlags) (this : FEValues)
  : Prop :=
  n_quadrature_points this = nq /\
  update_flags this = flags /\
  length (unit_quadrature_points this) = nq /\
  length (weights this) = nq /\
  length (JxW_values this) = nq /\
  (has flags update_jacobians = true -> length (jacobi_matrices this) = nq) /\
  forall i j s, i < td -> j < nq -> s < dim ->
    is_ok (rd3 (shape_gradients this) i j s) = true /\
    is_ok (rd3 (unit_shape_gradients this) i j s) = true.

(** The same for [fill_fe_face_values] on face [face] of [cell]: one
    matrix with its [dim] by [dim] entries and one face determinant per
    quadrature point. *)
Definition face_mapper_regular (fe : FiniteElement) (cell : Cell)
  (face nq : nat) : Prop :=
  forall uqp gq jac ap ba qp bq fjd bd nv bn boundary,
    length gq = nq -> length jac = nq -> length fjd = nq ->
    let r := fill_fe_face_values fe cell face uqp gq jac true ap ba qp bq
               fjd bd nv bn boundary in
    length (ff_jacobians r) = nq /\
    length (ff_face_jacobi_dets r) = nq /\
    forall (j : nat) J, ff_jacobians r !! j = Some J ->
      forall b s, b < dim -> s < dim -> is_ok (mat_rd J b s) = true.

(** A face evaluator on which [reinit] can run for any of the [2*dim]
    faces and an element of at most [td] shape functions. *)
Definition face_ready (td nq : nat) (flags : UpdateFlags)
  (this : FEFaceValues) : Prop :=
  f_n_quadrature_points this = nq /\
  f_update_flags this = flags /\
  length (f_global_unit_quadrature_points this) = 2 * dim /\
  (forall (face : nat) row,
     f_global_unit_quadrature_points this !! face = Some row ->
     length row = nq) /\
  length (f_weights this) = nq /\
  length (f_JxW_values this) = nq /\
  (has flags update_jacobians = true ->
   length (f_jacobi_matrices this) = nq /\
   length (f_face_jacobi_determinants this) = nq) /\
  forall face i j s, face < 2 * dim -> i < td -> j < nq -> s < dim ->
    is_ok (rd3 (f_shape_gradients this) i j s) = true /\
    is_ok (rd_face_usg (f_unit_shape_gradients this) face i j s) = true.

(** A cell mapper that writes the arrays it is asked for from the cell
    and the unit points alone, and hands the others back as they came. *)
Definition cell_mapper_honest (fe : FiniteElement) : Prop :=
  forall cell uqp boundary (bj ba bq : bool) jac ap qp jac' ap' qp',
    let r := fill_fe_values fe cell uqp jac bj ap ba qp bq boundary in
    let r' := fill_fe_values fe cell uqp jac' bj ap' ba qp' bq boundary in
    cf_jacobians r = (if bj then cf_jacobians r' else jac) /\
    cf_ansatz_points r = (if ba then cf_ansatz_points r' else ap) /\
    cf_q_points r = (if bq then cf_q_points r' else qp).

End Vocabulary.

(** ** A concrete instance

    Exact rationals for scalars, [dim = 2], assertions compiled in, the
    bilinear element on the unit square, and as geometry the axis-parallel
    square of edge [h]: the Jacobian of the inverse map is [1/h] times the
    identity, a face has length [h].  The mapper writes exactly the arrays
    whose flag is set. *)
Module Demo.

Definition det2 (A : @dFMatrix QScalar) : Q :=
  match mat_rows A with
  | [[a]] => a
  | [[a; b]; [c; d]] => (a * d - c * b)%Q
  | _ => 0%Q
  end.

#[global] Instance cfg : @Config QScalar := {|
  dim := 2;
  debug := true;
  Cell := Q;
  Boundary := unit;
  determinant := det2;
  update_q_points := 1%N;
  update_gradients := 2%N;
  update_jacobians := 4%N;
  update_JxW_values := 8%N;
  update_ansatz_points := 16%N;
  update_normal_vectors := 32%N
|}.

Definition scale (h : Q) (p : @Point QScalar) : @Point QScalar :=
  map (Qmult h) p.

Definition inverse_jacobian (h : Q) : @dFMatrix QScalar :=
  {| mat_m := 2; mat_n := 2;
     mat_rows := [[(1 / h)%Q; 0%Q]; [0%Q; (1 / h)%Q]] |}.

Definition q1_value (i : nat) (p : @Point QScalar) : Q :=
  match p with
  | [x; y] =>
      match i with
      | O => ((1 - x) * (1 - y))%Q
      | S O => (x * (1 - y))%Q
      | S (S O) => (x * y)%Q
      | _ => ((1 - x) * y)%Q
      end
  | _ => 0%Q
  end.

Definition q1_grad (i : nat) (p : @Point QScalar) : @Point QScalar :=
  match p with
  | [x; y] =>
      match i with
      | O => [(- (1 - y))%Q; (- (1 - x))%Q]
      | S O => [(1 - y)%Q; (- x)%Q]
      | S (S O) => [y; x]
      | _ => [(- y)%Q; (1 - x)%Q]
      end
  | _ => [0%Q; 0%Q]
  end.

Definition vertices : list (@Point QScalar) :=
  [[0; 0]; [1; 0]; [1; 1]; [0; 1]]%Q.

Definition outward_normal (face : nat) : @Point QScalar :=
  match face with
  | O => [0; -1]%Q
  | S O => [1; 0]%Q
  | S (S O) => [0; 1]%Q
  | _ => [-1; 0]%Q
  end.

Definition fe : FiniteElement :=
  {| fe_total_dofs := 4;
     fe_shape_value := q1_value;
     fe_shape_grad := q1_grad;
     fill_fe_values := fun h uqp jac bj ap ba qp bq _ =>
       {| cf_jacobians :=
            if bj then map (fun _ => inverse_jacobian h) uqp else jac;
          cf_ansatz_points := if ba then map (scale h) vertices else ap;
          cf_q_points := if bq then map (scale h) uqp else qp |};
     fill_fe_face_values :=
       fun h face uqp gq jac bj ap ba qp bq fjd bd nv bn _ =>
       {| ff_jacobians :=
            if bj then map (fun _ => inverse_jacobian h) gq else jac;
          ff_ansatz_points := if ba then map (scale h) vertices else ap;
          ff_q_points := if bq then map (scale h) gq else qp;
          ff_face_jacobi_dets := if bd then map (fun _ => h) gq else fjd;
          ff_normal_vectors :=
            if bn then map (fun _ => outward_normal face) gq else nv |} |}.

(** The element of the first two of these shape functions, with the same
    mapper. *)
Definition fe_two : FiniteElement :=
  {| fe_total_dofs := 2;
     fe_shape_value := q1_value;
     fe_shape_grad := q1_grad;
     fill_fe_values := fill_fe_values fe;
     fill_fe_face_values := fill_fe_face_values fe |}.

(** Two points on the diagonal of the unit square, weights 1/2 each. *)
Definition quadrature : Quadrature :=
  {| q_n_quadrature_points := 2;
     quad_point := fun j =>
       match j with O => [1 # 4; 1 # 4] | _ => [3 # 4; 3 # 4] end;
     weight := fun _ => 1 # 2 |}.

(** Two points on the unit interval, weights 1/2 each. *)
Definition face_quadrature : Quadrature :=
  {| q_n_quadrature_points := 2;
     quad_point := fun j => match j with O => [1 # 4] | _ => [3 # 4] end;
     weight := fun _ => 1 # 2 |}.

(** gradients + jacobians + JxW. *)
Definition flags_all : UpdateFlags := 14%N.

Definition unwrap {A : Type} (d : A) (m : result A) : A :=
  match m with Ok a => a | Err _ => d end.

Definition blank : FEValues :=
  {| n_quadrature_points := 0; total_dofs := 0;
     shape_values := dFMatrix_new 0 0;
     shape_gradients := []; unit_shape_gradients := [];
     weights := []; JxW_values := []; quadrature_points := [];
     unit_quadrature_points := []; ansatz_points := [];
     jacobi_matrices := []; update_flags := 0%N |}.

Definition face_blank : FEFaceValues :=
  {| f_n_quadrature_points := 0; f_total_dofs := 0;
     f_shape_values := []; f_shape_gradients := [];
     f_unit_shape_gradients := []; f_weights := []; f_JxW_values := [];
     f_quadrature_points := []; f_unit_quadrature_points := [];
     f_global_unit_quadrature_points := []; f_ansatz_points := [];
     f_jacobi_matrices := []; f_face_jacobi_determinants := [];
     f_normal_vectors := []; f_update_flags := 0%N; selected_face := 0 |}.

(** The cell evaluator as constructed, and after [reinit] on the square
    of edge 2. *)
Definition fev0 : FEValues :=
  Eval vm_compute in unwrap blank (FEValues_ctor fe quadrature flags_all).
Definition fev1 : FEValues :=
  Eval vm_compute in unwrap blank (FEValues_reinit fev0 2%Q fe tt).

(** The face evaluator as constructed, and after [reinit] on faces 1, 2
    and 1 again of the same square. *)
Definition ffv0 : FEFaceValues :=
  Eval vm_compute in
    unwrap face_blank (FEFaceValues_ctor fe face_quadrature flags_all).
Definition ffv1 : FEFaceValues :=
  Eval vm_compute in unwrap face_blank (FEFaceValues_reinit ffv0 2%Q 1 fe tt).
Definition ffv2 : FEFaceValues :=
  Eval vm_compute in unwrap face_blank (FEFaceValues_reinit ffv1 2%Q 2 fe tt).

(** A face evaluator constructed for normal vectors alone. *)
Definition ffv_normals : FEFaceValues :=
  Eval vm_compute in
    unwrap face_blank (FEFaceValues_ctor fe face_quadrature 32%N).

End Demo.

(** ** An instance in three dimensions

    The element with one constant shape function on the unit cube, the
    axis-parallel cube of edge [h] as geometry (its mapper hands the
    normal vectors back as they came), and one quadrature point per
    face; [dbg] says whether assertions are compiled in. *)
Module Demo3.

Definition det3 (A : @dFMatrix QScalar) : Q :=
  match mat_rows A with
  | [[a; b; c]; [d; e; f]; [g; h; i]] =>
      (a * (e * i - f * h) - b * (d * i - f * g) + c * (d * h - e * g))%Q
  | _ => 0%Q
  end.

Definition cfg (dbg : bool) : @Config QScalar := {|
  dim := 3;
  debug := dbg;
  Cell := Q;
  Boundary := unit;
  determinant := det3;
  update_q_points := 1%N;
  update_gradients := 2%N;
  update_jacobians := 4%N;
  update_JxW_values := 8%N;
  update_ansatz_points := 16%N;
  update_normal_vectors := 32%N
|}.

Definition inverse_jacobian (h : Q) : @dFMatrix QScalar :=
  {| mat_m := 3; mat_n := 3;
     mat_rows := [[(1 / h)%Q; 0%Q; 0%Q];
                  [0%Q; (1 / h)%Q; 0%Q];
                  [0%Q; 0%Q; (1 / h)%Q]] |}.

Definition centre (h : Q) : @Point QScalar :=
  [(h / 2)%Q; (h / 2)%Q; (h / 2)%Q].

Definition fe (dbg : bool) : @FiniteElement QScalar (cfg dbg) :=
  @Build_FiniteElement QScalar (cfg dbg)
    1
    (fun _ _ => 1%Q)
    (fun _ _ => [0%Q; 0%Q; 0%Q])
    (fun (h : Q) uqp jac bj ap ba qp bq _ =>
       {| cf_jacobians :=
            if bj then map (fun _ => inverse_jacobian h) uqp else jac;
          cf_ansatz_points := if ba then [centre h] else ap;
          cf_q_points := if bq then map (map (Qmult h)) uqp else qp |})
    (fun (h : Q) face uqp gq jac bj ap ba qp bq fjd bd nv bn _ =>
       {| ff_jacobians :=
            if bj then map (fun _ => inverse_jacobian h) gq else jac;
          ff_ansatz_points := if ba then [centre h] else ap;
          ff_q_points := if bq then map (map (Qmult h)) gq else qp;
          ff_face_jacobi_dets := if bd then map (fun _ => (h * h)%Q) gq else fjd;
          ff_normal_vectors := nv |}).

(** The midpoint of the unit cube, weight 1. *)
Definition quadrature : @Quadrature QScalar :=
  {| q_n_quadrature_points := 1;
     quad_point := fun _ => [1 # 2; 1 # 2; 1 # 2];
     weight := fun _ => 1%Q |}.

(** The midpoint of the unit square, weight 1. *)
Definition face_quadrature : @Quadrature QScalar :=
  {| q_n_quadrature_points := 1;
     quad_point := fun _ => [1 # 2; 1 # 2];
     weight := fun _ => 1%Q |}.

End Demo3.

(** * Proofs *)

(** ** The error monad and the loops *)

Lemma bind_ok {A B : Type} (m : result A) (k : A -> result B) (b : B) :
  bind m k = Ok b -> exists a, m = Ok a /\ k a = Ok b.
Proof. destruct m as [a|e]; simpl; [eauto | discriminate]. Qed.

Lemma bind_err {A B : Type} (m : result A) (k : A -> result B) (e : exc) :
  bind m k = Err e -> m = Err e \/ exists a, m = Ok a /\ k a = Err e.
Proof. destruct m as [a|e']; simpl; [eauto | intros [= ->]; auto]. Qed.

Lemma is_ok_true {A : Type} (m : result A) :
  is_ok m = true <-> exists a, m = Ok a.
Proof.
  destruct m as [x|e0]; simpl; split; eauto; try discriminate.
  intros [y [=]].
Qed.

Lemma is_ok_false {A : Type} (m : result A) :
  is_ok m = false <-> exists e, m = Err e.
Proof.
  destruct m as [x|e0]; simpl; split; eauto; try discriminate.
  intros [y [=]].
Qed.

(** The rule for [for]: an invariant [P] indexed by the loop counter, and
    a condition [E] that every error leaving the body satisfies. *)
Lemma for_from_rule {St : Type} (P : nat -> St -> Prop) (E : exc -> Prop)
  (body : nat -> St -> result St) (n lo : nat) (st : St) :
  P lo st ->
  (forall i a, lo <= i < lo + n -> P i a ->
     match body i a with Ok b => P (S i) b | Err e => E e end) ->
  match for_from lo n body st with
  | Ok st' => P (lo + n) st'
  | Err e => E e
  end.
Proof.
  revert lo st. induction n as [|n IH]; intros lo st HP Hbody; simpl.
  - by rewrite Nat.add_0_r.
  - specialize (Hbody lo st) as Hlo.
    destruct (body lo st) as [st1|e]; simpl.
    + replace (lo + S n) with (S lo + n) by lia.
      apply IH.
      * apply Hlo; [lia | done].
      * intros i a Hi. apply Hbody. lia.
    + apply Hlo; [lia | done].
Qed.

Lemma for_upto_rule {St : Type} (P : nat -> St -> Prop) (E : exc -> Prop)
  (body : nat -> St -> result St) (n : nat) (st : St) :
  P 0 st ->
  (forall i a, i < n -> P i a ->
     match body i a with Ok b => P (S i) b | Err e => E e end) ->
  match for_upto n body st with
  | Ok st' => P n st'
  | Err e => E e
  end.
Proof.
  intros H0 Hb. unfold for_upto.
  apply (for_from_rule P E body n 0 st H0).
  intros i a Hi. apply Hb. lia.
Qed.

(** The same rule, for a goal that mentions the outcome of the loop. *)
Lemma for_upto_elim {St : Type} (P : nat -> St -> Prop) (E : exc -> Prop)
  (body : nat -> St -> result St) (n : nat) (st : St)
  (Q : result St -> Prop) :
  P 0 st ->
  (forall i a, i < n -> P i a ->
     match body i a with Ok b => P (S i) b | Err e => E e end) ->
  (forall st', P n st' -> Q (Ok st')) ->
  (forall e, E e -> Q (Err e)) ->
  Q (for_upto n body st).
Proof.
  intros H0 Hb HOk HErr.
  pose proof (for_upto_rule P E body n st H0 Hb) as H.
  destruct (for_upto n body st); auto.
Qed.

Ltac loop_rule P E :=
  match goal with
  | |- context [for_upto ?n ?body ?st] =>
      pattern (for_upto n body st);
      apply (for_upto_elim P E body n st); cbv beta
  end.

(** A loop whose bound is zero does nothing. *)
Lemma for_upto_0 {St : Type} (body : nat -> St -> result St) (st : St) :
  for_upto 0 body st = Ok st.
Proof. reflexivity. Qed.

(** ** Checked accesses *)

Lemma rd_ok {A : Type} (l : list A) (i : nat) (x : A) :
  rd l i = Ok x <-> l !! i = Some x.
Proof. unfold rd. destruct (l !! i); split; congruence. Qed.

Lemma rd_err {A : Type} (l : list A) (i : nat) (e : exc) :
  rd l i = Err e <-> e = UB_OutOfBounds /\ length l <= i.
Proof.
  unfold rd. destruct (l !! i) eqn:H.
  - split; [discriminate|]. intros [_ Hl].
    apply lookup_lt_Some in H. lia.
  - apply lookup_ge_None in H. split; [intros [= <-]; auto | intros [-> _]; done].
Qed.

Lemma rd_is_ok {A : Type} (l : list A) (i : nat) :
  is_ok (rd l i) = true <-> i < length l.
Proof.
  rewrite is_ok_true. split.
  - intros [x Hx%rd_ok]. by eapply lookup_lt_Some.
  - intros Hi. destruct (lookup_lt_is_Some_2 l i Hi) as [x Hx].
    exists x. by apply rd_ok.
Qed.

Lemma wr_ok {A : Type} (l l' : list A) (i : nat) (x : A) :
  wr l i x = Ok l' <-> i < length l /\ l' = <[i := x]> l.
Proof.
  unfold wr. destruct (l !! i) eqn:H.
  - apply lookup_lt_Some in H. split; [intros [= <-]; auto | intros [_ ->]; done].
  - apply lookup_ge_None in H. split; [discriminate | intros [Hi _]; lia].
Qed.

Lemma wr_err {A : Type} (l : list A) (i : nat) (x : A) (e : exc) :
  wr l i x = Err e <-> e = UB_OutOfBounds /\ length l <= i.
Proof.
  unfold wr. destruct (l !! i) eqn:H.
  - split; [discriminate|]. intros [_ Hl].
    apply lookup_lt_Some in H. lia.
  - apply lookup_ge_None in H. split; [intros [= <-]; auto | intros [-> _]; done].
Qed.

Lemma wr_in_range {A : Type} (l : list A) (i : nat) (x : A) :
  i < length l -> wr l i x = Ok (<[i := x]> l).
Proof. intros Hi. by apply wr_ok. Qed.

Lemma rd_insert {A : Type} (l : list A) (i i' : nat) (x : A) :
  i < length l ->
  rd (<[i := x]> l) i' = if decide (i' = i) then Ok x else rd l i'.
Proof.
  intros Hi. unfold rd. case_decide as Hd.
  - subst. by rewrite list_lookup_insert_eq.
  - by rewrite list_lookup_insert_ne.
Qed.

Lemma rd2_ok {A : Type} (t : list (list A)) (i j : nat) (x : A) :
  rd2 t i j = Ok x <-> exists row, t !! i = Some row /\ row !! j = Some x.
Proof.
  unfold rd2. split.
  - intros (row & Hr%rd_ok & Hx%rd_ok)%bind_ok. eauto.
  - intros (row & Hr%rd_ok & Hx%rd_ok). by rewrite Hr.
Qed.

Lemma rd2_err {A : Type} (t : list (list A)) (i j : nat) (e : exc) :
  rd2 t i j = Err e -> e = UB_OutOfBounds.
Proof.
  unfold rd2. intros [H | (row & _ & H)]%bind_err;
    apply rd_err in H; tauto.
Qed.

Lemma rd3_ok {A : Type} (t : list (list (list A))) (i j k : nat) (x : A) :
  rd3 t i j k = Ok x <->
  exists row p, t !! i = Some row /\ row !! j = Some p /\ p !! k = Some x.
Proof.
  unfold rd3. split.
  - intros (row & Hr%rd_ok & (p & Hp & Hx)%rd2_ok)%bind_ok. eauto.
  - intros (row & p & Hr%rd_ok & Hp & Hx). rewrite Hr. simpl.
    apply rd2_ok. eauto.
Qed.

Lemma rd3_err {A : Type} (t : list (list (list A))) (i j k : nat) (e : exc) :
  rd3 t i j k = Err e -> e = UB_OutOfBounds.
Proof.
  unfold rd3. intros [H | (row & _ & H)]%bind_err.
  - apply rd_err in H; tauto.
  - by apply rd2_err in H.
Qed.

Lemma wr2_ok {A : Type} (t t' : list (list A)) (i j : nat) (x : A) :
  wr2 t i j x = Ok t' <->
  exists row, t !! i = Some row /\ j < length row /\
              t' = <[i := <[j := x]> row]> t.
Proof.
  unfold wr2. split.
  - intros (row & Hr%rd_ok & (row' & [Hj ->]%wr_ok & [_ ->]%wr_ok)%bind_ok)%bind_ok.
    eauto.
  - intros (row & Hr & Hj & ->).
    assert (Hi : i < length t) by by eapply lookup_lt_Some.
    apply rd_ok in Hr. rewrite Hr. simpl.
    rewrite (wr_in_range row j x Hj). simpl. by apply wr_in_range.
Qed.

Lemma wr2_err {A : Type} (t : list (list A)) (i j : nat) (x : A) (e : exc) :
  wr2 t i j x = Err e -> e = UB_OutOfBounds /\ is_ok (rd2 t i j) = false.
Proof.
  unfold wr2, rd2.
  intros [H | (row & Hr & [H | (row' & Hw & H)]%bind_err)]%bind_err.
  - rewrite H. simpl. apply rd_err in H. tauto.
  - rewrite Hr. simpl. apply wr_err in H as [-> Hl]. split; [done|].
    apply is_ok_false. exists UB_OutOfBounds. by apply rd_err.
  - apply rd_ok, lookup_lt_Some in Hr. apply wr_err in H. lia.
Qed.

Lemma wr3_ok {A : Type} (t t' : list (list (list A))) (i j k : nat) (x : A) :
  wr3 t i j k x = Ok t' <->
  exists row p, t !! i = Some row /\ row !! j = Some p /\ k < length p /\
                t' = <[i := <[j := <[k := x]> p]> row]> t.
Proof.
  unfold wr3. split.
  - intros (row & Hr%rd_ok & (row' & (p & Hp & Hk & ->)%wr2_ok & [_ ->]%wr_ok)%bind_ok)%bind_ok.
    eauto 10.
  - intros (row & p & Hr & Hp & Hk & ->).
    assert (Hi : i < length t) by by eapply lookup_lt_Some.
    apply rd_ok in Hr. rewrite Hr. simpl.
    assert (Hw : wr2 row j k x = Ok (<[j := <[k := x]> p]> row))
      by (apply wr2_ok; eauto).
    rewrite Hw. simpl. by apply wr_in_range.
Qed.

Lemma wr3_err {A : Type} (t : list (list (list A))) (i j k : nat) (x : A)
  (e : exc) :
  wr3 t i j k x = Err e -> e = UB_OutOfBounds /\ is_ok (rd3 t i j k) = false.
Proof.
  unfold wr3, rd3.
  intros [H | (row & Hr & [H | (row' & Hw & H)]%bind_err)]%bind_err.
  - rewrite H. simpl. apply rd_err in H. tauto.
  - rewrite Hr. simpl. by apply wr2_err in H.
  - apply rd_ok, lookup_lt_Some in Hr. apply wr_err in H. lia.
Qed.

Lemma rd3_access_error {A : Type} (t : list (list (list A))) (i j k : nat)
  (e : exc) :
  rd3 t i j k = Err e -> access_error e.
Proof. intros H%rd3_err. by left. Qed.

(** Reading after a write: the written entry, or the old content. *)
Lemma rd3_wr3 {A : Type} (t t' : list (list (list A))) (i j k : nat) (x : A) :
  wr3 t i j k x = Ok t' ->
  skeleton t' = skeleton t /\
  rd3 t' i j k = Ok x /\
  (forall i' j' k', ~ (i' = i /\ j' = j /\ k' = k) ->
     rd3 t' i' j' k' = rd3 t i' j' k').
Proof.
  intros (row & p & Hr & Hp & Hk & ->)%wr3_ok.
  assert (Hi : i < length t) by by eapply lookup_lt_Some.
  assert (Hj : j < length row) by by eapply lookup_lt_Some.
  split; [|split].
  - unfold skeleton. rewrite list_fmap_insert.
    apply list_insert_id. rewrite list_lookup_fmap, Hr. simpl. f_equal.
    rewrite list_fmap_insert. symmetry. apply list_insert_id.
    rewrite list_lookup_fmap, Hp. simpl. f_equal.
    by rewrite length_insert.
  - apply rd3_ok. exists (<[j := <[k := x]> p]> row), (<[k := x]> p).
    rewrite !list_lookup_insert_eq by done. done.
  - intros i' j' k' Hne. unfold rd3.
    rewrite (rd_insert t i i' _ Hi). case_decide as Hdi; [subst i'|done].
    apply rd_ok in Hr. rewrite Hr. simpl. unfold rd2.
    rewrite (rd_insert row j j' _ Hj). case_decide as Hdj; [subst j'|done].
    apply rd_ok in Hp. rewrite Hp. simpl.
    rewrite (rd_insert p k k' _ Hk). case_decide as Hdk; [subst k'|done].
    tauto.
Qed.

(** Whether [t[i][j](k)] is in range depends on the shape of [t] only. *)
Lemma rd3_is_ok_skeleton {A : Type} (t : list (list (list A))) (i j k : nat) :
  is_ok (rd3 t i j k) = true <->
  exists r n, skeleton t !! i = Some r /\ r !! j = Some n /\ k < n.
Proof.
  rewrite is_ok_true. unfold skeleton. split.
  - intros [x (row & p & Hr & Hp & Hx)%rd3_ok].
    exists (map length row), (length p).
    rewrite list_lookup_fmap, Hr. simpl. rewrite list_lookup_fmap, Hp. simpl.
    split; [done|]. split; [done|]. by eapply lookup_lt_Some.
  - intros (r & n & Hr & Hn & Hk).
    rewrite list_lookup_fmap in Hr.
    destruct (t !! i) as [row|] eqn:Hrow; [|discriminate].
    simpl in Hr. injection Hr as <-.
    rewrite list_lookup_fmap in Hn.
    destruct (row !! j) as [p|] eqn:Hp; [|discriminate].
    simpl in Hn. injection Hn as <-.
    destruct (lookup_lt_is_Some_2 p k Hk) as [x Hx].
    exists x. apply rd3_ok. eauto.
Qed.

Lemma rd3_is_ok_same_skeleton {A : Type} (t t' : list (list (list A)))
  (i j k : nat) :
  skeleton t = skeleton t' -> is_ok (rd3 t i j k) = is_ok (rd3 t' i j k).
Proof.
  intros Hs.
  destruct (is_ok (rd3 t i j k)) eqn:H1; destruct (is_ok (rd3 t' i j k)) eqn:H2;
    try done.
  - apply rd3_is_ok_skeleton in H1. rewrite Hs in H1.
    apply rd3_is_ok_skeleton in H1. congruence.
  - apply rd3_is_ok_skeleton in H2. rewrite <- Hs in H2.
    apply rd3_is_ok_skeleton in H2. congruence.
Qed.

(** Two tables of one shape with the same entries are the same table. *)
Lemma skeleton_ext {A : Type} (t t' : list (list (list A))) :
  skeleton t = skeleton t' ->
  (forall i j k, rd3 t i j k = rd3 t' i j k) ->
  t = t'.
Proof.
  intros Hs Hrd. apply list_eq. intros i.
  assert (Hsi : skeleton t !! i = skeleton t' !! i) by by rewrite Hs.
  unfold skeleton in Hsi. rewrite !list_lookup_fmap in Hsi.
  destruct (t !! i) as [row|] eqn:Hrow, (t' !! i) as [row'|] eqn:Hrow';
    simpl in Hsi; try done.
  injection Hsi as Hsi. f_equal. apply list_eq. intros j.
  assert (Hsj : map length row !! j = map length row' !! j) by by rewrite Hsi.
  rewrite !list_lookup_fmap in Hsj.
  destruct (row !! j) as [p|] eqn:Hp, (row' !! j) as [p'|] eqn:Hp';
    simpl in Hsj; try done.
  injection Hsj as Hsj. f_equal. apply list_eq. intros k.
  specialize (Hrd i j k). unfold rd3, rd2, rd in Hrd.
  rewrite Hrow, Hrow' in Hrd. simpl in Hrd. rewrite Hp, Hp' in Hrd.
  simpl in Hrd.
  destruct (p !! k) eqn:Hk, (p' !! k) eqn:Hk'; congruence.
Qed.

(** ** The gradient loop nest *)

Section GradientLoop.
Context `{Sc : Scalar} `{Cfg : @Config Sc}.
Variable rd_usg : nat -> nat -> nat -> result S_.
Variable jacobi : list dFMatrix.
Hypothesis rd_usg_err :
  forall i j b e, rd_usg i j b = Err e -> access_error e.

Abbreviation PostG := (Post rd_usg jacobi).
Abbreviation preG := (pre_ok rd_usg jacobi).
Abbreviation gsum := (grad_sum rd_usg jacobi).

Lemma rd_jac_err (j b s : nat) (e : exc) :
  rd_jac jacobi j b s = Err e -> e = UB_OutOfBounds.
Proof.
  unfold rd_jac, mat_rd. intros [H | (J & _ & H)]%bind_err.
  - apply rd_err in H; tauto.
  - by apply rd2_err in H.
Qed.

Lemma grad_sum_S (i j s n : nat) :
  gsum i j s (S n)
  = sadd (gsum i j s n)
      (smul (val (rd_usg i j n)) (val (rd_jac jacobi j n s))).
Proof.
  unfold grad_sum. rewrite seq_S, fold_left_app. reflexivity.
Qed.

Lemma Post_refl (sg : list (list Point)) :
  PostG (fun _ _ _ => False) sg sg.
Proof. split; [done|]. split; [tauto | done]. Qed.

Lemma Post_ext (D D' : nat -> nat -> nat -> Prop) (a b : list (list Point)) :
  (forall i j s, D i j s <-> D' i j s) -> PostG D a b -> PostG D' a b.
Proof.
  intros HD (Hs & Hin & Hout). split; [done|]. split.
  - intros i j s H. apply Hin, HD, H.
  - intros i j s H. apply Hout. by rewrite HD.
Qed.

Lemma Post_trans (D1 D2 : nat -> nat -> nat -> Prop)
  (a b c : list (list Point)) :
  (forall i j s, D2 i j s \/ ~ D2 i j s) ->
  PostG D1 a b -> PostG D2 b c ->
  PostG (fun i j s => D1 i j s \/ D2 i j s) a c.
Proof.
  intros Hdec (Hs1 & Hin1 & Hout1) (Hs2 & Hin2 & Hout2).
  split; [congruence|]. split.
  - intros i j s [H1 | H2]; [|by apply Hin2].
    destruct (Hdec i j s) as [H2 | H2]; [by apply Hin2|].
    rewrite (Hout2 i j s H2). by apply Hin1.
  - intros i j s H.
    rewrite Hout2 by tauto. apply Hout1. tauto.
Qed.

Lemma pre_ok_same_skeleton (a b : list (list Point)) (i j s : nat) :
  skeleton a = skeleton b -> preG a i j s -> preG b i j s.
Proof.
  intros Hs [H1 H2]. split; [|done].
  by rewrite <- (rd3_is_ok_same_skeleton a b i j s Hs).
Qed.

(** One entry: zeroed, then the sum built up over [b]. *)
Lemma grad_entry_spec (i j s : nat) (sg : list (list Point)) :
  match grad_entry rd_usg jacobi i j s sg with
  | Ok sg' => PostG (fun i' j' s' => i' = i /\ j' = j /\ s' = s) sg sg'
  | Err e => access_error e /\ ~ preG sg i j s
  end.
Proof.
  unfold grad_entry.
  destruct (wr3 sg i j s szero) as [sg0|e] eqn:Hw; simpl.
  2:{ apply wr3_err in Hw as [-> Hw]. split; [by left|].
      intros [H _]. congruence. }
  apply rd3_wr3 in Hw as (Hsk0 & Hrd0 & Hfr0).
  set (P := fun (b : nat) (cur : list (list Point)) =>
    skeleton cur = skeleton sg /\
    rd3 cur i j s = Ok (gsum i j s b) /\
    (forall i' j' s', ~ (i' = i /\ j' = j /\ s' = s) ->
       rd3 cur i' j' s' = rd3 sg i' j' s') /\
    (forall b', b' < b ->
       is_ok (rd_usg i j b') = true /\ is_ok (rd_jac jacobi j b' s) = true)).
  set (E := fun e : exc => access_error e /\ ~ preG sg i j s).
  loop_rule P E.
  - unfold P. split; [done|]. split; [done|]. split; [done|]. intros ? ?. lia.
  - intros b cur Hb (Hsk & Hrd & Hfr & Hreads).
    rewrite Hrd. simpl.
    destruct (rd_usg i j b) as [u|e] eqn:Hu; simpl.
    2:{ split; [by eapply rd_usg_err|]. intros [_ Hr].
        destruct (Hr b Hb) as [Hr1 _]. rewrite Hu in Hr1. done. }
    destruct (rd jacobi j) as [J|e] eqn:HJ; simpl.
    2:{ split; [left; apply rd_err in HJ; tauto|]. intros [_ Hr].
        destruct (Hr b Hb) as [_ Hr2]. unfold rd_jac in Hr2.
        rewrite HJ in Hr2. done. }
    destruct (mat_rd J b s) as [a|e] eqn:Ha; simpl.
    2:{ split; [left; by apply rd2_err in Ha|]. intros [_ Hr].
        destruct (Hr b Hb) as [_ Hr2]. unfold rd_jac in Hr2.
        rewrite HJ in Hr2. simpl in Hr2. rewrite Ha in Hr2. done. }
    destruct (wr3 cur i j s _) as [cur'|e] eqn:Hw.
    2:{ apply wr3_err in Hw as [_ Hw]. rewrite Hrd in Hw. done. }
    apply rd3_wr3 in Hw as (Hsk' & Hrd' & Hfr').
    assert (Hjac : rd_jac jacobi j b s = Ok a)
      by (unfold rd_jac; rewrite HJ; simpl; done).
    unfold P. split; [congruence|]. split.
    { rewrite Hrd', grad_sum_S, Hu, Hjac. done. }
    split.
    { intros i' j' s' Hne. rewrite Hfr' by done. by apply Hfr. }
    intros b' Hb'. destruct (decide (b' = b)) as [->|Hne].
    + rewrite Hu, Hjac. done.
    + apply Hreads. lia.
  - intros sg' (Hsk & Hrd & Hfr & Hreads).
    split; [congruence|]. split.
    + intros i' j' s' (-> & -> & ->). split; [done|].
      intros b Hb. by apply Hreads.
    + intros i' j' s' Hne. rewrite Hfr by done. done.
  - intros e He. exact He.
Qed.

(** A loop whose [k]-th pass transforms region [Dbody k] transforms the
    union of the regions; it fails only where its input cannot be
    accessed. *)
Lemma loop_post (body : nat -> list (list Point) -> result (list (list Point)))
  (Dbody : nat -> nat -> nat -> nat -> Prop) (n : nat)
  (sg : list (list Point)) :
  (forall k i j s, Dbody k i j s \/ ~ Dbody k i j s) ->
  (forall k cur, k < n ->
     match body k cur with
     | Ok cur' => PostG (Dbody k) cur cur'
     | Err e => access_error e /\
                ~ (forall i j s, Dbody k i j s -> preG cur i j s)
     end) ->
  match for_upto n body sg with
  | Ok sg' => PostG (fun i j s => exists k, k < n /\ Dbody k i j s) sg sg'
  | Err e => access_error e /\
             ~ (forall i j s, (exists k, k < n /\ Dbody k i j s) -> preG sg i j s)
  end.
Proof.
  intros Hdec Hbody.
  set (P := fun (m : nat) (cur : list (list Point)) =>
    PostG (fun i j s => exists k, k < m /\ Dbody k i j s) sg cur).
  set (E := fun e : exc => access_error e /\
    ~ (forall i j s, (exists k, k < n /\ Dbody k i j s) -> preG sg i j s)).
  loop_rule P E.
  - unfold P. eapply Post_ext; [|apply Post_refl].
    intros i j s. split; [done|]. intros (k & Hk & _). lia.
  - intros m cur Hm HP. specialize (Hbody m cur Hm).
    destruct (body m cur) as [cur'|e].
    + unfold P in *. eapply Post_ext; [|eapply Post_trans; [apply (Hdec m)|exact HP|exact Hbody]].
      intros i j s. split.
      * intros [(k & Hk & HD) | HD]; [exists k | exists m]; split; try done; lia.
      * intros (k & Hk & HD). destruct (decide (k = m)) as [->|Hne]; [by right|].
        left. exists k. split; [lia|done].
    + destruct Hbody as [He Hpre]. split; [done|]. intros Hall. apply Hpre.
      intros i j s HD. destruct HP as (Hsk & _ & _).
      apply (pre_ok_same_skeleton sg cur); [done|].
      apply Hall. exists m. done.
  - intros sg' HP. exact HP.
  - intros e He. exact He.
Qed.

(** The loop over [s], for fixed [i] and [j]. *)
Lemma grad_point_spec (i j : nat) (sg : list (list Point)) :
  match for_upto dim (grad_entry rd_usg jacobi i j) sg with
  | Ok sg' => PostG (fun i' j' s' => i' = i /\ j' = j /\ s' < dim) sg sg'
  | Err e => access_error e /\
             ~ (forall s, s < dim -> preG sg i j s)
  end.
Proof.
  pose proof (loop_post (grad_entry rd_usg jacobi i j)
                (fun s i' j' s' => i' = i /\ j' = j /\ s' = s) dim sg) as H.
  assert (Hdec : forall k i' j' s' : nat,
             (i' = i /\ j' = j /\ s' = k) \/ ~ (i' = i /\ j' = j /\ s' = k))
    by (intros; lia).
  specialize (H Hdec). clear Hdec.
  assert (Hb : forall s cur, s < dim ->
             match grad_entry rd_usg jacobi i j s cur with
             | Ok cur' => PostG (fun i' j' s' => i' = i /\ j' = j /\ s' = s) cur cur'
             | Err e => access_error e /\
                 ~ (forall i' j' s', i' = i /\ j' = j /\ s' = s -> preG cur i' j' s')
             end).
  { intros s cur Hs. pose proof (grad_entry_spec i j s cur) as Hp.
    destruct (grad_entry rd_usg jacobi i j s cur); [done|].
    destruct Hp as [He Hp]. split; [done|]. intros Hall. apply Hp.
    by apply Hall. }
  specialize (H Hb). clear Hb.
  destruct (for_upto dim (grad_entry rd_usg jacobi i j) sg) as [sg'|e].
  - eapply Post_ext; [|apply H].
    intros i' j' s'. split.
    + intros (k & Hk & -> & -> & ->). done.
    + intros (-> & -> & Hs). exists s'. done.
  - destruct H as [He H]. split; [done|]. intros Hall. apply H.
    intros i' j' s' (k & Hk & -> & -> & ->). by apply Hall.
Qed.

(** The loop over [j], for fixed [i]. *)
Lemma grad_row_spec (nq i : nat) (sg : list (list Point)) :
  match for_upto nq (fun j => for_upto dim (grad_entry rd_usg jacobi i j)) sg with
  | Ok sg' => PostG (fun i' j' s' => i' = i /\ j' < nq /\ s' < dim) sg sg'
  | Err e => access_error e /\
             ~ (forall j s, j < nq -> s < dim -> preG sg i j s)
  end.
Proof.
  pose proof (loop_post (fun j => for_upto dim (grad_entry rd_usg jacobi i j))
                (fun j i' j' s' => i' = i /\ j' = j /\ s' < dim) nq sg) as H.
  assert (Hdec : forall k i' j' s' : nat,
             (i' = i /\ j' = k /\ s' < dim) \/ ~ (i' = i /\ j' = k /\ s' < dim))
    by (intros; lia).
  specialize (H Hdec). clear Hdec.
  assert (Hb : forall j cur, j < nq ->
             match for_upto dim (grad_entry rd_usg jacobi i j) cur with
             | Ok cur' => PostG (fun i' j' s' => i' = i /\ j' = j /\ s' < dim) cur cur'
             | Err e => access_error e /\
                 ~ (forall i' j' s', i' = i /\ j' = j /\ s' < dim -> preG cur i' j' s')
             end).
  { intros j cur Hj. pose proof (grad_point_spec i j cur) as Hp.
    destruct (for_upto dim (grad_entry rd_usg jacobi i j) cur); [done|].
    destruct Hp as [He Hp]. split; [done|]. intros Hall. apply Hp.
    intros s Hs. by apply Hall. }
  specialize (H Hb). clear Hb.
  destruct (for_upto nq _ sg) as [sg'|e].
  - eapply Post_ext; [|apply H].
    intros i' j' s'. split.
    + intros (k & Hk & -> & -> & Hs). done.
    + intros (-> & Hj & Hs). exists j'. done.
  - destruct H as [He H]. split; [done|]. intros Hall. apply H.
    intros i' j' s' (k & Hk & -> & -> & Hs). by apply Hall.
Qed.

(** The whole nest. *)
Lemma transform_gradients_spec (td nq : nat) (sg : list (list Point)) :
  match transform_gradients td nq rd_usg jacobi sg with
  | Ok sg' => PostG (fun i j s => i < td /\ j < nq /\ s < dim) sg sg'
  | Err e => access_error e /\
             ~ (forall i j s, i < td -> j < nq -> s < dim -> preG sg i j s)
  end.
Proof.
  change (transform_gradients td nq rd_usg jacobi sg)
    with (for_upto td (fun i => for_upto nq (fun j =>
            for_upto dim (grad_entry rd_usg jacobi i j))) sg).
  pose proof (loop_post
                (fun i => for_upto nq (fun j =>
                   for_upto dim (grad_entry rd_usg jacobi i j)))
                (fun i i' j' s' => i' = i /\ j' < nq /\ s' < dim) td sg) as H.
  assert (Hdec : forall k i' j' s' : nat,
             (i' = k /\ j' < nq /\ s' < dim) \/ ~ (i' = k /\ j' < nq /\ s' < dim))
    by (intros; lia).
  specialize (H Hdec). clear Hdec.
  assert (Hb : forall i cur, i < td ->
             match for_upto nq (fun j => for_upto dim (grad_entry rd_usg jacobi i j)) cur with
             | Ok cur' => PostG (fun i' j' s' => i' = i /\ j' < nq /\ s' < dim) cur cur'
             | Err e => access_error e /\
                 ~ (forall i' j' s', i' = i /\ j' < nq /\ s' < dim -> preG cur i' j' s')
             end).
  { intros i cur Hi. pose proof (grad_row_spec nq i cur) as Hp.
    destruct (for_upto nq _ cur); [done|].
    destruct Hp as [He Hp]. split; [done|]. intros Hall. apply Hp.
    intros j s Hj Hs. by apply Hall. }
  specialize (H Hb). clear Hb.
  destruct (for_upto td _ sg) as [sg'|e].
  - eapply Post_ext; [|apply H].
    intros i' j' s'. split.
    + intros (k & Hk & -> & Hj & Hs). done.
    + intros (Hi & Hj & Hs). exists i'. done.
  - destruct H as [He H]. split; [done|]. intros Hall. apply H.
    intros i' j' s' (k & Hk & -> & Hj & Hs). by apply Hall.
Qed.

End GradientLoop.

(** ** One-dimensional fill loops *)

Lemma bind_assoc {A B C : Type} (m : result A) (f : A -> result B)
  (g : B -> result C) :
  bind (bind m f) g = bind m (fun a => bind (f a) g).
Proof. by destruct m. Qed.

Lemma for_from_ext {St : Type} (body body' : nat -> St -> result St)
  (n lo : nat) (st : St) :
  (forall i a, body i a = body' i a) ->
  for_from lo n body st = for_from lo n body' st.
Proof.
  intros H. revert lo st. induction n as [|n IH]; intros lo st; simpl; [done|].
  rewrite H. destruct (body' lo st); simpl; [apply IH | done].
Qed.

Lemma for_upto_ext {St : Type} (body body' : nat -> St -> result St)
  (n : nat) (st : St) :
  (forall i a, body i a = body' i a) ->
  for_upto n body st = for_upto n body' st.
Proof. apply for_from_ext. Qed.

(** [for (i = 0; i < n; ++i) l[i] = f(i);] *)
Lemma fill_loop_spec {A : Type} (f : nat -> result A) (n : nat) (l : list A) :
  match for_upto n (fun i l => x <~ f i ;; wr l i x) l with
  | Ok l' =>
      length l' = length l /\
      (forall i, i < n -> exists x, f i = Ok x /\ l' !! i = Some x) /\
      (forall i, n <= i -> l' !! i = l !! i)
  | Err e =>
      exists i, i < n /\ (f i = Err e \/ (e = UB_OutOfBounds /\ length l <= i))
  end.
Proof.
  set (P := fun (m : nat) (cur : list A) =>
    length cur = length l /\
    (forall i, i < m -> exists x, f i = Ok x /\ cur !! i = Some x) /\
    (forall i, m <= i -> cur !! i = l !! i)).
  set (E := fun e : exc =>
    exists i, i < n /\ (f i = Err e \/ (e = UB_OutOfBounds /\ length l <= i))).
  loop_rule P E.
  - unfold P. split; [done|]. split; [intros; lia | done].
  - intros m cur Hm (Hlen & Hin & Hout).
    destruct (f m) as [x|e] eqn:Hf; simpl.
    2:{ exists m. auto. }
    destruct (wr cur m x) as [cur'|e] eqn:Hw.
    + apply wr_ok in Hw as [Hlt ->]. unfold P.
      split; [by rewrite length_insert|]. split.
      * intros i Hi. destruct (decide (i = m)) as [->|Hne].
        -- exists x. by rewrite list_lookup_insert_eq.
        -- rewrite list_lookup_insert_ne by done. apply Hin. lia.
      * intros i Hi. rewrite list_lookup_insert_ne by lia. apply Hout. lia.
    + apply wr_err in Hw as [-> Hge]. exists m. split; [done|]. right.
      split; [done|]. lia.
  - intros l' HP. exact HP.
  - intros e He. exact He.
Qed.

(** ** The cell evaluator *)

Section CellEvaluator.
Context `{Sc : Scalar} `{Cfg : @Config Sc}.

Lemma Assert_cases (c : bool) (e : exc) :
  (Assert c e = Ok tt /\ (debug = true -> c = true)) \/
  (Assert c e = Err e /\ debug = true /\ c = false).
Proof. unfold Assert. destruct debug, c; simpl; auto. Qed.

Lemma Assert_true (e : exc) : Assert true e = Ok tt.
Proof. unfold Assert. by destruct debug. Qed.

Lemma Assert_debug (c : bool) (e : exc) :
  debug = true -> Assert c e = if c then Ok tt else Err e.
Proof. unfold Assert. intros ->. by destruct c. Qed.

Lemma set_cell_eta (f : FEValues) :
  set_JxW_values (set_shape_gradients f (shape_gradients f)) (JxW_values f) = f.
Proof. by destruct f. Qed.

Lemma FEValues_reinit_unfold (this : FEValues) (cell : Cell)
  (fe : FiniteElement) (boundary : Boundary) :
  FEValues_reinit this cell fe boundary =
  (let f := cell_filled this cell fe boundary in
   let flags := update_flags this in
   g <~ (if has flags update_gradients
         then
           Assert (has flags update_jacobians) ExcCannotInitializeField ;;;
           sg <~ transform_gradients (fe_total_dofs fe)
                   (n_quadrature_points f)
                   (rd3 (unit_shape_gradients f))
                   (jacobi_matrices f) (shape_gradients f) ;;
           Ok (set_shape_gradients f sg)
         else Ok f) ;;
   if has flags update_JxW_values
   then
     Assert (has flags update_jacobians) ExcCannotInitializeField ;;;
     jxw <~ for_upto (n_quadrature_points g)
              (fun i jxw => x <~ cell_JxW_at g i ;; wr jxw i x)
              (JxW_values g) ;;
     Ok (set_JxW_values g jxw)
   else Ok g).
Proof.
  unfold FEValues_reinit, cell_filled. cbv zeta.
  match goal with |- bind ?m _ = bind ?m' _ => destruct m as [g|e] end;
    simpl; [|done].
  destruct (has (update_flags this) update_JxW_values); [|done].
  destruct (Assert _ _); simpl; [|done].
  f_equal. apply for_upto_ext. intros i cur. unfold cell_JxW_at.
  destruct (rd (weights g) i); simpl; [|done].
  destruct (rd (jacobi_matrices g) i); simpl; [|done].
  done.
Qed.

(** What a successful [reinit] has done. *)
Lemma FEValues_reinit_inv (this this' : FEValues) (cell : Cell)
  (fe : FiniteElement) (boundary : Boundary) :
  FEValues_reinit this cell fe boundary = Ok this' ->
  let f := cell_filled this cell fe boundary in
  let flags := update_flags this in
  this' = set_JxW_values (set_shape_gradients f (shape_gradients this'))
            (JxW_values this') /\
  (if has flags update_gradients
   then (debug = true -> has flags update_jacobians = true) /\
        transform_gradients (fe_total_dofs fe) (n_quadrature_points f)
          (rd3 (unit_shape_gradients f)) (jacobi_matrices f)
          (shape_gradients f) = Ok (shape_gradients this')
   else shape_gradients this' = shape_gradients f) /\
  (if has flags update_JxW_values
   then (debug = true -> has flags update_jacobians = true) /\
        for_upto (n_quadrature_points f)
          (fun i jxw => x <~ cell_JxW_at f i ;; wr jxw i x)
          (JxW_values f) = Ok (JxW_values this')
   else JxW_values this' = JxW_values f).
Proof.
  rewrite FEValues_reinit_unfold. cbv zeta.
  set (f := cell_filled this cell fe boundary).
  set (flags := update_flags this).
  intros (g & Hg & Hj)%bind_ok.
  assert (Hgf : g = set_shape_gradients f (shape_gradients g) /\
    (if has flags update_gradients
     then (debug = true -> has flags update_jacobians = true) /\
          transform_gradients (fe_total_dofs fe) (n_quadrature_points f)
            (rd3 (unit_shape_gradients f)) (jacobi_matrices f)
            (shape_gradients f) = Ok (shape_gradients g)
     else shape_gradients g = shape_gradients f)).
  { destruct (has flags update_gradients).
    - apply bind_ok in Hg as ([] & Ha & Hg).
      apply bind_ok in Hg as (sg & Hsg & [= <-]).
      split; [done|]. split; [|done].
      destruct (Assert_cases (has flags update_jacobians)
                  ExcCannotInitializeField) as [[_ H]|[H _]];
        [done | congruence].
    - injection Hg as <-. split; [by destruct f | done]. }
  destruct Hgf as [Hgeq Hgrad]. clear Hg.
  remember (shape_gradients g) as sgg eqn:Hsgg.
  destruct (has flags update_JxW_values).
  - apply bind_ok in Hj as ([] & Ha & Hj).
    apply bind_ok in Hj as (jxw & Hjxw & [= <-]).
    simpl. rewrite <- Hsgg. clear Hsgg. subst g.
    split; [done|]. split; [done|]. split; [|exact Hjxw].
    destruct (Assert_cases (has flags update_jacobians)
                ExcCannotInitializeField) as [[_ H]|[H _]];
      [done | congruence].
  - injection Hj as <-. rewrite <- Hsgg. clear Hsgg. subst g.
    simpl. split; [by destruct f|]. split; done.
Qed.

End CellEvaluator.

Section CellReinit.
Context `{Sc : Scalar} `{Cfg : @Config Sc}.

(** [fill_fe_values] is handed three arrays only. *)
Lemma cell_filled_frame (this : FEValues) (cell : Cell) (fe : FiniteElement)
  (boundary : Boundary) :
  let f := cell_filled this cell fe boundary in
  n_quadrature_points f = n_quadrature_points this /\
  total_dofs f = total_dofs this /\
  shape_values f = shape_values this /\
  shape_gradients f = shape_gradients this /\
  unit_shape_gradients f = unit_shape_gradients this /\
  weights f = weights this /\
  JxW_values f = JxW_values this /\
  unit_quadrature_points f = unit_quadrature_points this /\
  update_flags f = update_flags this.
Proof.
  unfold cell_filled. cbv zeta.
  destruct (wants_cell_fill (update_flags this)); simpl; tauto.
Qed.

(** The fields [reinit] leaves alone. *)
Lemma FEValues_reinit_frame (this this' : FEValues) (cell : Cell)
  (fe : FiniteElement) (boundary : Boundary) :
  FEValues_reinit this cell fe boundary = Ok this' ->
  n_quadrature_points this' = n_quadrature_points this /\
  total_dofs this' = total_dofs this /\
  shape_values this' = shape_values this /\
  unit_shape_gradients this' = unit_shape_gradients this /\
  weights this' = weights this /\
  unit_quadrature_points this' = unit_quadrature_points this /\
  update_flags this' = update_flags this /\
  jacobi_matrices this' = jacobi_matrices (cell_filled this cell fe boundary) /\
  quadrature_points this' = quadrature_points (cell_filled this cell fe boundary) /\
  ansatz_points this' = ansatz_points (cell_filled this cell fe boundary).
Proof.
  intros (Heq & _ & _)%FEValues_reinit_inv.
  destruct (cell_filled_frame this cell fe boundary)
    as (H1 & H2 & H3 & H4 & H5 & H6 & H7 & H8 & H9).
  rewrite Heq. simpl. tauto.
Qed.

(** The gradients after [reinit], entry by entry. *)
Lemma FEValues_reinit_gradients (this this' : FEValues) (cell : Cell)
  (fe : FiniteElement) (boundary : Boundary) (i j s : nat) :
  FEValues_reinit this cell fe boundary = Ok this' ->
  has (update_flags this) update_gradients = true ->
  i < fe_total_dofs fe -> j < n_quadrature_points this -> s < dim ->
  rd3 (shape_gradients this') i j s
  = Ok (grad_sum (rd3 (unit_shape_gradients this'))
          (jacobi_matrices this') i j s dim) /\
  reads_ok (rd3 (unit_shape_gradients this')) (jacobi_matrices this') i j s.
Proof.
  intros Hok Hflag Hi Hj Hs.
  destruct (FEValues_reinit_frame _ _ _ _ _ Hok)
    as (Hnq & _ & _ & Husg & _ & _ & _ & Hjac & _ & _).
  apply FEValues_reinit_inv in Hok as (_ & Hgrad & _).
  rewrite Hflag in Hgrad. destruct Hgrad as [_ Hgrad].
  destruct (cell_filled_frame this cell fe boundary)
    as (Hnq' & _ & _ & _ & Husg' & _).
  rewrite Husg, Hjac, <- Husg'.
  pose proof (transform_gradients_spec
                (rd3 (unit_shape_gradients (cell_filled this cell fe boundary)))
                (jacobi_matrices (cell_filled this cell fe boundary))
                (rd3_access_error _)
                (fe_total_dofs fe)
                (n_quadrature_points (cell_filled this cell fe boundary))
                (shape_gradients (cell_filled this cell fe boundary))) as Hspec.
  rewrite Hgrad in Hspec. destruct Hspec as (_ & Hin & _).
  apply Hin. rewrite Hnq'. done.
Qed.

(** One entry of the [JxW] loop. *)
Lemma cell_JxW_at_ok (this : FEValues) (i : nat) (x : S_) :
  cell_JxW_at this i = Ok x <->
  exists w J, weights this !! i = Some w /\
              jacobi_matrices this !! i = Some J /\
              s_is_zero (determinant J) = false /\
              x = squot w (determinant J).
Proof.
  unfold cell_JxW_at, sdiv. split.
  - intros (w & Hw%rd_ok & (J & HJ%rd_ok & H)%bind_ok)%bind_ok.
    exists w, J. destruct (s_is_zero (determinant J)); [done|].
    injection H as <-. done.
  - intros (w & J & Hw%rd_ok & HJ%rd_ok & Hz & ->).
    rewrite Hw. simpl. rewrite HJ. simpl. by rewrite Hz.
Qed.

Lemma cell_JxW_at_err (this : FEValues) (i : nat) (e : exc) :
  cell_JxW_at this i = Err e ->
  (e = UB_OutOfBounds /\
   (length (weights this) <= i \/ length (jacobi_matrices this) <= i)) \/
  (e = UB_DivisionByZero /\
   exists J, jacobi_matrices this !! i = Some J /\
             s_is_zero (determinant J) = true).
Proof.
  unfold cell_JxW_at, sdiv.
  intros [H | (w & Hw & [H | (J & HJ%rd_ok & H)]%bind_err)]%bind_err.
  - apply rd_err in H. left. tauto.
  - apply rd_err in H. left. tauto.
  - destruct (s_is_zero (determinant J)) eqn:Hz; [|done].
    injection H as <-. right. eauto.
Qed.

(** The weights after [reinit], entry by entry. *)
Lemma FEValues_reinit_JxW (this this' : FEValues) (cell : Cell)
  (fe : FiniteElement) (boundary : Boundary) (j : nat) :
  FEValues_reinit this cell fe boundary = Ok this' ->
  has (update_flags this) update_JxW_values = true ->
  j < n_quadrature_points this ->
  exists w J,
    weights this' !! j = Some w /\
    jacobi_matrices this' !! j = Some J /\
    s_is_zero (determinant J) = false /\
    JxW_values this' !! j = Some (squot w (determinant J)) /\
    FEValues_JxW this' j = Ok (squot w (determinant J)).
Proof.
  intros Hok Hflag Hj.
  destruct (FEValues_reinit_frame _ _ _ _ _ Hok)
    as (Hnq & _ & _ & _ & Hw & _ & Hfl & Hjac & _ & _).
  apply FEValues_reinit_inv in Hok as (_ & _ & Hjxw).
  rewrite Hflag in Hjxw. destruct Hjxw as [_ Hjxw].
  destruct (cell_filled_frame this cell fe boundary)
    as (Hnq' & _ & _ & _ & _ & Hw' & _).
  pose proof (fill_loop_spec
                (cell_JxW_at (cell_filled this cell fe boundary))
                (n_quadrature_points (cell_filled this cell fe boundary))
                (JxW_values (cell_filled this cell fe boundary))) as Hspec.
  rewrite Hjxw in Hspec. destruct Hspec as (_ & Hin & _).
  destruct (Hin j) as (x & Hx & Hlk); [by rewrite Hnq'|].
  apply cell_JxW_at_ok in Hx as (w & J & Hwj & HJ & Hz & ->).
  exists w, J. rewrite Hw, Hjac, <- Hw'. repeat split; try done.
  unfold FEValues_JxW. rewrite Hnq, Hfl, Hflag.
  apply Nat.ltb_lt in Hj. rewrite Hj, !Assert_true. simpl.
  by apply rd_ok.
Qed.

(** [reinit] never writes the table of values. *)
Lemma FEValues_reinit_all_shape_values (calls : list (Cell * FiniteElement * Boundary))
  (this this' : FEValues) :
  FEValues_reinit_all this calls = Ok this' ->
  shape_values this' = shape_values this.
Proof.
  revert this. induction calls as [|[[cell fe] boundary] rest IH];
    intros this; simpl.
  - by intros [= <-].
  - intros (mid & Hmid & Hrest)%bind_ok.
    apply FEValues_reinit_frame in Hmid as (_ & _ & Hsv & _).
    rewrite (IH mid Hrest). done.
Qed.

End CellReinit.

(** ** Two-dimensional tables *)

Lemma rd2_wr2 {A : Type} (t t' : list (list A)) (i j : nat) (x : A) :
  wr2 t i j x = Ok t' ->
  map length t' = map length t /\
  rd2 t' i j = Ok x /\
  (forall i' j', ~ (i' = i /\ j' = j) -> rd2 t' i' j' = rd2 t i' j').
Proof.
  intros (row & Hr & Hj & ->)%wr2_ok.
  assert (Hi : i < length t) by by eapply lookup_lt_Some.
  split; [|split].
  - rewrite list_fmap_insert. apply list_insert_id.
    rewrite list_lookup_fmap, Hr. simpl. by rewrite length_insert.
  - apply rd2_ok. exists (<[j := x]> row).
    rewrite !list_lookup_insert_eq by done. done.
  - intros i' j' Hne. unfold rd2.
    rewrite (rd_insert t i i' _ Hi). case_decide as Hdi; [subst i'|done].
    apply rd_ok in Hr. rewrite Hr. simpl.
    rewrite (rd_insert row j j' _ Hj). case_decide as Hdj; [subst j'|done].
    tauto.
Qed.

Lemma wr2_in_range {A : Type} (t : list (list A)) (i j : nat) (x : A) :
  is_ok (rd2 t i j) = true -> exists t', wr2 t i j x = Ok t'.
Proof.
  intros H. destruct (wr2 t i j x) as [t'|e] eqn:Hw; [eauto|].
  apply wr2_err in Hw as [_ Hw]. congruence.
Qed.

Lemma rd2_is_ok_wr2 {A : Type} (t t' : list (list A)) (i j i' j' : nat) (x : A) :
  wr2 t i j x = Ok t' -> is_ok (rd2 t' i' j') = is_ok (rd2 t i' j').
Proof.
  intros Hw. pose proof Hw as (_ & Hrd & Hfr)%rd2_wr2.
  destruct (decide (i' = i /\ j' = j)) as [[-> ->]|Hne].
  - rewrite Hrd. simpl. symmetry.
    apply wr2_ok in Hw as (row & Hr & Hj & _).
    destruct (lookup_lt_is_Some_2 row j Hj) as [y Hy].
    apply is_ok_true. exists y. apply rd2_ok. eauto.
  - by rewrite Hfr.
Qed.

Lemma rd_replicate {A : Type} (n i : nat) (x : A) :
  i < n -> rd (replicate n x) i = Ok x.
Proof. intros Hi. apply rd_ok. by apply lookup_replicate_2. Qed.

Lemma rd2_replicate {A : Type} (m n i j : nat) (x : A) :
  i < m -> j < n -> rd2 (replicate m (replicate n x)) i j = Ok x.
Proof.
  intros Hi Hj. apply rd2_ok. exists (replicate n x).
  split; by apply lookup_replicate_2.
Qed.

Lemma rd3_replicate {A : Type} (m n d i j k : nat) (x : A) :
  i < m -> j < n -> k < d ->
  rd3 (replicate m (replicate n (replicate d x))) i j k = Ok x.
Proof.
  intros Hi Hj Hk. apply rd3_ok. exists (replicate n (replicate d x)), (replicate d x).
  repeat split; by apply lookup_replicate_2.
Qed.

(** ** The constructor of the cell evaluator *)

Section CellConstructor.
Context `{Sc : Scalar} `{Cfg : @Config Sc}.

Lemma mat_wr_spec (A A' : dFMatrix) (i j : nat) (x : S_) :
  mat_wr A i j x = Ok A' ->
  mat_m A' = mat_m A /\ mat_n A' = mat_n A /\
  mat_rd A' i j = Ok x /\
  (forall i' j', ~ (i' = i /\ j' = j) -> mat_rd A' i' j' = mat_rd A i' j') /\
  (forall i' j', is_ok (mat_rd A' i' j') = is_ok (mat_rd A i' j')).
Proof.
  unfold mat_wr, mat_rd. intros (rows & Hw & [= <-])%bind_ok. simpl.
  pose proof (rd2_wr2 _ _ _ _ _ Hw) as (_ & Hrd & Hfr).
  repeat split; try done. intros i' j'. by eapply rd2_is_ok_wr2.
Qed.

Lemma mat_wr_in_range (A : dFMatrix) (i j : nat) (x : S_) :
  is_ok (mat_rd A i j) = true -> exists A', mat_wr A i j x = Ok A'.
Proof.
  unfold mat_wr, mat_rd. intros [rows ->]%(wr2_in_range _ _ _ x). simpl. eauto.
Qed.

Lemma mat_rd_new (m n i j : nat) :
  i < m -> j < n -> mat_rd (dFMatrix_new m n) i j = Ok szero.
Proof. intros Hi Hj. unfold mat_rd. simpl. by apply rd2_replicate. Qed.

(** The loop that copies weights and unit points from the quadrature
    rule, shared by both constructors. *)
Lemma copy_quadrature_spec (quadrature : Quadrature) (nq : nat)
  (w0 : list S_) (uqp0 : list Point) :
  length w0 = nq -> length uqp0 = nq ->
  exists w uqp,
    for_upto nq (fun i '(w, uqp) =>
        w' <~ wr w i (weight quadrature i) ;;
        uqp' <~ wr uqp i (quad_point quadrature i) ;;
        Ok (w', uqp')) (w0, uqp0) = Ok (w, uqp) /\
    length w = nq /\ length uqp = nq /\
    (forall i, i < nq -> w !! i = Some (weight quadrature i)) /\
    (forall i, i < nq -> uqp !! i = Some (quad_point quadrature i)).
Proof.
  intros Hw0 Hu0.
  set (P := fun (m : nat) (st : list S_ * list Point) =>
    length (fst st) = nq /\ length (snd st) = nq /\
    (forall i, i < m -> fst st !! i = Some (weight quadrature i)) /\
    (forall i, i < m -> snd st !! i = Some (quad_point quadrature i))).
  set (E := fun _ : exc => False).
  set (Q := fun r : result (list S_ * list Point) =>
    exists w uqp, r = Ok (w, uqp) /\
      length w = nq /\ length uqp = nq /\
      (forall i, i < nq -> w !! i = Some (weight quadrature i)) /\
      (forall i, i < nq -> uqp !! i = Some (quad_point quadrature i))).
  match goal with |- exists w uqp, for_upto ?n ?body ?st = _ /\ _ =>
    change (Q (for_upto n body st));
    apply (for_upto_elim P E body n st Q)
  end.
  - unfold P. simpl. repeat split; try done; intros; lia.
  - intros m [w uqp] Hm (Hlw & Hlu & Hw & Hu). simpl in *.
    rewrite (wr_in_range w m _) by lia. simpl.
    rewrite (wr_in_range uqp m _) by lia. simpl.
    unfold P. simpl. rewrite !length_insert. repeat split; try done.
    + intros i Hi. destruct (decide (i = m)) as [->|Hne].
      * apply list_lookup_insert_eq. lia.
      * rewrite list_lookup_insert_ne by done. apply Hw. lia.
    + intros i Hi. destruct (decide (i = m)) as [->|Hne].
      * apply list_lookup_insert_eq. lia.
      * rewrite list_lookup_insert_ne by done. apply Hu. lia.
  - intros [w uqp] (Hlw & Hlu & Hw & Hu). exists w, uqp. done.
  - intros e [].
Qed.

(** The loop nest that tabulates values and unit gradients. *)
Lemma tabulate_spec (fe : FiniteElement) (quadrature : Quadrature)
  (td nq : nat) (sv0 : dFMatrix) (usg0 : list (list Point)) :
  (forall i j, i < td -> j < nq ->
     is_ok (mat_rd sv0 i j) = true /\ is_ok (rd2 usg0 i j) = true) ->
  exists sv usg,
    for_upto td (fun i =>
      for_upto nq (fun j '(sv, usg) =>
        sv' <~ mat_wr sv i j (fe_shape_value fe i (quad_point quadrature j)) ;;
        usg' <~ wr2 usg i j (fe_shape_grad fe i (quad_point quadrature j)) ;;
        Ok (sv', usg'))) (sv0, usg0) = Ok (sv, usg) /\
    mat_m sv = mat_m sv0 /\ mat_n sv = mat_n sv0 /\
    map length usg = map length usg0 /\
    (forall i j, i < td -> j < nq ->
       mat_rd sv i j = Ok (fe_shape_value fe i (quad_point quadrature j)) /\
       rd2 usg i j = Ok (fe_shape_grad fe i (quad_point quadrature j))).
Proof.
  intros Hrange.
  set (V := fun i j => fe_shape_value fe i (quad_point quadrature j)).
  set (G := fun i j => fe_shape_grad fe i (quad_point quadrature j)).
  set (Inv := fun (D : nat -> nat -> Prop) (st : dFMatrix * list (list Point)) =>
    mat_m (fst st) = mat_m sv0 /\ mat_n (fst st) = mat_n sv0 /\
    map length (snd st) = map length usg0 /\
    (forall i j, i < td -> j < nq ->
       is_ok (mat_rd (fst st) i j) = true /\ is_ok (rd2 (snd st) i j) = true) /\
    (forall i j, D i j ->
       mat_rd (fst st) i j = Ok (V i j) /\ rd2 (snd st) i j = Ok (G i j))).
  set (E := fun _ : exc => False).
  set (Q := fun r : result (dFMatrix * list (list Point)) =>
    exists sv usg, r = Ok (sv, usg) /\
      mat_m sv = mat_m sv0 /\ mat_n sv = mat_n sv0 /\
      map length usg = map length usg0 /\
      (forall i j, i < td -> j < nq ->
         mat_rd sv i j = Ok (V i j) /\ rd2 usg i j = Ok (G i j))).
  match goal with |- exists sv usg, for_upto ?n ?body ?st = _ /\ _ =>
    change (Q (for_upto n body st));
    apply (for_upto_elim (fun m => Inv (fun i j => i < m /\ j < nq)) E body n st Q)
  end.
  - unfold Inv. simpl. repeat split; try done; try (by apply Hrange); lia.
  - intros i st Hi HInv.
    apply (for_upto_elim
             (fun m => Inv (fun i' j' => (i' < i /\ j' < nq) \/ (i' = i /\ j' < m))) E).
    + destruct HInv as (H1 & H2 & H3 & H4 & H5).
      unfold Inv. repeat split; try done; try (by apply H4).
      * apply H5. destruct H as [H|H]; [done|lia].
      * apply H5. destruct H as [H|H]; [done|lia].
    + intros j [sv usg] Hj (H1 & H2 & H3 & H4 & H5). simpl in *.
      destruct (H4 i j Hi Hj) as [Hsv Husg].
      destruct (mat_wr_in_range sv i j (V i j) Hsv) as [sv' Hsv'].
      fold (V i j). rewrite Hsv'. simpl.
      destruct (wr2_in_range usg i j (G i j) Husg) as [usg' Husg'].
      fold (G i j). rewrite Husg'. simpl.
      apply mat_wr_spec in Hsv' as (Hm & Hn & Hrd & Hfr & Hok).
      pose proof (rd2_wr2 _ _ _ _ _ Husg') as (Hlen & Hrd2 & Hfr2).
      unfold Inv. simpl. split; [congruence|]. split; [congruence|].
      split; [congruence|]. split.
      * intros i' j' Hi' Hj'. rewrite Hok.
        rewrite (rd2_is_ok_wr2 _ _ _ _ i' j' _ Husg'). by apply H4.
      * intros i' j' HD.
        destruct (decide (i' = i /\ j' = j)) as [[-> ->]|Hne]; [done|].
        rewrite Hfr, Hfr2 by done. apply H5. lia.
    + intros st' (H1 & H2 & H3 & H4 & H5).
      unfold Inv. repeat split; try done; try (by apply H4).
      * apply H5. lia.
      * apply H5. lia.
    + intros e [].
  - intros [sv usg] (H1 & H2 & H3 & H4 & H5). exists sv, usg.
    simpl in *. repeat split; try done.
    * apply H5. done.
    * apply H5. done.
  - intros e [].
Qed.

End CellConstructor.

Section CellConstructorResult.
Context `{Sc : Scalar} `{Cfg : @Config Sc}.

(** The constructor always returns, and this is what it has built. *)
Lemma FEValues_ctor_spec (fe : FiniteElement) (quadrature : Quadrature)
  (flags : UpdateFlags) :
  exists this,
    FEValues_ctor fe quadrature flags = Ok this /\
    n_quadrature_points this = q_n_quadrature_points quadrature /\
    total_dofs this = fe_total_dofs fe /\
    update_flags this = flags /\
    mat_m (shape_values this) = fe_total_dofs fe /\
    mat_n (shape_values this) = q_n_quadrature_points quadrature /\
    (forall i j, i < fe_total_dofs fe -> j < q_n_quadrature_points quadrature ->
       mat_rd (shape_values this) i j
       = Ok (fe_shape_value fe i (quad_point quadrature j)) /\
       rd2 (unit_shape_gradients this) i j
       = Ok (fe_shape_grad fe i (quad_point quadrature j))) /\
    (forall i, i < q_n_quadrature_points quadrature ->
       weights this !! i = Some (weight quadrature i) /\
       unit_quadrature_points this !! i = Some (quad_point quadrature i) /\
       JxW_values this !! i = Some szero /\
       jacobi_matrices this !! i = Some (dFMatrix_new dim dim)) /\
    shape_gradients this
    = replicate (fe_total_dofs fe)
        (replicate (q_n_quadrature_points quadrature) (Point_origin dim)) /\
    ansatz_points this = replicate (fe_total_dofs fe) (Point_origin dim).
Proof.
  unfold FEValues_ctor. cbv zeta.
  set (nq := q_n_quadrature_points quadrature).
  set (td := fe_total_dofs fe).
  destruct (tabulate_spec fe quadrature td nq (dFMatrix_new td nq)
              (replicate td (replicate nq (Point_origin dim))))
    as (sv & usg & -> & Hm & Hn & _ & Htab).
  { intros i j Hi Hj. rewrite mat_rd_new, rd2_replicate by done. done. }
  simpl.
  destruct (copy_quadrature_spec quadrature nq (replicate nq szero)
              (replicate nq (Point_origin dim)))
    as (w & uqp & -> & _ & _ & Hw & Hu); [by rewrite length_replicate..|].
  simpl. eexists. split; [reflexivity|]. simpl.
  repeat split; try done; try (by apply Htab); try (by apply Hw);
    try (by apply Hu); by apply lookup_replicate_2.
Qed.

(** The accessor on in-range indices is a plain read. *)
Lemma FEValues_shape_value_in_range (this : FEValues) (i j : nat) :
  i < mat_m (shape_values this) -> j < mat_n (shape_values this) ->
  FEValues_shape_value this i j = mat_rd (shape_values this) i j.
Proof.
  intros Hi%Nat.ltb_lt Hj%Nat.ltb_lt. unfold FEValues_shape_value.
  by rewrite Hi, Hj, !Assert_true.
Qed.

End CellConstructorResult.

(** ** The face evaluator *)

Section FaceReinit.
Context `{Sc : Scalar} `{Cfg : @Config Sc}.

Lemma rd_arr_ok {A : Type} (l : list A) (i : nat) (x : A) :
  rd_arr l i = Ok x <-> l !! i = Some x.
Proof. unfold rd_arr. destruct (l !! i); split; congruence. Qed.

Lemma rd_arr_err {A : Type} (l : list A) (i : nat) (e : exc) :
  rd_arr l i = Err e <-> e = UB_ArrayOutOfBounds /\ length l <= i.
Proof.
  unfold rd_arr. destruct (l !! i) eqn:H.
  - split; [discriminate|]. intros [_ Hl].
    apply lookup_lt_Some in H. lia.
  - apply lookup_ge_None in H.
    split; [intros [= <-]; auto | intros [-> _]; done].
Qed.

Lemma rd_arr_in_range {A : Type} (l : list A) (i : nat) :
  i < length l -> exists x, rd_arr l i = Ok x /\ l !! i = Some x.
Proof.
  intros Hi. destruct (lookup_lt_is_Some_2 l i Hi) as [x Hx].
  exists x. split; [by apply rd_arr_ok | done].
Qed.

Lemma wr_arr_ok {A : Type} (l l' : list A) (i : nat) (x : A) :
  wr_arr l i x = Ok l' <-> i < length l /\ l' = <[i := x]> l.
Proof.
  unfold wr_arr. destruct (l !! i) eqn:H.
  - apply lookup_lt_Some in H. split; [intros [= <-]; auto | intros [_ ->]; done].
  - apply lookup_ge_None in H. split; [discriminate | intros [Hi _]; lia].
Qed.

Lemma wr_arr_in_range {A : Type} (l : list A) (i : nat) (x : A) :
  i < length l -> wr_arr l i x = Ok (<[i := x]> l).
Proof. intros Hi. by apply wr_arr_ok. Qed.

Lemma rd_face_usg_err (usgs : list (list (list Point))) (face_no i j b : nat)
  (e : exc) :
  rd_face_usg usgs face_no i j b = Err e -> access_error e.
Proof.
  unfold rd_face_usg. intros [H | (t & _ & H)]%bind_err.
  - apply rd_arr_err in H as [-> _]. by right.
  - by eapply rd3_access_error.
Qed.

Lemma rd_face_usg_ok (usgs : list (list (list Point))) (face_no i j b : nat)
  (t : list (list Point)) :
  usgs !! face_no = Some t ->
  rd_face_usg usgs face_no i j b = rd3 t i j b.
Proof. intros H%rd_arr_ok. unfold rd_face_usg. by rewrite H. Qed.

(** What the fill step of [reinit] does. *)
Lemma face_filled_inv (this f : FEFaceValues) (cell : Cell) (face_no : nat)
  (fe : FiniteElement) (boundary : Boundary) :
  face_filled this cell face_no fe boundary = Ok f ->
  selected_face f = face_no /\
  f_n_quadrature_points f = f_n_quadrature_points this /\
  f_total_dofs f = f_total_dofs this /\
  f_shape_values f = f_shape_values this /\
  f_shape_gradients f = f_shape_gradients this /\
  f_unit_shape_gradients f = f_unit_shape_gradients this /\
  f_weights f = f_weights this /\
  f_JxW_values f = f_JxW_values this /\
  f_unit_quadrature_points f = f_unit_quadrature_points this /\
  f_global_unit_quadrature_points f = f_global_unit_quadrature_points this /\
  f_update_flags f = f_update_flags this /\
  (wants_face_fill (f_update_flags this) = true ->
   face_no < length (f_global_unit_quadrature_points this)).
Proof.
  unfold face_filled. cbv zeta. simpl.
  destruct (wants_face_fill (f_update_flags this)).
  - intros (gq & Hgq%rd_arr_ok & [= <-])%bind_ok. simpl.
    repeat split; try done. intros _. by eapply lookup_lt_Some.
  - intros [= <-]. simpl. repeat split; done.
Qed.

Lemma FEFaceValues_reinit_unfold (this : FEFaceValues) (cell : Cell)
  (face_no : nat) (fe : FiniteElement) (boundary : Boundary) :
  FEFaceValues_reinit this cell face_no fe boundary =
  (let flags := f_update_flags this in
   f <~ face_filled this cell face_no fe boundary ;;
   g <~ (if has flags update_gradients
         then
           Assert (has flags update_jacobians) ExcCannotInitializeField ;;;
           sg <~ transform_gradients (fe_total_dofs fe)
                   (f_n_quadrature_points f)
                   (rd_face_usg (f_unit_shape_gradients f) face_no)
                   (f_jacobi_matrices f) (f_shape_gradients f) ;;
           Ok (set_f_shape_gradients f sg)
         else Ok f) ;;
   if has flags update_JxW_values
   then
     Assert (has flags update_jacobians) ExcCannotInitializeField ;;;
     jxw <~ for_upto (f_n_quadrature_points g)
              (fun i jxw => x <~ face_JxW_at g i ;; wr jxw i x)
              (f_JxW_values g) ;;
     Ok (set_f_JxW_values g jxw)
   else Ok g).
Proof.
  unfold FEFaceValues_reinit, face_filled. cbv zeta. simpl.
  match goal with |- bind ?m _ = bind ?m' _ => destruct m as [f|e] end;
    simpl; [|done].
  match goal with |- bind ?m _ = bind ?m' _ => destruct m as [g|e] end;
    simpl; [|done].
  destruct (has (f_update_flags this) update_JxW_values); [|done].
  destruct (Assert _ _); simpl; [|done].
  f_equal. apply for_upto_ext. intros i cur. unfold face_JxW_at.
  destruct (rd (f_weights g) i); simpl; [|done].
  destruct (rd (f_face_jacobi_determinants g) i); simpl; done.
Qed.

(** What a successful [reinit] has done. *)
Lemma FEFaceValues_reinit_inv (this this' : FEFaceValues) (cell : Cell)
  (face_no : nat) (fe : FiniteElement) (boundary : Boundary) :
  FEFaceValues_reinit this cell face_no fe boundary = Ok this' ->
  let flags := f_update_flags this in
  exists f,
    face_filled this cell face_no fe boundary = Ok f /\
    this' = set_f_JxW_values (set_f_shape_gradients f (f_shape_gradients this'))
              (f_JxW_values this') /\
    (if has flags update_gradients
     then (debug = true -> has flags update_jacobians = true) /\
          transform_gradients (fe_total_dofs fe) (f_n_quadrature_points f)
            (rd_face_usg (f_unit_shape_gradients f) face_no)
            (f_jacobi_matrices f) (f_shape_gradients f)
          = Ok (f_shape_gradients this')
     else f_shape_gradients this' = f_shape_gradients f) /\
    (if has flags update_JxW_values
     then (debug = true -> has flags update_jacobians = true) /\
          for_upto (f_n_quadrature_points f)
            (fun i jxw => x <~ face_JxW_at f i ;; wr jxw i x)
            (f_JxW_values f) = Ok (f_JxW_values this')
     else f_JxW_values this' = f_JxW_values f).
Proof.
  rewrite FEFaceValues_reinit_unfold. cbv zeta.
  set (flags := f_update_flags this).
  intros (f & Hf & (g & Hg & Hj)%bind_ok)%bind_ok.
  exists f. split; [done|].
  assert (Hgf : g = set_f_shape_gradients f (f_shape_gradients g) /\
    (if has flags update_gradients
     then (debug = true -> has flags update_jacobians = true) /\
          transform_gradients (fe_total_dofs fe) (f_n_quadrature_points f)
            (rd_face_usg (f_unit_shape_gradients f) face_no)
            (f_jacobi_matrices f) (f_shape_gradients f)
          = Ok (f_shape_gradients g)
     else f_shape_gradients g = f_shape_gradients f)).
  { destruct (has flags update_gradients).
    - apply bind_ok in Hg as ([] & Ha & Hg).
      apply bind_ok in Hg as (sg & Hsg & [= <-]).
      split; [done|]. split; [|done].
      destruct (Assert_cases (has flags update_jacobians)
                  ExcCannotInitializeField) as [[_ H]|[H _]];
        [done | congruence].
    - injection Hg as <-. split; [by destruct f | done]. }
  destruct Hgf as [Hgeq Hgrad]. clear Hg.
  remember (f_shape_gradients g) as sgg eqn:Hsgg.
  destruct (has flags update_JxW_values).
  - apply bind_ok in Hj as ([] & Ha & Hj).
    apply bind_ok in Hj as (jxw & Hjxw & [= <-]).
    simpl. rewrite <- Hsgg. clear Hsgg. subst g.
    split; [done|]. split; [done|]. split; [|exact Hjxw].
    destruct (Assert_cases (has flags update_jacobians)
                ExcCannotInitializeField) as [[_ H]|[H _]];
      [done | congruence].
  - injection Hj as <-. rewrite <- Hsgg. clear Hsgg. subst g.
    simpl. split; [by destruct f|]. split; done.
Qed.

(** The fields [reinit] leaves alone, and the face it records. *)
Lemma FEFaceValues_reinit_frame (this this' : FEFaceValues) (cell : Cell)
  (face_no : nat) (fe : FiniteElement) (boundary : Boundary) :
  FEFaceValues_reinit this cell face_no fe boundary = Ok this' ->
  selected_face this' = face_no /\
  f_n_quadrature_points this' = f_n_quadrature_points this /\
  f_total_dofs this' = f_total_dofs this /\
  f_shape_values this' = f_shape_values this /\
  f_unit_shape_gradients this' = f_unit_shape_gradients this /\
  f_weights this' = f_weights this /\
  f_unit_quadrature_points this' = f_unit_quadrature_points this /\
  f_global_unit_quadrature_points this'
  = f_global_unit_quadrature_points this /\
  f_update_flags this' = f_update_flags this.
Proof.
  intros (f & Hf & Heq & _ & _)%FEFaceValues_reinit_inv.
  apply face_filled_inv in Hf
    as (H1 & H2 & H3 & H4 & H5 & H6 & H7 & H8 & H9 & H10 & H11 & _).
  rewrite Heq. simpl. tauto.
Qed.

(** The gradients after [reinit], entry by entry: the sum of the cell
    evaluator, with the unit gradients of the table of face [face_no]. *)
Lemma FEFaceValues_reinit_gradients (this this' : FEFaceValues) (cell : Cell)
  (face_no : nat) (fe : FiniteElement) (boundary : Boundary) (i j s : nat) :
  FEFaceValues_reinit this cell face_no fe boundary = Ok this' ->
  has (f_update_flags this) update_gradients = true ->
  i < fe_total_dofs fe -> j < f_n_quadrature_points this -> s < dim ->
  rd3 (f_shape_gradients this') i j s
  = Ok (grad_sum (rd_face_usg (f_unit_shape_gradients this') face_no)
          (f_jacobi_matrices this') i j s dim) /\
  reads_ok (rd_face_usg (f_unit_shape_gradients this') face_no)
    (f_jacobi_matrices this') i j s.
Proof.
  intros Hok Hflag Hi Hj Hs.
  destruct (FEFaceValues_reinit_frame _ _ _ _ _ _ Hok)
    as (_ & Hnq & _ & _ & Husg & _).
  apply FEFaceValues_reinit_inv in Hok as (f & Hf & Heq & Hgrad & _).
  rewrite Hflag in Hgrad. destruct Hgrad as [_ Hgrad].
  apply face_filled_inv in Hf
    as (_ & Hnq' & _ & _ & _ & Husg' & _).
  assert (Hjac : f_jacobi_matrices this' = f_jacobi_matrices f)
    by (rewrite Heq; done).
  rewrite Husg, Hjac, <- Husg'.
  pose proof (transform_gradients_spec
                (rd_face_usg (f_unit_shape_gradients f) face_no)
                (f_jacobi_matrices f)
                (rd_face_usg_err _ _)
                (fe_total_dofs fe) (f_n_quadrature_points f)
                (f_shape_gradients f)) as Hspec.
  rewrite Hgrad in Hspec. destruct Hspec as (_ & Hin & _).
  apply Hin. rewrite Hnq'. done.
Qed.

Lemma face_JxW_at_ok (this : FEFaceValues) (i : nat) (x : S_) :
  face_JxW_at this i = Ok x <->
  exists w d, f_weights this !! i = Some w /\
              f_face_jacobi_determinants this !! i = Some d /\
              x = smul w d.
Proof.
  unfold face_JxW_at. split.
  - intros (w & Hw%rd_ok & (d & Hd%rd_ok & [= <-])%bind_ok)%bind_ok. eauto.
  - intros (w & d & Hw%rd_ok & Hd%rd_ok & ->).
    rewrite Hw. simpl. by rewrite Hd.
Qed.

Lemma face_JxW_at_err (this : FEFaceValues) (i : nat) (e : exc) :
  face_JxW_at this i = Err e -> e = UB_OutOfBounds.
Proof.
  unfold face_JxW_at.
  intros [H | (w & Hw & [H | (d & _ & H)]%bind_err)]%bind_err;
    try (apply rd_err in H; tauto). done.
Qed.

(** The weights after [reinit], entry by entry. *)
Lemma FEFaceValues_reinit_JxW (this this' : FEFaceValues) (cell : Cell)
  (face_no : nat) (fe : FiniteElement) (boundary : Boundary) (j : nat) :
  FEFaceValues_reinit this cell face_no fe boundary = Ok this' ->
  has (f_update_flags this) update_JxW_values = true ->
  j < f_n_quadrature_points this ->
  exists w d,
    f_weights this' !! j = Some w /\
    f_face_jacobi_determinants this' !! j = Some d /\
    f_JxW_values this' !! j = Some (smul w d) /\
    FEFaceValues_JxW this' j = Ok (smul w d).
Proof.
  intros Hok Hflag Hj.
  destruct (FEFaceValues_reinit_frame _ _ _ _ _ _ Hok)
    as (_ & Hnq & _ & _ & _ & Hw & _ & _ & Hfl).
  apply FEFaceValues_reinit_inv in Hok as (f & Hf & Heq & _ & Hjxw).
  rewrite Hflag in Hjxw. destruct Hjxw as [_ Hjxw].
  apply face_filled_inv in Hf
    as (_ & Hnq' & _ & _ & _ & _ & Hw' & _).
  assert (Hfjd : f_face_jacobi_determinants this'
                 = f_face_jacobi_determinants f) by (rewrite Heq; done).
  pose proof (fill_loop_spec (face_JxW_at f) (f_n_quadrature_points f)
                (f_JxW_values f)) as Hspec.
  rewrite Hjxw in Hspec. destruct Hspec as (_ & Hin & _).
  destruct (Hin j) as (x & Hx & Hlk); [by rewrite Hnq'|].
  apply face_JxW_at_ok in Hx as (w & d & Hwj & Hd & ->).
  exists w, d. rewrite Hw, Hfjd, <- Hw'. repeat split; try done.
  unfold FEFaceValues_JxW. rewrite Hnq, Hfl, Hflag.
  apply Nat.ltb_lt in Hj. rewrite Hj, !Assert_true. simpl.
  by apply rd_ok.
Qed.

End FaceReinit.

Section FaceFill.
Context `{Sc : Scalar} `{Cfg : @Config Sc}.

(** With [JxW] requested, the face determinants the loop reads are the
    ones [fill_fe_face_values] has just returned. *)
Lemma FEFaceValues_reinit_face_dets (this this' : FEFaceValues) (cell : Cell)
  (face_no : nat) (fe : FiniteElement) (boundary : Boundary) :
  FEFaceValues_reinit this cell face_no fe boundary = Ok this' ->
  has (f_update_flags this) update_JxW_values = true ->
  exists gq,
    f_global_unit_quadrature_points this !! face_no = Some gq /\
    f_face_jacobi_determinants this'
    = ff_face_jacobi_dets
        (fill_fe_face_values fe cell face_no
           (f_unit_quadrature_points this) gq
           (f_jacobi_matrices this)
           (has (f_update_flags this) update_jacobians)
           (f_ansatz_points this)
           (has (f_update_flags this) update_ansatz_points)
           (f_quadrature_points this)
           (has (f_update_flags this) update_q_points)
           (f_face_jacobi_determinants this) true
           (f_normal_vectors this)
           (has (f_update_flags this) update_normal_vectors)
           boundary).
Proof.
  intros (f & Hf & Heq & _)%FEFaceValues_reinit_inv Hflag.
  unfold face_filled in Hf. cbv zeta in Hf. simpl in Hf.
  unfold wants_face_fill in Hf. rewrite Hflag in Hf.
  rewrite !orb_true_r in Hf.
  apply bind_ok in Hf as (gq & Hgq%rd_arr_ok & [= <-]).
  exists gq. split; [done|]. rewrite Heq. reflexivity.
Qed.

End FaceFill.

(** ** How [reinit] of the cell evaluator can fail *)

Section CellReinitFailure.
Context `{Sc : Scalar} `{Cfg : @Config Sc}.

Lemma FEValues_reinit_err (this : FEValues) (cell : Cell)
  (fe : FiniteElement) (boundary : Boundary) (e : exc) :
  FEValues_reinit this cell fe boundary = Err e ->
  (e = ExcCannotInitializeField /\ debug = true /\
   has (update_flags this) update_jacobians = false /\
   (has (update_flags this) update_gradients = true \/
    has (update_flags this) update_JxW_values = true)) \/
  access_error e \/
  (e = UB_DivisionByZero /\
   has (update_flags this) update_JxW_values = true /\
   exists j J,
     j < n_quadrature_points this /\
     jacobi_matrices (cell_filled this cell fe boundary) !! j = Some J /\
     s_is_zero (determinant J) = true).
Proof.
  rewrite FEValues_reinit_unfold. cbv zeta.
  set (f := cell_filled this cell fe boundary).
  set (flags := update_flags this).
  destruct (cell_filled_frame this cell fe boundary)
    as (Hnq & _). fold f in Hnq.
  assert (Hgrad : forall g,
    (if has flags update_gradients
     then
       Assert (has flags update_jacobians) ExcCannotInitializeField ;;;
       sg <~ transform_gradients (fe_total_dofs fe) (n_quadrature_points f)
               (rd3 (unit_shape_gradients f)) (jacobi_matrices f)
               (shape_gradients f) ;;
       Ok (set_shape_gradients f sg)
     else Ok f) = Ok g ->
    n_quadrature_points g = n_quadrature_points f /\
    weights g = weights f /\ jacobi_matrices g = jacobi_matrices f).
  { intros g Hg. destruct (has flags update_gradients).
    - apply bind_ok in Hg as ([] & _ & Hg).
      apply bind_ok in Hg as (sg & _ & [= <-]). done.
    - by injection Hg as <-. }
  intros [Hg | (g & Hg & Hj)]%bind_err.
  - destruct (has flags update_gradients) eqn:Hfg; [|done].
    apply bind_err in Hg as [Ha | ([] & _ & Hg)].
    + left.
      destruct (Assert_cases (has flags update_jacobians)
                  ExcCannotInitializeField) as [[H _]|(H & Hd & Hc)];
        [congruence|].
      rewrite H in Ha. injection Ha as <-. auto.
    + right. left.
      apply bind_err in Hg as [Hg | (sg & _ & [=])].
      pose proof (transform_gradients_spec
                    (rd3 (unit_shape_gradients f)) (jacobi_matrices f)
                    (rd3_access_error _)
                    (fe_total_dofs fe) (n_quadrature_points f)
                    (shape_gradients f)) as Hspec.
      rewrite Hg in Hspec. tauto.
  - destruct (Hgrad g Hg) as (Hnqg & Hwg & Hjg).
    destruct (has flags update_JxW_values) eqn:Hfj; [|done].
    apply bind_err in Hj as [Ha | ([] & _ & Hj)].
    + left.
      destruct (Assert_cases (has flags update_jacobians)
                  ExcCannotInitializeField) as [[H _]|(H & Hd & Hc)];
        [congruence|].
      rewrite H in Ha. injection Ha as <-. auto.
    + apply bind_err in Hj as [Hj | (jxw & _ & [=])].
      pose proof (fill_loop_spec (cell_JxW_at g) (n_quadrature_points g)
                    (JxW_values g)) as Hspec.
      rewrite Hj in Hspec.
      destruct Hspec as (j & Hlt & [Hat | [-> _]]);
        [|right; left; by left].
      apply cell_JxW_at_err in Hat as [[-> _] | (-> & J & HJ & Hz)].
      * right. left. by left.
      * right. right. split; [done|]. split; [done|].
        exists j, J. rewrite <- Hjg. split; [lia|]. done.
Qed.

End CellReinitFailure.

(** ** The constructor of the face evaluator *)

Lemma for_upto_preserves {St : Type} (I : St -> Prop)
  (body : nat -> St -> result St) (n : nat) (st st' : St) :
  I st ->
  (forall i a b, i < n -> I a -> body i a = Ok b -> I b) ->
  for_upto n body st = Ok st' -> I st'.
Proof.
  intros HI Hbody Hloop.
  pose proof (for_upto_rule (fun _ => I) (fun _ => True) body n st HI) as H.
  rewrite Hloop in H. apply H.
  intros i a Hi Ha. specialize (Hbody i a).
  destruct (body i a); [|done]. by eapply Hbody.
Qed.

Section FaceConstructor.
Context `{Sc : Scalar} `{Cfg : @Config Sc}.

Lemma embed_face_point_length (uqp : list Point) (face p : nat)
  (guqp guqp' : list (list Point)) :
  embed_face_point uqp face p guqp = Ok guqp' ->
  length guqp' = length guqp.
Proof.
  unfold embed_face_point.
  assert (Hassign : forall x : result Point,
    (pt <~ x ;; row <~ rd_arr guqp face ;; row' <~ wr row p pt ;;
     wr_arr guqp face row') = Ok guqp' -> length guqp' = length guqp).
  { intros x (pt & _ & (row & _ & (row' & _ & [_ ->]%wr_arr_ok)%bind_ok)%bind_ok)%bind_ok.
    by rewrite length_insert. }
  destruct (dim =? 2).
  - destruct face as [|[|[|[|face]]]]; try apply Hassign.
    intros ([] & _ & [= <-])%bind_ok. done.
  - intros ([] & _ & [= <-])%bind_ok. done.
Qed.

(** What every successfully constructed face evaluator satisfies,
    whatever [dim] is. *)
Lemma FEFaceValues_ctor_inv (fe : FiniteElement) (quadrature : Quadrature)
  (flags : UpdateFlags) (this : FEFaceValues) :
  FEFaceValues_ctor fe quadrature flags = Ok this ->
  selected_face this = 0 /\
  f_update_flags this = flags /\
  f_n_quadrature_points this = q_n_quadrature_points quadrature /\
  f_total_dofs this = fe_total_dofs fe /\
  length (f_shape_values this) = 2 * dim /\
  length (f_unit_shape_gradients this) = 2 * dim /\
  length (f_global_unit_quadrature_points this) = 2 * dim.
Proof.
  unfold FEFaceValues_ctor. cbv zeta.
  intros (arrs & Harrs & (guqp & Hguqp & (wq & Hwq & (tabs & Htabs & [= <-])%bind_ok)%bind_ok)%bind_ok)%bind_ok.
  simpl.
  assert (H1 : length (fst (fst arrs)) = 2 * dim /\
               length (snd (fst arrs)) = 2 * dim /\
               length (snd arrs) = 2 * dim).
  { revert Harrs.
    apply (for_upto_preserves
             (fun st : list dFMatrix * list (list (list Point)) * list (list Point) =>
                length (fst (fst st)) = 2 * dim /\
                length (snd (fst st)) = 2 * dim /\
                length (snd st) = 2 * dim)).
    - simpl. by rewrite !length_replicate.
    - intros face [[svs usgs] gq] b _ (Hs & Hu & Hg). simpl in *.
      intros (svs' & [_ ->]%wr_arr_ok & (usgs' & [_ ->]%wr_arr_ok & (gq' & [_ ->]%wr_arr_ok & [= <-])%bind_ok)%bind_ok)%bind_ok.
      simpl. by rewrite !length_insert. }
  destruct H1 as (Hs1 & Hu1 & Hg1).
  assert (H2 : length guqp = 2 * dim).
  { revert Hguqp.
    apply (for_upto_preserves (fun g : list (list Point) => length g = 2 * dim));
      [done|].
    intros face a b _ Ha.
    apply (for_upto_preserves (fun g : list (list Point) => length g = 2 * dim));
      [done|].
    intros p a' b' _ Ha' Hb'. apply embed_face_point_length in Hb'. congruence. }
  assert (H4 : length (fst tabs) = 2 * dim /\ length (snd tabs) = 2 * dim).
  { revert Htabs.
    apply (for_upto_preserves
             (fun st : list dFMatrix * list (list (list Point)) =>
                length (fst st) = 2 * dim /\ length (snd st) = 2 * dim));
      [done|].
    intros face a b _ Ha.
    apply (for_upto_preserves
             (fun st : list dFMatrix * list (list (list Point)) =>
                length (fst st) = 2 * dim /\ length (snd st) = 2 * dim));
      [done|].
    intros i a' b' _ Ha'.
    apply (for_upto_preserves
             (fun st : list dFMatrix * list (list (list Point)) =>
                length (fst st) = 2 * dim /\ length (snd st) = 2 * dim));
      [done|].
    intros j [svs usgs] b'' _ [Hs Hu]. simpl in *.
    intros (gp & _ & (M & _ & (M' & _ & (svs' & [_ ->]%wr_arr_ok & (gp' & _ & (t & _ & (t' & _ & (usgs' & [_ ->]%wr_arr_ok & [= <-])%bind_ok)%bind_ok)%bind_ok)%bind_ok)%bind_ok)%bind_ok)%bind_ok)%bind_ok.
    simpl. by rewrite !length_insert. }
  tauto.
Qed.

(** The constructors take the flags as they come. *)
Lemma FEFaceValues_ctor_flags (fe : FiniteElement) (quadrature : Quadrature)
  (flags flags' : UpdateFlags) :
  is_ok (FEFaceValues_ctor fe quadrature flags)
  = is_ok (FEFaceValues_ctor fe quadrature flags').
Proof.
  unfold FEFaceValues_ctor. cbv zeta.
  repeat (match goal with
          | |- is_ok (bind ?m _) = is_ok (bind ?m _) =>
              destruct m; simpl; [|done]
          end).
  done.
Qed.

End FaceConstructor.

(** ** Flags that cannot be satisfied *)

Section Unsatisfiable.
Context `{Sc : Scalar} `{Cfg : @Config Sc}.

Lemma FEValues_reinit_unsatisfiable (this : FEValues) (cell : Cell)
  (fe : FiniteElement) (boundary : Boundary) :
  debug = true ->
  has (update_flags this) update_jacobians = false ->
  has (update_flags this) update_gradients = true \/
  has (update_flags this) update_JxW_values = true ->
  FEValues_reinit this cell fe boundary = Err ExcCannotInitializeField.
Proof.
  intros Hd Hjac Hreq. rewrite FEValues_reinit_unfold. cbv zeta.
  rewrite Hjac, (Assert_debug _ _ Hd).
  destruct (has (update_flags this) update_gradients); [done|].
  destruct Hreq as [Hreq | Hreq]; [done|]. simpl. by rewrite Hreq.
Qed.

Lemma FEFaceValues_reinit_unsatisfiable (this : FEFaceValues) (cell : Cell)
  (face_no : nat) (fe : FiniteElement) (boundary : Boundary) :
  debug = true ->
  face_no < length (f_global_unit_quadrature_points this) ->
  has (f_update_flags this) update_jacobians = false ->
  has (f_update_flags this) update_gradients = true \/
  has (f_update_flags this) update_JxW_values = true ->
  FEFaceValues_reinit this cell face_no fe boundary
  = Err ExcCannotInitializeField.
Proof.
  intros Hd Hface Hjac Hreq. rewrite FEFaceValues_reinit_unfold. cbv zeta.
  assert (Hf : exists f, face_filled this cell face_no fe boundary = Ok f).
  { unfold face_filled. cbv zeta. simpl.
    destruct (wants_face_fill (f_update_flags this)); [|eauto].
    destruct (rd_arr_in_range _ _ Hface) as (gq & -> & _). simpl. eauto. }
  destruct Hf as [f ->]. simpl.
  rewrite Hjac, (Assert_debug _ _ Hd).
  destruct (has (f_update_flags this) update_gradients); [done|].
  destruct Hreq as [Hreq | Hreq]; [done|]. simpl. by rewrite Hreq.
Qed.

End Unsatisfiable.

(** ** Where the failures of the gradient loop nest come from *)

Section GradientLoopFailure.
Context `{Sc : Scalar} `{Cfg : @Config Sc}.
Variable rd_usg : nat -> nat -> nat -> result S_.
Variable jacobi : list dFMatrix.

Lemma for_upto_err {St : Type} (E : exc -> Prop)
  (body : nat -> St -> result St) (n : nat) (st : St) (e : exc) :
  (forall i a e', i < n -> body i a = Err e' -> E e') ->
  for_upto n body st = Err e -> E e.
Proof.
  intros Hbody Hloop.
  pose proof (for_upto_rule (fun _ _ => True) E body n st I) as H.
  rewrite Hloop in H. apply H.
  intros i a Hi _. specialize (Hbody i a).
  destruct (body i a) as [b|e']; [done|]. by eapply Hbody.
Qed.

Lemma grad_entry_err_source (i j s : nat) (sg : list (list Point)) (e : exc) :
  grad_entry rd_usg jacobi i j s sg = Err e ->
  e = UB_OutOfBounds \/ exists b, rd_usg i j b = Err e.
Proof.
  unfold grad_entry.
  intros [Hw | (sg0 & _ & Hloop)]%bind_err.
  - apply wr3_err in Hw. tauto.
  - revert Hloop.
    apply (for_upto_err
             (fun e => e = UB_OutOfBounds \/ exists b, rd_usg i j b = Err e)).
    intros b cur e' _.
    intros [H | (acc & _ & [H | (u & _ & [H | (J & _ & [H | (a & _ & H)]%bind_err)]%bind_err)]%bind_err)]%bind_err.
    + left. by eapply rd3_err.
    + right. eauto.
    + left. apply rd_err in H. tauto.
    + left. by eapply rd2_err.
    + left. apply wr3_err in H. tauto.
Qed.

Lemma transform_gradients_err_source (td nq : nat) (sg : list (list Point))
  (e : exc) :
  transform_gradients td nq rd_usg jacobi sg = Err e ->
  e = UB_OutOfBounds \/ exists i j b, rd_usg i j b = Err e.
Proof.
  change (transform_gradients td nq rd_usg jacobi sg)
    with (for_upto td (fun i => for_upto nq (fun j =>
            for_upto dim (grad_entry rd_usg jacobi i j))) sg).
  set (E := fun e => e = UB_OutOfBounds \/ exists i j b, rd_usg i j b = Err e).
  apply (for_upto_err E). intros i a e1 _.
  apply (for_upto_err E). intros j a' e2 _.
  apply (for_upto_err E). intros s a'' e3 _.
  intros [H | [b H]]%grad_entry_err_source; unfold E; eauto.
Qed.

End GradientLoopFailure.

Section FaceReinitFailure.
Context `{Sc : Scalar} `{Cfg : @Config Sc}.

(** [reinit] leaves the per-face arrays only through [face_no]. *)
Lemma FEFaceValues_reinit_array_err (this : FEFaceValues) (cell : Cell)
  (face_no : nat) (fe : FiniteElement) (boundary : Boundary) :
  FEFaceValues_reinit this cell face_no fe boundary = Err UB_ArrayOutOfBounds ->
  length (f_global_unit_quadrature_points this) <= face_no \/
  length (f_unit_shape_gradients this) <= face_no.
Proof.
  rewrite FEFaceValues_reinit_unfold. cbv zeta.
  intros [Hf | (f & Hf & [Hg | (g & Hg & Hj)]%bind_err)]%bind_err.
  - left. unfold face_filled in Hf. cbv zeta in Hf. simpl in Hf.
    destruct (wants_face_fill (f_update_flags this)); [|done].
    apply bind_err in Hf as [Hf | (gq & _ & [=])].
    apply rd_arr_err in Hf. tauto.
  - right.
    apply face_filled_inv in Hf as (_ & _ & _ & _ & _ & Husg & _).
    destruct (has (f_update_flags this) update_gradients); [|done].
    apply bind_err in Hg as [Ha | ([] & _ & Hg)].
    { unfold Assert in Ha. destruct (debug && _); done. }
    apply bind_err in Hg as [Hg | (sg & _ & [=])].
    apply transform_gradients_err_source in Hg as [Hg | (i & j & b & Hg)];
      [done|].
    unfold rd_face_usg in Hg.
    apply bind_err in Hg as [Hg | (t & _ & Hg)].
    + apply rd_arr_err in Hg. rewrite <- Husg. tauto.
    + by apply rd3_err in Hg.
  - exfalso.
    destruct (has (f_update_flags this) update_JxW_values); [|done].
    apply bind_err in Hj as [Ha | ([] & _ & Hj)].
    { unfold Assert in Ha. destruct (debug && _); done. }
    apply bind_err in Hj as [Hj | (jxw & _ & [=])].
    refine (for_upto_err (fun e => e = UB_ArrayOutOfBounds -> False)
              _ _ _ _ _ Hj eq_refl).
    intros i a e' _.
    intros [H | (x & _ & H)]%bind_err ->.
    + by apply face_JxW_at_err in H.
    + apply wr_err in H. by destruct H.
Qed.

(** With nothing to fill and no gradients to transform, [reinit] is the
    assignment to [selected_face]. *)
Lemma FEFaceValues_reinit_idle (this : FEFaceValues) (cell : Cell)
  (face_no : nat) (fe : FiniteElement) (boundary : Boundary) :
  wants_face_fill (f_update_flags this) = false ->
  has (f_update_flags this) update_gradients = false ->
  FEFaceValues_reinit this cell face_no fe boundary
  = Ok (set_selected_face this face_no).
Proof.
  intros Hw Hg. unfold FEFaceValues_reinit. cbv zeta. simpl.
  rewrite Hw, Hg. simpl.
  unfold wants_face_fill in Hw.
  apply orb_false_elim in Hw as [_ ->]. done.
Qed.

Lemma Assert_reading_debug {A : Type} (a : result A) (cond : A -> bool)
  (e : A -> exc) :
  debug = true ->
  Assert_reading a cond e = (x <~ a ;; if cond x then Ok tt else Err (e x)).
Proof. unfold Assert_reading. by intros ->. Qed.

Lemma Assert_reading_release {A : Type} (a : result A) (cond : A -> bool)
  (e : A -> exc) :
  debug = false -> Assert_reading a cond e = Ok tt.
Proof. unfold Assert_reading. by intros ->. Qed.

Lemma Assert_reading_true {A : Type} (a : result A) (cond : A -> bool)
  (e : A -> exc) (x : A) :
  a = Ok x -> cond x = true -> Assert_reading a cond e = Ok tt.
Proof. unfold Assert_reading. intros -> Hc. simpl. rewrite Hc. by destruct debug. Qed.

Lemma Assert_reading_array_err {A : Type} (l : list A) (k : nat)
  (cond : A -> bool) (e : A -> exc) :
  (forall x, e x <> UB_ArrayOutOfBounds) ->
  Assert_reading (rd_arr l k) cond e = Err UB_ArrayOutOfBounds <->
  debug = true /\ length l <= k.
Proof.
  intros He. unfold Assert_reading. destruct debug; [|split; [done|by intros []]].
  split.
  - intros [H | (x & _ & H)]%bind_err.
    + apply rd_arr_err in H. tauto.
    + destruct (cond x); [done|]. injection H as H. by apply He in H.
  - intros [_ Hlen].
    assert (Hr : rd_arr l k = Err UB_ArrayOutOfBounds) by by apply rd_arr_err.
    by rewrite Hr.
Qed.

Lemma FEFaceValues_accessors_array_err (this : FEFaceValues) (i j : nat) :
  (FEFaceValues_shape_value this i j = Err UB_ArrayOutOfBounds <->
   length (f_shape_values this) <= selected_face this) /\
  (FEFaceValues_shape_grad this i j = Err UB_ArrayOutOfBounds <->
   debug = true /\ length (f_shape_values this) <= selected_face this) /\
  FEFaceValues_quadrature_point this i <> Err UB_ArrayOutOfBounds /\
  FEFaceValues_ansatz_point this i <> Err UB_ArrayOutOfBounds /\
  FEFaceValues_normal_vector this i <> Err UB_ArrayOutOfBounds /\
  FEFaceValues_JxW this i <> Err UB_ArrayOutOfBounds.
Proof.
  assert (HA : forall c e, e <> UB_ArrayOutOfBounds ->
                 Assert c e <> Err UB_ArrayOutOfBounds).
  { intros c e He. unfold Assert. destruct (debug && _); congruence. }
  assert (Hrd : forall (A : Type) (l : list A) k,
                  rd l k <> Err UB_ArrayOutOfBounds).
  { intros A l k H. apply rd_err in H. by destruct H. }
  assert (H1 : forall (A : Type) k n (c : bool) (r : result A),
    r <> Err UB_ArrayOutOfBounds ->
    (Assert (k <? n) (InvalidIndex k n) ;;;
     Assert c ExcAccessToUninitializedField ;;; r)
    <> Err UB_ArrayOutOfBounds).
  { intros A k n c r Hr.
    intros [H | ([] & _ & [H | ([] & _ & H)]%bind_err)]%bind_err;
      try done; by eapply HA in H. }
  unfold FEFaceValues_shape_value, FEFaceValues_shape_grad,
    FEFaceValues_quadrature_point, FEFaceValues_ansatz_point,
    FEFaceValues_normal_vector, FEFaceValues_JxW.
  split; [|split; [|repeat split; apply H1; apply Hrd]].
  - split.
    + intros [H | (M & _ & [H | ([] & _ & [H | ([] & _ & H)]%bind_err)]%bind_err)]%bind_err.
      * apply rd_arr_err in H. tauto.
      * by eapply HA in H.
      * by eapply HA in H.
      * by apply rd2_err in H.
    + intros Hlen.
      assert (Hr : rd_arr (f_shape_values this) (selected_face this)
                   = Err UB_ArrayOutOfBounds) by by apply rd_arr_err.
      by rewrite Hr.
  - split.
    + intros [H | ([] & _ & [H | ([] & _ & [H | ([] & _ & H)]%bind_err)]%bind_err)]%bind_err.
      * apply Assert_reading_array_err in H; [tauto | done].
      * apply Assert_reading_array_err in H; [tauto | done].
      * by eapply HA in H.
      * by apply rd2_err in H.
    + intros [Hd Hlen].
      assert (Hr : Assert_reading
                     (rd_arr (f_shape_values this) (selected_face this))
                     (fun M => i <? mat_m M)
                     (fun M => InvalidIndex i (mat_m M))
                   = Err UB_ArrayOutOfBounds)
        by by apply Assert_reading_array_err.
      by rewrite Hr.
Qed.

End FaceReinitFailure.

(** ** Selecting a face again *)

Section FaceRestore.
Context `{Sc : Scalar} `{Cfg : @Config Sc}.




(** What [reinit] has left in the evaluator it returns. *)
Lemma FEFaceValues_reinit_describe (this this' : FEFaceValues) (cell : Cell)
  (face_no : nat) (fe : FiniteElement) (boundary : Boundary) :
  FEFaceValues_reinit this cell face_no fe boundary = Ok this' ->
  let flags := f_update_flags this in
  let nq := f_n_quadrature_points this in
  let td := fe_total_dofs fe in
  exists f,
    face_filled this cell face_no fe boundary = Ok f /\
    this' = set_f_JxW_values (set_f_shape_gradients f (f_shape_gradients this'))
              (f_JxW_values this') /\
    (debug = true ->
     has flags update_gradients = true \/ has flags update_JxW_values = true ->
     has flags update_jacobians = true) /\
    skeleton (f_shape_gradients this') = skeleton (f_shape_gradients this) /\
    (forall i j k,
       has flags update_gradients = true -> i < td -> j < nq -> k < dim ->
       rd3 (f_shape_gradients this') i j k
       = Ok (grad_sum (rd_face_usg (f_unit_shape_gradients this) face_no)
               (f_jacobi_matrices f) i j k dim) /\
       reads_ok (rd_face_usg (f_unit_shape_gradients this) face_no)
         (f_jacobi_matrices f) i j k) /\
    (forall i j k,
       ~ (has flags update_gradients = true /\ i < td /\ j < nq /\ k < dim) ->
       rd3 (f_shape_gradients this') i j k
       = rd3 (f_shape_gradients this) i j k) /\
    length (f_JxW_values this') = length (f_JxW_values this) /\
    (forall i,
       has flags update_JxW_values = true -> i < nq ->
       exists x, face_JxW_at f i = Ok x /\ f_JxW_values this' !! i = Some x) /\
    (forall i,
       ~ (has flags update_JxW_values = true /\ i < nq) ->
       f_JxW_values this' !! i = f_JxW_values this !! i).
Proof.
  intros (f & Hf & Heq & Hgrad & Hjxw)%FEFaceValues_reinit_inv.
  cbv zeta. exists f. split; [done|]. split; [done|].
  pose proof (face_filled_inv _ _ _ _ _ _ Hf)
    as (_ & Hnq & _ & _ & Hsg & Husg & _ & HJ & _).
  rewrite <- Hnq, <- Hsg, <- Husg, <- HJ.
  split.
  { intros Hd [Hg | Hj].
    - rewrite Hg in Hgrad. by apply Hgrad.
    - rewrite Hj in Hjxw. by apply Hjxw. }
  assert (HG :
    skeleton (f_shape_gradients this') = skeleton (f_shape_gradients f) /\
    (forall i j k,
       has (f_update_flags this) update_gradients = true ->
       i < fe_total_dofs fe -> j < f_n_quadrature_points f -> k < dim ->
       rd3 (f_shape_gradients this') i j k
       = Ok (grad_sum (rd_face_usg (f_unit_shape_gradients f) face_no)
               (f_jacobi_matrices f) i j k dim) /\
       reads_ok (rd_face_usg (f_unit_shape_gradients f) face_no)
         (f_jacobi_matrices f) i j k) /\
    (forall i j k,
       ~ (has (f_update_flags this) update_gradients = true /\
          i < fe_total_dofs fe /\ j < f_n_quadrature_points f /\ k < dim) ->
       rd3 (f_shape_gradients this') i j k
       = rd3 (f_shape_gradients f) i j k)).
  { destruct (has (f_update_flags this) update_gradients).
    - destruct Hgrad as [_ Hgrad].
      pose proof (transform_gradients_spec
                    (rd_face_usg (f_unit_shape_gradients f) face_no)
                    (f_jacobi_matrices f) (rd_face_usg_err _ _)
                    (fe_total_dofs fe) (f_n_quadrature_points f)
                    (f_shape_gradients f)) as Hspec.
      rewrite Hgrad in Hspec. destruct Hspec as (Hsk & Hin & Hout).
      split; [done|]. split.
      + intros i j k _ Hi Hj Hk. by apply Hin.
      + intros i j k Hne. apply Hout. tauto.
    - rewrite Hgrad. split; [done|]. split; [done|]. done. }
  destruct HG as (HG1 & HG2 & HG3).
  split; [done|]. split; [done|]. split; [done|].
  destruct (has (f_update_flags this) update_JxW_values).
  - destruct Hjxw as [_ Hjxw].
    pose proof (fill_loop_spec (face_JxW_at f) (f_n_quadrature_points f)
                  (f_JxW_values f)) as Hspec.
    rewrite Hjxw in Hspec. destruct Hspec as (Hlen & Hin & Hout).
    split; [done|]. split.
    + intros i _ Hi. by apply Hin.
    + intros i Hne. apply Hout.
      destruct (decide (f_n_quadrature_points f <= i)); [done|].
      exfalso. apply Hne. split; [done|lia].
  - rewrite Hjxw. split; [done|]. split; done.
Qed.


End FaceRestore.

Section FaceRestoreMain.
Context `{Sc : Scalar} `{Cfg : @Config Sc}.





End FaceRestoreMain.

(** ** The constructor of the face evaluator in two dimensions *)

Lemma for_from_cons {St : Type} (body : nat -> St -> result St) (n lo : nat)
  (st : St) :
  for_from lo (S n) body st
  = (st' <~ body lo st ;; for_from (S lo) n body st').
Proof. reflexivity. Qed.

Lemma for_from_S {St : Type} (body : nat -> St -> result St) (n lo : nat)
  (st : St) :
  for_from lo (S n) body st
  = (st' <~ for_from lo n body st ;; body (lo + n) st').
Proof.
  revert st lo. induction n as [|n IH]; intros st lo.
  - simpl. rewrite Nat.add_0_r. by destruct (body lo st).
  - rewrite (for_from_cons body (S n)), (for_from_cons body n).
    destruct (body lo st) as [st1|e]; cbn [bind]; [|done].
    rewrite IH. replace (S lo + n) with (lo + S n) by lia. done.
Qed.

Lemma for_upto_S {St : Type} (body : nat -> St -> result St) (n : nat) (st : St) :
  for_upto (S n) body st
  = (st' <~ for_upto n body st ;; body n st').
Proof. unfold for_upto. by rewrite for_from_S. Qed.

(** A loop on a part of the state, seen from the whole state. *)
Lemma for_upto_lift {St T : Type} (inj : T -> St)
  (body : nat -> St -> result St) (body' : nat -> T -> result T)
  (n : nat) (t : T) :
  (forall i t, i < n -> body i (inj t) = (t' <~ body' i t ;; Ok (inj t'))) ->
  for_upto n body (inj t) = (t' <~ for_upto n body' t ;; Ok (inj t')).
Proof.
  induction n as [|n IH]; intros Hbody; [done|].
  rewrite !for_upto_S, IH by (intros; apply Hbody; lia).
  destruct (for_upto n body' t) as [t1|e]; simpl; [|done].
  apply Hbody. lia.
Qed.

Section FaceConstructor2D.
Context `{Sc : Scalar} `{Cfg : @Config Sc}.
Hypothesis dim_is_2 : dim = 2.

(** The loop over [p] for one face: every point of the face becomes the
    image of the coordinate the default [Point<dim-1>] holds. *)
Lemma embed_face_loop (nq face : nat) (guqp : list (list Point))
  (row : list Point) :
  face < 4 -> guqp !! face = Some row -> length row = nq ->
  for_upto nq (embed_face_point (replicate nq (Point_origin (dim - 1))) face) guqp
  = Ok (<[face := replicate nq (embed_face face szero)]> guqp).
Proof.
  intros Hface Hrow Hlen.
  assert (Hlt : face < length guqp) by by eapply lookup_lt_Some.
  set (pt := embed_face face szero).
  set (inj := fun r : list Point => <[face := r]> guqp).
  assert (Hinj : guqp = inj row) by (unfold inj; by rewrite list_insert_id).
  rewrite Hinj at 1.
  rewrite (for_upto_lift inj _ (fun p r => x <~ Ok pt ;; wr r p x)).
  - pose proof (fill_loop_spec (fun _ => Ok pt) nq row) as Hspec.
    destruct (for_upto nq _ row) as [row'|e]; simpl.
    + destruct Hspec as (Hl & Hin & _). unfold inj. do 2 f_equal.
      apply list_eq. intros k.
      destruct (decide (k < nq)) as [Hk|Hk].
      * destruct (Hin k Hk) as (x & [= <-] & ->).
        by rewrite lookup_replicate_2.
      * rewrite !lookup_ge_None_2; [done | rewrite length_replicate; lia | lia].
    + destruct Hspec as (k & Hk & [H | [_ H]]); [done | lia].
  - intros p r Hp. unfold embed_face_point, inj. rewrite dim_is_2. simpl.
    assert (Hrd : rd_arr (<[face := r]> guqp) face = Ok r).
    { apply rd_arr_ok. by rewrite list_lookup_insert_eq. }
    assert (Hwr : forall r', wr_arr (<[face := r]> guqp) face r'
                             = Ok (<[face := r']> guqp)).
    { intros r'. rewrite wr_arr_in_range by by rewrite length_insert.
      by rewrite list_insert_insert_eq. }
    rewrite (rd_replicate nq p _ Hp). simpl.
    destruct face as [|[|[|[|face]]]]; [| | | |lia]; simpl;
      rewrite Hrd; simpl; (destruct (wr r p _); simpl; [apply Hwr | done]).
Qed.

(** The tabulation of one face, seen from the arrays of tables. *)
Lemma tabulate_face_loop (fe : FiniteElement) (td nq face : nat)
  (pt : Point) (guqp : list (list Point))
  (svs : list dFMatrix) (usgs : list (list (list Point)))
  (M0 : dFMatrix) (t0 : list (list Point)) :
  guqp !! face = Some (replicate nq pt) ->
  svs !! face = Some M0 -> usgs !! face = Some t0 ->
  (forall i j, i < td -> j < nq ->
     is_ok (mat_rd M0 i j) = true /\ is_ok (rd2 t0 i j) = true) ->
  exists M t,
    for_upto td (fun i =>
      for_upto nq (fun j '(svs, usgs) =>
        gp <~ (row <~ rd_arr guqp face ;; rd row j) ;;
        M <~ rd_arr svs face ;;
        M' <~ mat_wr M i j (fe_shape_value fe i gp) ;;
        svs' <~ wr_arr svs face M' ;;
        gp' <~ (row <~ rd_arr guqp face ;; rd row j) ;;
        t <~ rd_arr usgs face ;;
        t' <~ wr2 t i j (fe_shape_grad fe i gp') ;;
        usgs' <~ wr_arr usgs face t' ;;
        Ok (svs', usgs'))) (svs, usgs)
    = Ok (<[face := M]> svs, <[face := t]> usgs) /\
    mat_m M = mat_m M0 /\ mat_n M = mat_n M0 /\
    (forall i j, i < td -> j < nq ->
       mat_rd M i j = Ok (fe_shape_value fe i pt) /\
       rd2 t i j = Ok (fe_shape_grad fe i pt)).
Proof.
  intros Hgq HM0 Ht0 Hrange.
  assert (Hf1 : face < length svs) by by eapply lookup_lt_Some.
  assert (Hf2 : face < length usgs) by by eapply lookup_lt_Some.
  set (quadrature' := {| q_n_quadrature_points := nq;
                         quad_point := fun _ => pt;
                         weight := fun _ => szero |}).
  destruct (tabulate_spec fe quadrature' td nq M0 t0 Hrange)
    as (M & t & Htab & Hm & Hn & _ & Hval).
  exists M, t. split; [|done].
  set (inj := fun st : dFMatrix * list (list Point) =>
                (<[face := fst st]> svs, <[face := snd st]> usgs)).
  assert (Hinj : (svs, usgs) = inj (M0, t0)).
  { unfold inj. simpl. by rewrite !list_insert_id. }
  rewrite Hinj.
  rewrite (for_upto_lift inj _
             (fun i => for_upto nq (fun j '(sv, usg) =>
                sv' <~ mat_wr sv i j (fe_shape_value fe i (quad_point quadrature' j)) ;;
                usg' <~ wr2 usg i j (fe_shape_grad fe i (quad_point quadrature' j)) ;;
                Ok (sv', usg')))).
  - rewrite Htab. reflexivity.
  - intros i st Hi.
    apply for_upto_lift. intros j [sv usg] Hj. unfold inj. simpl.
    apply rd_arr_ok in Hgq. rewrite Hgq. simpl.
    rewrite (rd_replicate nq j pt Hj). simpl.
    assert (Hr1 : rd_arr (<[face := sv]> svs) face = Ok sv).
    { apply rd_arr_ok. by rewrite list_lookup_insert_eq. }
    rewrite Hr1. simpl.
    destruct (mat_wr sv i j _) as [sv'|e]; simpl; [|done].
    rewrite wr_arr_in_range by by rewrite length_insert.
    simpl. rewrite list_insert_insert_eq.
    assert (Hr2 : rd_arr (<[face := usg]> usgs) face = Ok usg).
    { apply rd_arr_ok. by rewrite list_lookup_insert_eq. }
    rewrite Hr2. simpl.
    destruct (wr2 usg i j _) as [usg'|e]; simpl; [|done].
    rewrite wr_arr_in_range by by rewrite length_insert.
    simpl. by rewrite list_insert_insert_eq.
Qed.

End FaceConstructor2D.

Section FaceConstructor2DResult.
Context `{Sc : Scalar} `{Cfg : @Config Sc}.
Hypothesis dim_is_2 : dim = 2.

(** In two dimensions the constructor returns; the points it has embedded
    are the images of coordinate zero (the default [Point<dim-1>]), not of
    the points of the quadrature rule, and the tables are tabulated
    there. *)
Lemma FEFaceValues_ctor_spec_2d (fe : FiniteElement) (quadrature : Quadrature)
  (flags : UpdateFlags) :
  let nq := q_n_quadrature_points quadrature in
  let td := fe_total_dofs fe in
  exists this,
    FEFaceValues_ctor fe quadrature flags = Ok this /\
    f_global_unit_quadrature_points this
    = map (fun face => replicate nq (embed_face face szero)) [0; 1; 2; 3] /\
    (forall face, face < 4 ->
       exists M t,
         f_shape_values this !! face = Some M /\
         f_unit_shape_gradients this !! face = Some t /\
         mat_m M = td /\ mat_n M = nq /\
         forall i j, i < td -> j < nq ->
           mat_rd M i j = Ok (fe_shape_value fe i (embed_face face szero)) /\
           rd2 t i j = Ok (fe_shape_grad fe i (embed_face face szero))) /\
    (forall i, i < nq ->
       f_unit_quadrature_points this !! i = Some (quad_point quadrature i) /\
       f_weights this !! i = Some (weight quadrature i)).
Proof.
  cbv zeta. unfold FEFaceValues_ctor. cbv zeta.
  set (nq := q_n_quadrature_points quadrature).
  set (td := fe_total_dofs fe).
  replace (2 * dim) with 4 by (rewrite dim_is_2; reflexivity).
  set (N := dFMatrix_new td nq).
  set (T := replicate td (replicate nq (Point_origin dim))).
  set (R := replicate nq (Point_origin dim)).
  match goal with |- exists this, bind ?m _ = _ /\ _ =>
    assert (H1 : m = Ok ([N; N; N; N], [T; T; T; T], [R; R; R; R]))
      by reflexivity
  end.
  rewrite H1. cbn [bind fst snd]. clear H1.
  (* the face points *)
  match goal with |- exists this, bind ?m _ = _ /\ _ =>
    assert (H2 : m = Ok (map (fun face => replicate nq (embed_face face szero))
                           [0; 1; 2; 3]))
  end.
  { rewrite (for_upto_S _ 3), (for_upto_S _ 2), (for_upto_S _ 1),
      (for_upto_S _ 0), for_upto_0.
    cbn [bind].
    rewrite (embed_face_loop dim_is_2 nq 0 _ R);
      [|lia|reflexivity|apply length_replicate].
    cbn [bind].
    rewrite (embed_face_loop dim_is_2 nq 1 _ R);
      [|lia|reflexivity|apply length_replicate].
    cbn [bind].
    rewrite (embed_face_loop dim_is_2 nq 2 _ R);
      [|lia|reflexivity|apply length_replicate].
    cbn [bind].
    rewrite (embed_face_loop dim_is_2 nq 3 _ R);
      [|lia|reflexivity|apply length_replicate].
    reflexivity. }
  rewrite H2. cbn [bind]. clear H2.
  (* weights and unit points *)
  destruct (copy_quadrature_spec quadrature nq (replicate nq szero)
              (replicate nq (Point_origin (dim - 1))))
    as (w & uqp & -> & _ & _ & Hw & Hu); [by rewrite length_replicate..|].
  cbn [bind fst snd].
  (* the tables, face by face *)
  assert (Hrange : forall i j, i < td -> j < nq ->
            is_ok (mat_rd N i j) = true /\ is_ok (rd2 T i j) = true).
  { intros i j Hi Hj. unfold N, T. rewrite mat_rd_new, rd2_replicate by done.
    done. }
  set (guqp := map (fun face => replicate nq (embed_face face szero)) [0; 1; 2; 3]).
  rewrite (for_upto_S _ 3), (for_upto_S _ 2), (for_upto_S _ 1),
    (for_upto_S _ 0), for_upto_0.
  cbn [bind].
  destruct (tabulate_face_loop fe td nq 0 (embed_face 0 szero) guqp
              [N; N; N; N] [T; T; T; T] N T eq_refl eq_refl eq_refl Hrange)
    as (M0 & t0 & -> & Hm0 & Hn0 & Hv0).
  cbn [bind insert list_insert].
  destruct (tabulate_face_loop fe td nq 1 (embed_face 1 szero) guqp
              [M0; N; N; N] [t0; T; T; T] N T eq_refl eq_refl eq_refl Hrange)
    as (M1 & t1 & -> & Hm1 & Hn1 & Hv1).
  cbn [bind insert list_insert].
  destruct (tabulate_face_loop fe td nq 2 (embed_face 2 szero) guqp
              [M0; M1; N; N] [t0; t1; T; T] N T eq_refl eq_refl eq_refl Hrange)
    as (M2 & t2 & -> & Hm2 & Hn2 & Hv2).
  cbn [bind insert list_insert].
  destruct (tabulate_face_loop fe td nq 3 (embed_face 3 szero) guqp
              [M0; M1; M2; N] [t0; t1; t2; T] N T eq_refl eq_refl eq_refl Hrange)
    as (M3 & t3 & -> & Hm3 & Hn3 & Hv3).
  cbn [bind insert list_insert].
  eexists. split; [reflexivity|]. cbn [f_global_unit_quadrature_points
    f_shape_values f_unit_shape_gradients f_unit_quadrature_points f_weights
    fst snd].
  split; [reflexivity|]. split.
  - intros face Hface.
    destruct face as [|[|[|[|face]]]]; [| | | |lia].
    + exists M0, t0. repeat split; try done; by apply Hv0.
    + exists M1, t1. repeat split; try done; by apply Hv1.
    + exists M2, t2. repeat split; try done; by apply Hv2.
    + exists M3, t3. repeat split; try done; by apply Hv3.
  - intros i Hi. split; [by apply Hu | by apply Hw].
Qed.

End FaceConstructor2DResult.

Section FaceConstructorOtherDimensions.
Context `{Sc : Scalar} `{Cfg : @Config Sc}.

(** The loop that sizes the per-face arrays never fails. *)
Lemma size_face_arrays_ok (td nq n : nat)
  (svs : list dFMatrix) (usgs : list (list (list Point)))
  (guqp : list (list Point)) :
  length svs = n -> length usgs = n -> length guqp = n ->
  exists st,
    for_upto n (fun face '(svs, usgs, guqp) =>
        svs' <~ wr_arr svs face (dFMatrix_new td nq) ;;
        usgs' <~ wr_arr usgs face
                   (replicate td (replicate nq (Point_origin dim))) ;;
        guqp' <~ wr_arr guqp face (replicate nq (Point_origin dim)) ;;
        Ok (svs', usgs', guqp')) (svs, usgs, guqp) = Ok st.
Proof.
  intros H1 H2 H3.
  set (P := fun (_ : nat)
                (st : list dFMatrix * list (list (list Point)) * list (list Point)) =>
    length (fst (fst st)) = n /\ length (snd (fst st)) = n /\
    length (snd st) = n).
  match goal with |- exists st, for_upto ?m ?body ?init = Ok st =>
    apply (for_upto_elim P (fun _ => False) body m init
             (fun r => exists st, r = Ok st))
  end.
  - done.
  - intros face [[a b] c] Hface (Ha & Hb & Hc). simpl in *.
    rewrite !wr_arr_in_range by lia. simpl.
    unfold P. simpl. by rewrite !length_insert.
  - intros st _. eauto.
  - intros e [].
Qed.

Lemma replicate_of_lookups {A : Type} (l : list A) (n : nat) (x : A) :
  length l = n -> (forall i, i < n -> l !! i = Some x) -> l = replicate n x.
Proof.
  intros Hl Hx. apply list_eq. intros i.
  destruct (decide (i < n)).
  - rewrite Hx by done. by rewrite lookup_replicate_2.
  - rewrite !lookup_ge_None_2; [done | rewrite length_replicate; lia | lia].
Qed.

(** What the sizing loop leaves in the three per-face arrays. *)
Lemma size_face_arrays_spec (td nq n : nat)
  (svs : list dFMatrix) (usgs : list (list (list Point)))
  (guqp : list (list Point)) :
  length svs = n -> length usgs = n -> length guqp = n ->
  for_upto n (fun face '(svs, usgs, guqp) =>
      svs' <~ wr_arr svs face (dFMatrix_new td nq) ;;
      usgs' <~ wr_arr usgs face
                 (replicate td (replicate nq (Point_origin dim))) ;;
      guqp' <~ wr_arr guqp face (replicate nq (Point_origin dim)) ;;
      Ok (svs', usgs', guqp')) (svs, usgs, guqp)
  = Ok (replicate n (dFMatrix_new td nq),
        replicate n (replicate td (replicate nq (Point_origin dim))),
        replicate n (replicate nq (Point_origin dim))).
Proof.
  intros H1 H2 H3.
  set (N := dFMatrix_new td nq).
  set (T := replicate td (replicate nq (Point_origin dim))).
  set (R := replicate nq (Point_origin dim)).
  set (P := fun (k : nat)
                (st : list dFMatrix * list (list (list Point)) * list (list Point)) =>
    length (fst (fst st)) = n /\ length (snd (fst st)) = n /\
    length (snd st) = n /\
    forall i, i < k ->
      fst (fst st) !! i = Some N /\ snd (fst st) !! i = Some T /\
      snd st !! i = Some R).
  match goal with |- for_upto ?m ?body ?init = ?r =>
    apply (for_upto_elim P (fun _ => False) body m init (fun x => x = r))
  end.
  - unfold P. simpl. repeat split; try done; lia.
  - intros face [[a b] c] Hface (Ha & Hb & Hc & Hin). simpl in *.
    rewrite !wr_arr_in_range by lia. simpl.
    unfold P. simpl. rewrite !length_insert.
    repeat match goal with |- _ /\ _ => split end; try done.
    intros i Hi. destruct (decide (i = face)) as [->|Hne].
    + rewrite !list_lookup_insert_eq by lia. done.
    + rewrite !list_lookup_insert_ne by done. apply Hin. lia.
  - intros [[a b] c] (Ha & Hb & Hc & Hin). simpl in *.
    do 2 f_equal; [f_equal|]; apply replicate_of_lookups; try done;
      intros i Hi; by apply Hin.
  - intros e [].
Qed.

(** The tables of a constructed face evaluator have one row per shape
    function and one column per quadrature point, in every dimension. *)
Lemma FEFaceValues_ctor_tables_sized (fe : FiniteElement)
  (quadrature : Quadrature) (flags : UpdateFlags) (this : FEFaceValues) :
  FEFaceValues_ctor fe quadrature flags = Ok this ->
  (forall (face : nat) M, f_shape_values this !! face = Some M ->
     mat_m M = fe_total_dofs fe /\
     mat_n M = q_n_quadrature_points quadrature) /\
  length (f_ansatz_points this) = fe_total_dofs fe /\
  length (f_normal_vectors this) = q_n_quadrature_points quadrature.
Proof.
  unfold FEFaceValues_ctor. cbv zeta.
  rewrite (size_face_arrays_spec (fe_total_dofs fe)
             (q_n_quadrature_points quadrature) (2 * dim))
    by by rewrite length_replicate.
  cbn [bind fst snd].
  intros (guqp & _ & (wq & _ & (tabs & Htabs & [= <-])%bind_ok)%bind_ok)%bind_ok.
  simpl. rewrite !length_replicate. split; [|done].
  set (I := fun st : list dFMatrix * list (list (list Point)) =>
    forall (face : nat) M, fst st !! face = Some M ->
      mat_m M = fe_total_dofs fe /\
      mat_n M = q_n_quadrature_points quadrature).
  change (I tabs). revert Htabs.
  apply (for_upto_preserves I).
  { unfold I. cbn [fst]. intros face M [-> _]%lookup_replicate. done. }
  intros face a b _ Ha. apply (for_upto_preserves I); [done|].
  intros i a' b' _ Ha'. apply (for_upto_preserves I); [done|].
  intros j [svs usgs] b'' _ Hs. unfold I in *. simpl in *.
  intros (gp & _ & (M & HM%rd_arr_ok & (M' & HM' & (svs' & [Hlt ->]%wr_arr_ok & (gp' & _ & (t & _ & (t' & _ & (usgs' & _ & [= <-])%bind_ok)%bind_ok)%bind_ok)%bind_ok)%bind_ok)%bind_ok)%bind_ok)%bind_ok.
  simpl. intros f' N HN.
  destruct (decide (f' = face)) as [->|Hne].
  - rewrite list_lookup_insert_eq in HN by done. injection HN as <-.
    unfold mat_wr in HM'. apply bind_ok in HM' as (rows & _ & [= <-]).
    simpl. by apply (Hs face M).
  - rewrite list_lookup_insert_ne in HN by done. by apply (Hs f' N).
Qed.

(** In a dimension other than two, with a rule of at least one point, a
    debug build stops at [ExcNotImplemented]. *)
Lemma FEFaceValues_ctor_not_implemented (fe : FiniteElement)
  (quadrature : Quadrature) (flags : UpdateFlags) :
  debug = true -> dim <> 2 -> 0 < dim ->
  0 < q_n_quadrature_points quadrature ->
  FEFaceValues_ctor fe quadrature flags = Err ExcNotImplemented.
Proof.
  intros Hd Hdim Hpos Hnq. unfold FEFaceValues_ctor. cbv zeta.
  destruct (size_face_arrays_ok (fe_total_dofs fe)
              (q_n_quadrature_points quadrature) (2 * dim)
              (replicate (2 * dim) (dFMatrix_new 0 0))
              (replicate (2 * dim) []) (replicate (2 * dim) []))
    as [st ->]; [by rewrite length_replicate..|].
  cbn [bind].
  destruct dim as [|d] eqn:Hdd; [lia|].
  destruct (q_n_quadrature_points quadrature) as [|m] eqn:Hq; [lia|].
  replace (2 * S d) with (S (S (2 * d))) by lia.
  unfold for_upto at 1. rewrite for_from_cons. cbv beta.
  unfold for_upto at 1. rewrite for_from_cons.
  unfold embed_face_point at 1. rewrite Hdd.
  assert (Hne : (S d =? 2) = false) by (apply Nat.eqb_neq; lia).
  rewrite Hne, (Assert_debug _ _ Hd). reflexivity.
Qed.

End FaceConstructorOtherDimensions.

(** ** When [reinit] returns *)

Section ReinitReturns.
Context `{Sc : Scalar} `{Cfg : @Config Sc}.

(** [reinit] of the cell evaluator returns if the flags are satisfiable
    (or assertions are off), every entry the gradient loop touches exists,
    and every weight, Jacobian and [JxW] slot exists with a determinant
    that is not zero. *)
Lemma FEValues_reinit_returns (this : FEValues) (cell : Cell)
  (fe : FiniteElement) (boundary : Boundary) :
  let f := cell_filled this cell fe boundary in
  let flags := update_flags this in
  (debug = true ->
   has flags update_gradients = true \/ has flags update_JxW_values = true ->
   has flags update_jacobians = true) ->
  (has flags update_gradients = true ->
   forall i j s,
     i < fe_total_dofs fe -> j < n_quadrature_points this -> s < dim ->
     pre_ok (rd3 (unit_shape_gradients this)) (jacobi_matrices f)
       (shape_gradients this) i j s) ->
  (has flags update_JxW_values = true ->
   forall j, j < n_quadrature_points this ->
     j < length (JxW_values this) /\
     exists w J,
       weights this !! j = Some w /\ jacobi_matrices f !! j = Some J /\
       s_is_zero (determinant J) = false) ->
  exists this', FEValues_reinit this cell fe boundary = Ok this'.
Proof.
  cbv zeta. intros Hflags Hgrad Hjxw.
  rewrite FEValues_reinit_unfold. cbv zeta.
  set (f := cell_filled this cell fe boundary) in *.
  destruct (cell_filled_frame this cell fe boundary)
    as (Hnq & _ & _ & Hsg & Husg & Hw & HJ & _). fold f in Hnq, Hsg, Husg, Hw, HJ.
  assert (Ha : has (update_flags this) update_gradients = true \/
               has (update_flags this) update_JxW_values = true ->
               Assert (has (update_flags this) update_jacobians)
                 ExcCannotInitializeField = Ok tt).
  { intros Hreq.
    destruct (Assert_cases (has (update_flags this) update_jacobians)
                ExcCannotInitializeField) as [[H _]|(_ & Hd & Hc)]; [done|].
    rewrite Hflags in Hc by done. done. }
  assert (Hg : exists g,
    (if has (update_flags this) update_gradients
     then
       Assert (has (update_flags this) update_jacobians)
         ExcCannotInitializeField ;;;
       sg <~ transform_gradients (fe_total_dofs fe) (n_quadrature_points f)
               (rd3 (unit_shape_gradients f)) (jacobi_matrices f)
               (shape_gradients f) ;;
       Ok (set_shape_gradients f sg)
     else Ok f) = Ok g /\
    n_quadrature_points g = n_quadrature_points f /\
    weights g = weights f /\ jacobi_matrices g = jacobi_matrices f /\
    JxW_values g = JxW_values f).
  { destruct (has (update_flags this) update_gradients) eqn:Hfg;
      [|exists f; done].
    rewrite Ha by auto. simpl.
    pose proof (transform_gradients_spec
                  (rd3 (unit_shape_gradients f)) (jacobi_matrices f)
                  (rd3_access_error _)
                  (fe_total_dofs fe) (n_quadrature_points f)
                  (shape_gradients f)) as Hspec.
    destruct (transform_gradients _ _ _ _ _) as [sg|e]; simpl;
      [eexists; split; [reflexivity|done]|].
    exfalso. destruct Hspec as [_ Hpre]. apply Hpre.
    intros i j s Hi Hj Hs. rewrite Husg, Hsg. apply Hgrad; try done.
    by rewrite <- Hnq. }
  destruct Hg as (g & -> & Hnqg & Hwg & HJg & Hjg). simpl.
  destruct (has (update_flags this) update_JxW_values) eqn:Hfj; [|eauto].
  rewrite Ha by auto. simpl.
  pose proof (fill_loop_spec (cell_JxW_at g) (n_quadrature_points g)
                (JxW_values g)) as Hspec.
  destruct (for_upto _ _ _) as [jxw|e]; simpl; [eauto|].
  exfalso. destruct Hspec as (j & Hj & Hbad).
  rewrite Hnqg, Hnq in Hj.
  destruct (Hjxw eq_refl j Hj) as (Hlen & w & J & Hwj & HJj & Hz).
  destruct Hbad as [Hbad | [_ Hbad]].
  - assert (Hok : cell_JxW_at g j = Ok (squot w (determinant J))).
    { apply cell_JxW_at_ok. exists w, J. rewrite Hwg, Hw, HJg. done. }
    congruence.
  - rewrite Hjg, HJ in Hbad. lia.
Qed.

(** [reinit] of the face evaluator returns under the same kind of
    conditions, [face_no] being an existing face. *)
Lemma FEFaceValues_reinit_returns (this f : FEFaceValues) (cell : Cell)
  (face_no : nat) (fe : FiniteElement) (boundary : Boundary) :
  let flags := f_update_flags this in
  face_filled this cell face_no fe boundary = Ok f ->
  (debug = true ->
   has flags update_gradients = true \/ has flags update_JxW_values = true ->
   has flags update_jacobians = true) ->
  (has flags update_gradients = true ->
   forall i j s,
     i < fe_total_dofs fe -> j < f_n_quadrature_points this -> s < dim ->
     pre_ok (rd_face_usg (f_unit_shape_gradients this) face_no)
       (f_jacobi_matrices f) (f_shape_gradients this) i j s) ->
  (has flags update_JxW_values = true ->
   forall j, j < f_n_quadrature_points this ->
     j < length (f_JxW_values this) /\ j < length (f_weights this) /\
     j < length (f_face_jacobi_determinants f)) ->
  exists this', FEFaceValues_reinit this cell face_no fe boundary = Ok this'.
Proof.
  cbv zeta. intros Hf Hflags Hgrad Hjxw.
  rewrite FEFaceValues_reinit_unfold. cbv zeta. rewrite Hf. simpl.
  pose proof (face_filled_inv _ _ _ _ _ _ Hf)
    as (_ & Hnq & _ & _ & Hsg & Husg & Hw & HJ & _).
  assert (Ha : has (f_update_flags this) update_gradients = true \/
               has (f_update_flags this) update_JxW_values = true ->
               Assert (has (f_update_flags this) update_jacobians)
                 ExcCannotInitializeField = Ok tt).
  { intros Hreq.
    destruct (Assert_cases (has (f_update_flags this) update_jacobians)
                ExcCannotInitializeField) as [[H _]|(_ & Hd & Hc)]; [done|].
    rewrite Hflags in Hc by done. done. }
  assert (Hg : exists g,
    (if has (f_update_flags this) update_gradients
     then
       Assert (has (f_update_flags this) update_jacobians)
         ExcCannotInitializeField ;;;
       sg <~ transform_gradients (fe_total_dofs fe) (f_n_quadrature_points f)
               (rd_face_usg (f_unit_shape_gradients f) face_no)
               (f_jacobi_matrices f) (f_shape_gradients f) ;;
       Ok (set_f_shape_gradients f sg)
     else Ok f) = Ok g /\
    f_n_quadrature_points g = f_n_quadrature_points f /\
    f_weights g = f_weights f /\
    f_face_jacobi_determinants g = f_face_jacobi_determinants f /\
    f_JxW_values g = f_JxW_values f).
  { destruct (has (f_update_flags this) update_gradients) eqn:Hfg;
      [|exists f; done].
    rewrite Ha by auto. simpl.
    pose proof (transform_gradients_spec
                  (rd_face_usg (f_unit_shape_gradients f) face_no)
                  (f_jacobi_matrices f) (rd_face_usg_err _ _)
                  (fe_total_dofs fe) (f_n_quadrature_points f)
                  (f_shape_gradients f)) as Hspec.
    destruct (transform_gradients _ _ _ _ _) as [sg|e]; simpl;
      [eexists; split; [reflexivity|done]|].
    exfalso. destruct Hspec as [_ Hpre]. apply Hpre.
    intros i j s Hi Hj Hs. rewrite Husg, Hsg. apply Hgrad; try done.
    by rewrite <- Hnq. }
  destruct Hg as (g & -> & Hnqg & Hwg & Hdg & Hjg). simpl.
  destruct (has (f_update_flags this) update_JxW_values) eqn:Hfj; [|eauto].
  rewrite Ha by auto. simpl.
  pose proof (fill_loop_spec (face_JxW_at g) (f_n_quadrature_points g)
                (f_JxW_values g)) as Hspec.
  destruct (for_upto _ _ _) as [jxw|e]; simpl; [eauto|].
  exfalso. destruct Hspec as (j & Hj & Hbad).
  rewrite Hnqg, Hnq in Hj.
  destruct (Hjxw eq_refl j Hj) as (Hl1 & Hl2 & Hl3).
  destruct Hbad as [Hbad | [_ Hbad]].
  - destruct (lookup_lt_is_Some_2 _ _ Hl2) as [w Hwj].
    destruct (lookup_lt_is_Some_2 _ _ Hl3) as [d Hdj].
    assert (Hok : face_JxW_at g j = Ok (smul w d)).
    { apply face_JxW_at_ok. exists w, d. rewrite Hwg, Hw, Hdg. done. }
    congruence.
  - rewrite Hjg, HJ in Hbad. lia.
Qed.

End ReinitReturns.

(** ** The division of the JxW loop *)

Section DivisionReached.
Context `{Sc : Scalar} `{Cfg : @Config Sc}.

(** With everything the loops touch in range, a Jacobian of determinant
    zero at a quadrature point is divided by. *)
Lemma FEValues_reinit_division_reached (this : FEValues) (cell : Cell)
  (fe : FiniteElement) (boundary : Boundary) :
  let f := cell_filled this cell fe boundary in
  let flags := update_flags this in
  has flags update_JxW_values = true ->
  (debug = true -> has flags update_jacobians = true) ->
  (has flags update_gradients = true ->
   forall i j s,
     i < fe_total_dofs fe -> j < n_quadrature_points this -> s < dim ->
     pre_ok (rd3 (unit_shape_gradients this)) (jacobi_matrices f)
       (shape_gradients this) i j s) ->
  (forall j, j < n_quadrature_points this ->
     j < length (weights this) /\ j < length (jacobi_matrices f) /\
     j < length (JxW_values this)) ->
  (exists j J,
     j < n_quadrature_points this /\
     jacobi_matrices f !! j = Some J /\
     s_is_zero (determinant J) = true) ->
  FEValues_reinit this cell fe boundary = Err UB_DivisionByZero.
Proof.
  cbv zeta. intros Hfj Hflags Hgrad Hlen (j0 & J0 & Hj0 & HJ0 & Hz0).
  rewrite FEValues_reinit_unfold. cbv zeta.
  set (f := cell_filled this cell fe boundary) in *.
  destruct (cell_filled_frame this cell fe boundary)
    as (Hnq & _ & _ & Hsg & Husg & Hw & HJ & _).
  fold f in Hnq, Hsg, Husg, Hw, HJ.
  assert (Ha : Assert (has (update_flags this) update_jacobians)
                 ExcCannotInitializeField = Ok tt).
  { destruct (Assert_cases (has (update_flags this) update_jacobians)
                ExcCannotInitializeField) as [[H _]|(_ & Hd & Hc)]; [done|].
    rewrite Hflags in Hc by done. done. }
  assert (Hg : exists g,
    (if has (update_flags this) update_gradients
     then
       Assert (has (update_flags this) update_jacobians)
         ExcCannotInitializeField ;;;
       sg <~ transform_gradients (fe_total_dofs fe) (n_quadrature_points f)
               (rd3 (unit_shape_gradients f)) (jacobi_matrices f)
               (shape_gradients f) ;;
       Ok (set_shape_gradients f sg)
     else Ok f) = Ok g /\
    n_quadrature_points g = n_quadrature_points f /\
    weights g = weights f /\ jacobi_matrices g = jacobi_matrices f /\
    JxW_values g = JxW_values f).
  { destruct (has (update_flags this) update_gradients) eqn:Hfg;
      [|exists f; done].
    rewrite Ha. simpl.
    pose proof (transform_gradients_spec
                  (rd3 (unit_shape_gradients f)) (jacobi_matrices f)
                  (rd3_access_error _)
                  (fe_total_dofs fe) (n_quadrature_points f)
                  (shape_gradients f)) as Hspec.
    destruct (transform_gradients _ _ _ _ _) as [sg|e]; simpl;
      [eexists; split; [reflexivity|done]|].
    exfalso. destruct Hspec as [_ Hpre]. apply Hpre.
    intros i j s Hi Hj Hs. rewrite Husg, Hsg. apply Hgrad; try done.
    by rewrite <- Hnq. }
  destruct Hg as (g & -> & Hnqg & Hwg & HJg & Hjg). simpl.
  rewrite Hfj, Ha. simpl.
  pose proof (fill_loop_spec (cell_JxW_at g) (n_quadrature_points g)
                (JxW_values g)) as Hspec.
  destruct (for_upto _ _ _) as [jxw|e]; simpl.
  - exfalso. destruct Hspec as (_ & Hin & _).
    destruct (Hin j0) as (x & Hx & _); [by rewrite Hnqg, Hnq|].
    apply cell_JxW_at_ok in Hx as (w & J & _ & HJ' & Hz & _).
    rewrite HJg in HJ'. congruence.
  - destruct Hspec as (j & Hj & Hbad). rewrite Hnqg, Hnq in Hj.
    destruct (Hlen j Hj) as (L1 & L2 & L3).
    destruct Hbad as [Hbad | [_ Hbad]].
    + apply cell_JxW_at_err in Hbad as [[_ Hbad] | [-> _]]; [|done].
      rewrite Hwg, Hw, HJg in Hbad. lia.
    + rewrite Hjg, HJ in Hbad. lia.
Qed.

End DivisionReached.

(** ** The gradient entries [reinit] does not write *)

Section GradientFrame.
Context `{Sc : Scalar} `{Cfg : @Config Sc}.

Lemma FEValues_reinit_gradients_frame (this this' : FEValues) (cell : Cell)
  (fe : FiniteElement) (boundary : Boundary) (i j s : nat) :
  FEValues_reinit this cell fe boundary = Ok this' ->
  ~ (has (update_flags this) update_gradients = true /\
     i < fe_total_dofs fe /\ j < n_quadrature_points this /\ s < dim) ->
  rd3 (shape_gradients this') i j s = rd3 (shape_gradients this) i j s.
Proof.
  intros (_ & Hgrad & _)%FEValues_reinit_inv Hout.
  destruct (cell_filled_frame this cell fe boundary)
    as (Hnq & _ & _ & Hsg & _).
  cbv zeta in Hgrad.
  destruct (has (update_flags this) update_gradients).
  - destruct Hgrad as [_ Hgrad].
    pose proof (transform_gradients_spec
                  (rd3 (unit_shape_gradients (cell_filled this cell fe boundary)))
                  (jacobi_matrices (cell_filled this cell fe boundary))
                  (rd3_access_error _)
                  (fe_total_dofs fe)
                  (n_quadrature_points (cell_filled this cell fe boundary))
                  (shape_gradients (cell_filled this cell fe boundary)))
      as Hspec.
    rewrite Hgrad in Hspec. destruct Hspec as (_ & _ & Hframe).
    rewrite Hframe, Hsg; [done|]. rewrite Hnq. tauto.
  - by rewrite Hgrad, Hsg.
Qed.

Lemma FEFaceValues_reinit_gradients_frame (this this' : FEFaceValues)
  (cell : Cell) (face_no : nat) (fe : FiniteElement) (boundary : Boundary)
  (i j s : nat) :
  FEFaceValues_reinit this cell face_no fe boundary = Ok this' ->
  ~ (has (f_update_flags this) update_gradients = true /\
     i < fe_total_dofs fe /\ j < f_n_quadrature_points this /\ s < dim) ->
  rd3 (f_shape_gradients this') i j s = rd3 (f_shape_gradients this) i j s.
Proof.
  intros Hok Hout.
  pose proof (FEFaceValues_reinit_describe _ _ _ _ _ _ Hok)
    as (f & _ & _ & _ & _ & _ & Hframe & _).
  by apply Hframe.
Qed.

End GradientFrame.

(** * The claims *)

(** C1, as the code has it.  With the gradients tag requested, a
    successful [reinit] of the cell evaluator leaves in
    [shape_gradients[i][j](s)], for every [i] below the [total_dofs] of the
    element it was called with, [j < n_quadrature_points] and [s < dim],
    the sum over [b < dim] of
    [unit_shape_gradients[i][j](b) * jacobi_matrices[j](b,s)] (every
    operand being in range), and leaves every other entry as it was; a
    successful [reinit] of the face evaluator does the same, with the
    unit gradients read from the table of the face [face_no] it was called
    with. *)
Theorem reinit_gradients_chain_rule :
  forall (Sc : Scalar) (Cfg : @Config Sc),
    (forall (this this' : FEValues) cell fe boundary,
       FEValues_reinit this cell fe boundary = Ok this' ->
       has (update_flags this) update_gradients = true ->
       (forall i j s,
          i < fe_total_dofs fe -> j < n_quadrature_points this -> s < dim ->
          reads_ok (rd3 (unit_shape_gradients this')) (jacobi_matrices this')
            i j s /\
          rd3 (shape_gradients this') i j s
          = Ok (fold_left
                  (fun acc b =>
                     sadd acc
                       (smul (val (rd3 (unit_shape_gradients this') i j b))
                             (val (rd_jac (jacobi_matrices this') j b s))))
                  (seq 0 dim) szero)) /\
       (forall i j s,
          ~ (i < fe_total_dofs fe /\ j < n_quadrature_points this /\ s < dim) ->
          rd3 (shape_gradients this') i j s
          = rd3 (shape_gradients this) i j s)) /\
    (forall (this this' : FEFaceValues) cell face_no fe boundary,
       FEFaceValues_reinit this cell face_no fe boundary = Ok this' ->
       has (f_update_flags this) update_gradients = true ->
       (forall i j s,
          i < fe_total_dofs fe -> j < f_n_quadrature_points this -> s < dim ->
          reads_ok (rd_face_usg (f_unit_shape_gradients this') face_no)
            (f_jacobi_matrices this') i j s /\
          rd3 (f_shape_gradients this') i j s
          = Ok (fold_left
                  (fun acc b =>
                     sadd acc
                       (smul (val (rd_face_usg (f_unit_shape_gradients this')
                                     face_no i j b))
                             (val (rd_jac (f_jacobi_matrices this') j b s))))
                  (seq 0 dim) szero)) /\
       (forall i j s,
          ~ (i < fe_total_dofs fe /\ j < f_n_quadrature_points this /\ s < dim) ->
          rd3 (f_shape_gradients this') i j s
          = rd3 (f_shape_gradients this) i j s)).
Proof.
  intros Sc Cfg. split.
  - intros this this' cell fe boundary Hok Hflag. split.
    + intros i j s Hi Hj Hs.
      destruct (FEValues_reinit_gradients this this' cell fe boundary i j s
                  Hok Hflag Hi Hj Hs) as [Hrd Hreads].
      split; [exact Hreads | exact Hrd].
    + intros i j s Hout.
      apply (FEValues_reinit_gradients_frame this this' cell fe boundary);
        [done | tauto].
  - intros this this' cell face_no fe boundary Hok Hflag. split.
    + intros i j s Hi Hj Hs.
      destruct (FEFaceValues_reinit_gradients this this' cell face_no fe
                  boundary i j s Hok Hflag Hi Hj Hs) as [Hrd Hreads].
      split; [exact Hreads | exact Hrd].
    + intros i j s Hout.
      apply (FEFaceValues_reinit_gradients_frame this this' cell face_no fe
               boundary); [done | tauto].
Qed.

Lemma reinit_gradients_chain_rule_witness :
  rd3 (shape_gradients Demo.fev1) 1 0 1 = Ok ((0 + (3 # 4) * 0) + (-1 # 4) * (1 / 2))%Q /\
  rd3 (f_shape_gradients Demo.ffv1) 1 0 1 = Ok ((0 + 1 * 0) + -1 * (1 / 2))%Q.
Proof.
  split.
  - apply (proj1 (proj1 (reinit_gradients_chain_rule QScalar Demo.cfg)
                    Demo.fev0 Demo.fev1 2%Q Demo.fe tt eq_refl eq_refl)
             1 0 1);
      simpl; lia.
  - apply (proj1 (proj2 (reinit_gradients_chain_rule QScalar Demo.cfg)
                    Demo.ffv0 Demo.ffv1 2%Q 1 Demo.fe tt eq_refl eq_refl)
             1 0 1);
      simpl; lia.
Defined.

(** C1 as stated fails for [i < total_dofs]: the loops run to the
    [total_dofs] of the element handed to [reinit].  On the evaluator of
    four shape functions, [reinit] with the element of two returns, and
    the gradient of shape function 2 is still the zero of the constructor
    where the sum is 1/8. *)
Lemma reinit_with_a_smaller_element_leaves_rows :
  exists this',
    FEValues_reinit Demo.fev0 2%Q Demo.fe_two tt = Ok this' /\
    has (update_flags Demo.fev0) update_gradients = true /\
    2 < total_dofs Demo.fev0 /\ 0 < n_quadrature_points Demo.fev0 /\
    rd3 (shape_gradients this') 2 0 0 = Ok 0%Q /\
    fold_left
      (fun acc b =>
         sadd acc (smul (val (rd3 (unit_shape_gradients this') 2 0 b))
                        (val (rd_jac (jacobi_matrices this') 0 b 0))))
      (seq 0 dim) szero
    = ((0 + (1 # 4) * (1 / 2)) + (1 # 4) * 0)%Q /\
    ~ (0 == (0 + (1 # 4) * (1 / 2)) + (1 # 4) * 0)%Q.
Proof.
  eexists.
  split; [vm_compute; reflexivity|].
  split; [reflexivity|].
  split; [simpl; lia|]. split; [simpl; lia|].
  split; [reflexivity|]. split; [reflexivity|].
  intros H. discriminate H.
Qed.

(** C2.  With the JxW tag requested, a successful [reinit] of the cell
    evaluator leaves [JxW_values[j] = weights[j] / det(jacobi_matrices[j])]
    for every [j < n_quadrature_points], a quotient by the determinant of
    the Jacobian at that point, which [JxW(j)] then returns; over the
    rationals, on a cell whose Jacobian determinant is 1/4 at every point,
    [JxW(j)] is [weights[j] * 4]. *)
Theorem cell_JxW_is_weight_over_determinant :
  (forall (Sc : Scalar) (Cfg : @Config Sc)
          (this this' : FEValues) cell fe boundary j,
     FEValues_reinit this cell fe boundary = Ok this' ->
     has (update_flags this) update_JxW_values = true ->
     j < n_quadrature_points this ->
     exists w J,
       weights this' !! j = Some w /\
       jacobi_matrices this' !! j = Some J /\
       JxW_values this' !! j = Some (squot w (determinant J)) /\
       FEValues_JxW this' j = Ok (squot w (determinant J))) /\
  (forall (Cfg : @Config QScalar) (this this' : FEValues) cell fe boundary,
     FEValues_reinit this cell fe boundary = Ok this' ->
     has (update_flags this) update_JxW_values = true ->
     (forall j J, j < n_quadrature_points this ->
        jacobi_matrices this' !! j = Some J -> determinant J == 1 # 4) ->
     forall j, j < n_quadrature_points this ->
       exists w x,
         weights this' !! j = Some w /\
         FEValues_JxW this' j = Ok x /\
         x == w * 4).
Proof.
  split.
  - intros Sc Cfg this this' cell fe boundary j Hok Hflag Hj.
    destruct (FEValues_reinit_JxW this this' cell fe boundary j Hok Hflag Hj)
      as (w & J & Hw & HJ & _ & Hjxw & Hacc).
    exists w, J. done.
  - intros Cfg this this' cell fe boundary Hok Hflag Hdet j Hj.
    destruct (FEValues_reinit_JxW this this' cell fe boundary j Hok Hflag Hj)
      as (w & J & Hw & HJ & _ & Hjxw & Hacc).
    exists w, (w / determinant J)%Q. split; [done|]. split; [exact Hacc|].
    rewrite (Hdet j J Hj HJ). unfold Qdiv.
    change (/ (1 # 4))%Q with 4%Q. reflexivity.
Qed.

Lemma cell_JxW_is_weight_over_determinant_witness :
  (exists w J,
     weights Demo.fev1 !! 0 = Some w /\
     jacobi_matrices Demo.fev1 !! 0 = Some J /\
     JxW_values Demo.fev1 !! 0 = Some (squot w (determinant J)) /\
     FEValues_JxW Demo.fev1 0 = Ok (squot w (determinant J))) /\
  (exists w x,
     weights Demo.fev1 !! 1 = Some w /\
     FEValues_JxW Demo.fev1 1 = Ok x /\
     x == w * 4).
Proof.
  split.
  - apply (proj1 cell_JxW_is_weight_over_determinant QScalar Demo.cfg
             Demo.fev0 Demo.fev1 2%Q Demo.fe tt 0);
      [reflexivity | reflexivity | simpl; lia].
  - apply (proj2 cell_JxW_is_weight_over_determinant Demo.cfg
             Demo.fev0 Demo.fev1 2%Q Demo.fe tt);
      [reflexivity | reflexivity | | simpl; lia].
    intros j J Hj HJ. simpl in Hj.
    destruct j as [|[|j]]; [| |lia]; injection HJ as <-; reflexivity.
Defined.

(** C3.  With the JxW tag requested, a successful [reinit] of the face
    evaluator leaves [JxW_values[j] = weights[j] * face_jacobi_determinants[j]]
    for every [j < n_quadrature_points], a product, where the face
    determinants are those [fill_fe_face_values] returned in this call;
    [JxW(j)] then returns that product. *)
Theorem face_JxW_is_weight_times_face_determinant :
  forall (Sc : Scalar) (Cfg : @Config Sc)
         (this this' : FEFaceValues) cell face_no fe boundary j,
    FEFaceValues_reinit this cell face_no fe boundary = Ok this' ->
    has (f_update_flags this) update_JxW_values = true ->
    j < f_n_quadrature_points this ->
    exists w d gq,
      f_weights this' !! j = Some w /\
      f_global_unit_quadrature_points this !! face_no = Some gq /\
      ff_face_jacobi_dets
        (fill_fe_face_values fe cell face_no
           (f_unit_quadrature_points this) gq
           (f_jacobi_matrices this)
           (has (f_update_flags this) update_jacobians)
           (f_ansatz_points this)
           (has (f_update_flags this) update_ansatz_points)
           (f_quadrature_points this)
           (has (f_update_flags this) update_q_points)
           (f_face_jacobi_determinants this) true
           (f_normal_vectors this)
           (has (f_update_flags this) update_normal_vectors)
           boundary) !! j = Some d /\
      f_face_jacobi_determinants this' !! j = Some d /\
      f_JxW_values this' !! j = Some (smul w d) /\
      FEFaceValues_JxW this' j = Ok (smul w d).
Proof.
  intros Sc Cfg this this' cell face_no fe boundary j Hok Hflag Hj.
  destruct (FEFaceValues_reinit_JxW this this' cell face_no fe boundary j
              Hok Hflag Hj) as (w & d & Hw & Hd & Hjxw & Hacc).
  destruct (FEFaceValues_reinit_face_dets this this' cell face_no fe boundary
              Hok Hflag) as (gq & Hgq & Hfjd).
  exists w, d, gq. rewrite <- Hfjd. done.
Qed.

Lemma face_JxW_is_weight_times_face_determinant_witness :
  exists w d gq,
    f_weights Demo.ffv1 !! 0 = Some w /\
    f_global_unit_quadrature_points Demo.ffv0 !! 1 = Some gq /\
    ff_face_jacobi_dets
      (fill_fe_face_values Demo.fe 2%Q 1
         (f_unit_quadrature_points Demo.ffv0) gq
         (f_jacobi_matrices Demo.ffv0) true
         (f_ansatz_points Demo.ffv0) false
         (f_quadrature_points Demo.ffv0) false
         (f_face_jacobi_determinants Demo.ffv0) true
         (f_normal_vectors Demo.ffv0) false tt) !! 0 = Some d /\
    f_face_jacobi_determinants Demo.ffv1 !! 0 = Some d /\
    f_JxW_values Demo.ffv1 !! 0 = Some (smul w d) /\
    FEFaceValues_JxW Demo.ffv1 0 = Ok (smul w d).
Proof.
  apply (face_JxW_is_weight_times_face_determinant QScalar Demo.cfg
           Demo.ffv0 Demo.ffv1 2%Q 1 Demo.fe tt 0);
    [reflexivity | reflexivity | simpl; lia].
Defined.

(** C4.  The constructor of the cell evaluator returns, and for every
    [i < total_dofs] and [j < n_quadrature_points] the evaluator it returns
    answers [shape_value(i,j)] with the value function of the finite
    element at the [j]-th unit quadrature point; so does the evaluator
    after any sequence of successful [reinit] calls. *)
Theorem shape_value_is_reference_value :
  forall (Sc : Scalar) (Cfg : @Config Sc) fe quadrature flags,
  exists this0,
    FEValues_ctor fe quadrature flags = Ok this0 /\
    forall i j, i < total_dofs this0 -> j < n_quadrature_points this0 ->
      FEValues_shape_value this0 i j
      = Ok (fe_shape_value fe i (quad_point quadrature j)) /\
      forall calls this',
        FEValues_reinit_all this0 calls = Ok this' ->
        FEValues_shape_value this' i j
        = Ok (fe_shape_value fe i (quad_point quadrature j)).
Proof.
  intros Sc Cfg fe quadrature flags.
  destruct (FEValues_ctor_spec fe quadrature flags)
    as (this0 & Hctor & Hnq & Htd & _ & Hm & Hn & Htab & _).
  exists this0. split; [done|]. intros i j Hi Hj.
  rewrite Htd in Hi. rewrite Hnq in Hj.
  assert (H0 : FEValues_shape_value this0 i j
               = Ok (fe_shape_value fe i (quad_point quadrature j))).
  { rewrite FEValues_shape_value_in_range by lia. by apply Htab. }
  split; [done|]. intros calls this' Hcalls.
  apply FEValues_reinit_all_shape_values in Hcalls.
  unfold FEValues_shape_value in *. by rewrite Hcalls.
Qed.

Lemma shape_value_is_reference_value_witness :
  exists this0,
    FEValues_ctor Demo.fe Demo.quadrature Demo.flags_all = Ok this0 /\
    (FEValues_shape_value this0 2 1 = Ok (Demo.q1_value 2 [3 # 4; 3 # 4]) /\
     forall calls this',
       FEValues_reinit_all this0 calls = Ok this' ->
       FEValues_shape_value this' 2 1 = Ok (Demo.q1_value 2 [3 # 4; 3 # 4])).
Proof.
  destruct (shape_value_is_reference_value QScalar Demo.cfg
              Demo.fe Demo.quadrature Demo.flags_all) as (this0 & Hctor & H).
  exists this0. split; [exact Hctor|].
  assert (Heq : this0 = Demo.fev0).
  { assert (Hc : FEValues_ctor Demo.fe Demo.quadrature Demo.flags_all
                 = Ok Demo.fev0) by reflexivity.
    rewrite Hc in Hctor. by injection Hctor. }
  apply (H 2 1); rewrite Heq; simpl; lia.
Defined.

(** C5, as the code has it.  Neither constructor looks at the flags: the
    cell evaluator is constructed with gradients or JxW requested and
    jacobians omitted as with any other flags, and the face evaluator is
    constructed exactly when it is with no flag at all.  The configuration
    is found out by [reinit]: in a debug build every [reinit] of such an
    evaluator (for the face evaluator, with an existing face) stops at
    [ExcCannotInitializeField]. *)
Theorem unsatisfiable_flags_are_detected_by_reinit :
  forall (Sc : Scalar) (Cfg : @Config Sc) fe quadrature face_quadrature flags,
    has flags update_jacobians = false ->
    has flags update_gradients = true \/ has flags update_JxW_values = true ->
    (exists this0,
       FEValues_ctor fe quadrature flags = Ok this0 /\
       update_flags this0 = flags /\
       (debug = true ->
        forall cell fe' boundary,
          FEValues_reinit this0 cell fe' boundary
          = Err ExcCannotInitializeField)) /\
    is_ok (FEFaceValues_ctor fe face_quadrature flags)
    = is_ok (FEFaceValues_ctor fe face_quadrature 0%N) /\
    (forall this0,
       FEFaceValues_ctor fe face_quadrature flags = Ok this0 ->
       debug = true ->
       forall cell face_no fe' boundary,
         face_no < 2 * dim ->
         FEFaceValues_reinit this0 cell face_no fe' boundary
         = Err ExcCannotInitializeField).
Proof.
  intros Sc Cfg fe quadrature face_quadrature flags Hjac Hreq. split; [|split].
  - destruct (FEValues_ctor_spec fe quadrature flags)
      as (this0 & Hctor & _ & _ & Hfl & _).
    exists this0. split; [done|]. split; [done|].
    intros Hd cell fe' boundary.
    apply FEValues_reinit_unsatisfiable; by rewrite ?Hfl.
  - apply FEFaceValues_ctor_flags.
  - intros this0 Hctor Hd cell face_no fe' boundary Hface.
    apply FEFaceValues_ctor_inv in Hctor as (_ & Hfl & _ & _ & _ & _ & Hlen).
    apply FEFaceValues_reinit_unsatisfiable; rewrite ?Hfl, ?Hlen; done.
Qed.

Lemma unsatisfiable_flags_are_detected_by_reinit_witness :
  (exists this0,
     FEValues_ctor Demo.fe Demo.quadrature 2%N = Ok this0 /\
     update_flags this0 = 2%N /\
     (debug = true ->
      forall cell fe' boundary,
        FEValues_reinit this0 cell fe' boundary
        = Err ExcCannotInitializeField)) /\
  is_ok (FEFaceValues_ctor Demo.fe Demo.face_quadrature 2%N)
  = is_ok (FEFaceValues_ctor Demo.fe Demo.face_quadrature 0%N) /\
  (forall this0,
     FEFaceValues_ctor Demo.fe Demo.face_quadrature 2%N = Ok this0 ->
     debug = true ->
     forall cell face_no fe' boundary,
       face_no < 2 * dim ->
       FEFaceValues_reinit this0 cell face_no fe' boundary
       = Err ExcCannotInitializeField).
Proof.
  apply (unsatisfiable_flags_are_detected_by_reinit QScalar Demo.cfg
           Demo.fe Demo.quadrature Demo.face_quadrature 2%N).
  - reflexivity.
  - left. reflexivity.
Defined.

(** C5 as stated fails: with only the gradients tag, both constructors
    return an evaluator, and the first [reinit] is where the missing
    prerequisite is reported. *)
Lemma ctor_accepts_gradients_without_jacobians :
  has 2%N update_gradients = true /\
  has 2%N update_jacobians = false /\
  exists this0 fthis0,
    FEValues_ctor Demo.fe Demo.quadrature 2%N = Ok this0 /\
    FEValues_reinit this0 2%Q Demo.fe tt = Err ExcCannotInitializeField /\
    FEFaceValues_ctor Demo.fe Demo.face_quadrature 2%N = Ok fthis0 /\
    FEFaceValues_reinit fthis0 2%Q 1 Demo.fe tt = Err ExcCannotInitializeField.
Proof.
  split; [reflexivity|]. split; [reflexivity|].
  eexists. eexists.
  split; [vm_compute; reflexivity|].
  split; [vm_compute; reflexivity|].
  split; [vm_compute; reflexivity|].
  vm_compute; reflexivity.
Qed.

(** C6, as the code has it.  In a debug build every accessor checks its
    indices against its bound on each call and answers a violation with
    [ExcInvalidIndex], which records index and bound as [int];
    [shape_grad], [quadrature_point], [ansatz_point], [JxW] and
    [normal_vector] then check their tag and answer a missing one with
    [ExcAccessToUninitializedField]; [shape_value] has no tag to check and
    reads the table once the indices are in range.  On an evaluator as
    constructed, cell or face, the bounds are [total_dofs] for the shape
    function and for [ansatz_point], and [n_quadrature_points] for the
    quadrature point and for [normal_vector]. *)
Theorem accessors_validate_in_debug_builds :
  forall (Sc : Scalar) (Cfg : @Config Sc),
    debug = true ->
    (forall (this : FEValues) i j,
       let m := mat_m (shape_values this) in
       let n := mat_n (shape_values this) in
       let flags := update_flags this in
       FEValues_shape_value this i j
       = checked2 i m j n None (mat_rd (shape_values this) i j) /\
       FEValues_shape_grad this i j
       = checked2 i m j n (Some (has flags update_gradients))
           (rd2 (shape_gradients this) i j) /\
       FEValues_quadrature_point this i
       = checked1 i (n_quadrature_points this) (has flags update_q_points)
           (rd (quadrature_points this) i) /\
       FEValues_ansatz_point this i
       = checked1 i (length (ansatz_points this))
           (has flags update_ansatz_points) (rd (ansatz_points this) i) /\
       FEValues_JxW this i
       = checked1 i (n_quadrature_points this) (has flags update_JxW_values)
           (rd (JxW_values this) i)) /\
    (forall (this : FEFaceValues) M i j,
       f_shape_values this !! selected_face this = Some M ->
       let flags := f_update_flags this in
       FEFaceValues_shape_value this i j
       = checked2 i (mat_m M) j (mat_n M) None (mat_rd M i j) /\
       FEFaceValues_shape_grad this i j
       = checked2 i (mat_m M) j (mat_n M) (Some (has flags update_gradients))
           (rd2 (f_shape_gradients this) i j) /\
       FEFaceValues_quadrature_point this i
       = checked1 i (f_n_quadrature_points this) (has flags update_q_points)
           (rd (f_quadrature_points this) i) /\
       FEFaceValues_ansatz_point this i
       = checked1 i (length (f_ansatz_points this))
           (has flags update_ansatz_points) (rd (f_ansatz_points this) i) /\
       FEFaceValues_normal_vector this i
       = checked1 i (length (f_normal_vectors this))
           (has flags update_normal_vectors) (rd (f_normal_vectors this) i) /\
       FEFaceValues_JxW this i
       = checked1 i (f_n_quadrature_points this) (has flags update_JxW_values)
           (rd (f_JxW_values this) i)) /\
    (forall fe quadrature flags,
     exists this0,
       FEValues_ctor fe quadrature flags = Ok this0 /\
       mat_m (shape_values this0) = total_dofs this0 /\
       mat_n (shape_values this0) = n_quadrature_points this0 /\
       length (ansatz_points this0) = total_dofs this0) /\
    (forall fe quadrature flags this0,
       FEFaceValues_ctor fe quadrature flags = Ok this0 ->
       0 < dim ->
       (exists M,
          f_shape_values this0 !! selected_face this0 = Some M /\
          mat_m M = f_total_dofs this0 /\
          mat_n M = f_n_quadrature_points this0) /\
       length (f_ansatz_points this0) = f_total_dofs this0 /\
       length (f_normal_vectors this0) = f_n_quadrature_points this0 /\
       forall i j,
         FEFaceValues_shape_value this0 i j
         = checked2 i (f_total_dofs this0) j (f_n_quadrature_points this0)
             None
             (M <~ rd_arr (f_shape_values this0) (selected_face this0) ;;
              mat_rd M i j) /\
         FEFaceValues_shape_grad this0 i j
         = checked2 i (f_total_dofs this0) j (f_n_quadrature_points this0)
             (Some (has (f_update_flags this0) update_gradients))
             (rd2 (f_shape_gradients this0) i j) /\
         FEFaceValues_quadrature_point this0 j
         = checked1 j (f_n_quadrature_points this0)
             (has (f_update_flags this0) update_q_points)
             (rd (f_quadrature_points this0) j) /\
         FEFaceValues_ansatz_point this0 i
         = checked1 i (f_total_dofs this0)
             (has (f_update_flags this0) update_ansatz_points)
             (rd (f_ansatz_points this0) i) /\
         FEFaceValues_normal_vector this0 j
         = checked1 j (f_n_quadrature_points this0)
             (has (f_update_flags this0) update_normal_vectors)
             (rd (f_normal_vectors this0) j) /\
         FEFaceValues_JxW this0 j
         = checked1 j (f_n_quadrature_points this0)
             (has (f_update_flags this0) update_JxW_values)
             (rd (f_JxW_values this0) j)) /\
    (dim = 2 ->
     forall fe quadrature flags,
     exists this0, FEFaceValues_ctor fe quadrature flags = Ok this0).
Proof.
  intros Sc Cfg Hd.
  assert (Hcell : forall (this : FEValues) i j,
       let m := mat_m (shape_values this) in
       let n := mat_n (shape_values this) in
       let flags := update_flags this in
       FEValues_shape_value this i j
       = checked2 i m j n None (mat_rd (shape_values this) i j) /\
       FEValues_shape_grad this i j
       = checked2 i m j n (Some (has flags update_gradients))
           (rd2 (shape_gradients this) i j) /\
       FEValues_quadrature_point this i
       = checked1 i (n_quadrature_points this) (has flags update_q_points)
           (rd (quadrature_points this) i) /\
       FEValues_ansatz_point this i
       = checked1 i (length (ansatz_points this))
           (has flags update_ansatz_points) (rd (ansatz_points this) i) /\
       FEValues_JxW this i
       = checked1 i (n_quadrature_points this) (has flags update_JxW_values)
           (rd (JxW_values this) i)).
  { intros this i j m n flags.
    unfold FEValues_shape_value, FEValues_shape_grad,
      FEValues_quadrature_point, FEValues_ansatz_point, FEValues_JxW,
      checked2, checked1.
    rewrite !(Assert_debug _ _ Hd). subst m n flags.
    repeat split.
    + destruct (i <? _); [|done]. simpl. by destruct (j <? _).
    + destruct (i <? _); [|done]. simpl. destruct (j <? _); [|done]. simpl.
      by destruct (has _ _).
    + destruct (i <? _); [|done]. simpl. by destruct (has _ _).
    + destruct (i <? _); [|done]. simpl. by destruct (has _ _).
    + destruct (i <? _); [|done]. simpl. by destruct (has _ _). }
  assert (Hface : forall (this : FEFaceValues) M i j,
       f_shape_values this !! selected_face this = Some M ->
       let flags := f_update_flags this in
       FEFaceValues_shape_value this i j
       = checked2 i (mat_m M) j (mat_n M) None (mat_rd M i j) /\
       FEFaceValues_shape_grad this i j
       = checked2 i (mat_m M) j (mat_n M) (Some (has flags update_gradients))
           (rd2 (f_shape_gradients this) i j) /\
       FEFaceValues_quadrature_point this i
       = checked1 i (f_n_quadrature_points this) (has flags update_q_points)
           (rd (f_quadrature_points this) i) /\
       FEFaceValues_ansatz_point this i
       = checked1 i (length (f_ansatz_points this))
           (has flags update_ansatz_points) (rd (f_ansatz_points this) i) /\
       FEFaceValues_normal_vector this i
       = checked1 i (length (f_normal_vectors this))
           (has flags update_normal_vectors) (rd (f_normal_vectors this) i) /\
       FEFaceValues_JxW this i
       = checked1 i (f_n_quadrature_points this) (has flags update_JxW_values)
           (rd (f_JxW_values this) i)).
  { intros this M i j HM flags.
    apply rd_arr_ok in HM.
    unfold FEFaceValues_shape_value, FEFaceValues_shape_grad,
      FEFaceValues_quadrature_point, FEFaceValues_ansatz_point,
      FEFaceValues_normal_vector, FEFaceValues_JxW, checked2, checked1.
    rewrite !(Assert_reading_debug _ _ _ Hd).
    rewrite HM. simpl. rewrite !(Assert_debug _ _ Hd). subst flags.
    repeat split.
    + destruct (i <? _); [|done]. simpl. by destruct (j <? _).
    + destruct (i <? _); [|done]. simpl. destruct (j <? _); [|done]. simpl.
      by destruct (has _ _).
    + destruct (i <? _); [|done]. simpl. by destruct (has _ _).
    + destruct (i <? _); [|done]. simpl. by destruct (has _ _).
    + destruct (i <? _); [|done]. simpl. by destruct (has _ _).
    + destruct (i <? _); [|done]. simpl. by destruct (has _ _). }
  split; [exact Hcell|]. split; [exact Hface|]. split; [|split].
  - intros fe quadrature flags.
    destruct (FEValues_ctor_spec fe quadrature flags)
      as (this0 & Hctor & Hnq & Htd & _ & Hm & Hn & _ & _ & _ & Hap).
    exists this0. rewrite Hm, Hn, Hnq, Htd, Hap, length_replicate. done.
  - intros fe quadrature flags this0 Hctor Hdim.
    destruct (FEFaceValues_ctor_tables_sized _ _ _ _ Hctor)
      as (Hsz & Hla & Hln).
    destruct (FEFaceValues_ctor_inv _ _ _ _ Hctor)
      as (Hsel & _ & Hnq & Htd & Hlen & _).
    assert (Hlt : selected_face this0 < length (f_shape_values this0))
      by (rewrite Hsel, Hlen; lia).
    destruct (lookup_lt_is_Some_2 _ _ Hlt) as [M HM].
    destruct (Hsz _ _ HM) as [Hm Hn].
    rewrite Htd, Hnq.
    split; [by exists M|]. split; [done|]. split; [done|].
    intros i j.
    destruct (Hface this0 M i j HM) as (Hv & Hg & _ & Ha & _).
    destruct (Hface this0 M j j HM) as (_ & _ & Hq & _ & Hn' & Hj).
    cbv zeta in *.
    rewrite Hv, Hg, Hq, Ha, Hn', Hj, Hm, Hn, Hla, Hln, Hnq.
    apply rd_arr_ok in HM. rewrite HM. done.
  - intros Hdim fe quadrature flags.
    destruct (FEFaceValues_ctor_spec_2d Hdim fe quadrature flags)
      as (this0 & Hc & _).
    by exists this0.
Qed.

Lemma accessors_validate_in_debug_builds_witness :
  FEValues_shape_grad Demo.fev1 4 0 = Err (ExcInvalidIndex 4%Z 4%Z) /\
  FEValues_quadrature_point Demo.fev1 0 = Err ExcAccessToUninitializedField /\
  FEFaceValues_shape_value Demo.ffv1 0 2 = Err (ExcInvalidIndex 2%Z 2%Z) /\
  FEFaceValues_normal_vector Demo.ffv1 0 = Err ExcAccessToUninitializedField /\
  FEFaceValues_normal_vector Demo.ffv0 2 = Err (ExcInvalidIndex 2%Z 2%Z) /\
  FEFaceValues_ansatz_point Demo.ffv0 4 = Err (ExcInvalidIndex 4%Z 4%Z).
Proof.
  pose proof (accessors_validate_in_debug_builds QScalar Demo.cfg eq_refl)
    as (Hcell & Hface & _ & Hfctor & _).
  destruct (Hcell Demo.fev1 4 0) as (_ & Hg & _).
  destruct (Hcell Demo.fev1 0 0) as (_ & _ & Hq & _).
  destruct (Hface Demo.ffv1 _ 0 2 eq_refl) as (Hv & _ & _ & _ & Hn & _).
  destruct (Hfctor Demo.fe Demo.face_quadrature Demo.flags_all Demo.ffv0
              eq_refl ltac:(simpl; lia)) as (_ & _ & _ & Hacc).
  destruct (Hacc 4 2) as (_ & _ & _ & Ha0 & Hn0 & _).
  rewrite Hg, Hq, Hv, Hn, Ha0, Hn0. repeat split; reflexivity.
Defined.

(** An index above [INT_MAX] is found out of range like any other, and
    the exception records it wrapped around. *)
Example invalid_index_is_recorded_as_int :
  FEValues_shape_value Demo.fev1 (Z.to_nat 4294967295) 0
  = Err (ExcInvalidIndex (-1)%Z 4%Z).
Proof.
  assert (Hge : (Z.to_nat 4294967295 <? 4) = false)
    by (apply Nat.ltb_ge; lia).
  assert (Hint : int_of_unsigned (Z.to_nat 4294967295) = (-1)%Z).
  { unfold int_of_unsigned. rewrite Z2Nat.id by lia. reflexivity. }
  revert Hge Hint. generalize (Z.to_nat 4294967295) as k. intros k Hge Hint.
  unfold FEValues_shape_value.
  change (mat_m (shape_values Demo.fev1)) with 4.
  rewrite (Assert_debug _ _ (eq_refl : @debug QScalar Demo.cfg = true)).
  rewrite Hge. unfold InvalidIndex. rewrite Hint. reflexivity.
Qed.

(** C6 as stated fails for [shape_value]: with no tag requested at all,
    both evaluators hand out table entries. *)
Lemma shape_value_checks_no_tag :
  exists this0 fthis0,
    FEValues_ctor Demo.fe Demo.quadrature 0%N = Ok this0 /\
    update_flags this0 = 0%N /\
    FEValues_shape_value this0 0 0 = Ok (9 # 16) /\
    FEFaceValues_ctor Demo.fe Demo.face_quadrature 0%N = Ok fthis0 /\
    f_update_flags fthis0 = 0%N /\
    FEFaceValues_shape_value fthis0 0 0 = Ok 1%Q.
Proof.
  eexists. eexists.
  split; [vm_compute; reflexivity|].
  split; [reflexivity|].
  split; [vm_compute; reflexivity|].
  split; [vm_compute; reflexivity|].
  split; [reflexivity|].
  vm_compute; reflexivity.
Qed.

(** C7.  On the two-point rule with points 1/4 and 3/4, the constructor
    of the face evaluator embeds the coordinate 0 on every face, because
    it reads [unit_quadrature_points] before copying the rule into it:
    face 0 gets (0,0) twice where its points are (1/4,0) and (3/4,0), and
    the tables are tabulated at those points. *)
Example face_points_are_embedded_before_the_rule_is_copied :
  exists this,
    FEFaceValues_ctor Demo.fe Demo.face_quadrature Demo.flags_all = Ok this /\
    f_unit_quadrature_points this = [[1 # 4]; [3 # 4]] /\
    f_global_unit_quadrature_points this
    = [ [[0; 0]; [0; 0]]; [[1; 0]; [1; 0]];
        [[0; 1]; [0; 1]]; [[0; 0]; [0; 0]] ]%Q /\
    FEFaceValues_shape_value this 0 0 = Ok (Demo.q1_value 0 [0; 0]%Q) /\
    Demo.q1_value 0 [0; 0]%Q = 1%Q /\
    Demo.q1_value 0 [1 # 4; 0]%Q = 3 # 4.
Proof.
  eexists.
  split; [vm_compute; reflexivity|].
  repeat split; reflexivity.
Qed.




(** The same on the demo evaluator, by evaluation: face 1, face 2, face 1. *)
Example demo_face_round_trip :
  FEFaceValues_reinit Demo.ffv0 2%Q 1 Demo.fe tt = Ok Demo.ffv1 /\
  FEFaceValues_reinit Demo.ffv1 2%Q 2 Demo.fe tt = Ok Demo.ffv2 /\
  FEFaceValues_reinit Demo.ffv2 2%Q 1 Demo.fe tt = Ok Demo.ffv1 /\
  Demo.ffv2 <> Demo.ffv1.
Proof. repeat split; try reflexivity. discriminate. Qed.

(** C9.  The JxW loop of the cell evaluator divides every weight by the
    determinant of the Jacobian [fill_fe_values] left at that quadrature
    point, without testing it.  When [reinit] returns with the JxW tag
    requested, [JxW_values[j]] is that quotient for every
    [j < n_quadrature_points].  With everything the loops touch in range,
    a determinant that is zero at some [j < n_quadrature_points] is
    divided by, and [reinit] ends in the undefined division; if the
    determinant is nonzero at every [j < n_quadrature_points], [reinit]
    returns.  [reinit] ends in the undefined division only through a
    quadrature index with determinant zero, so under that precondition
    the undefined division is never reached. *)
Theorem cell_JxW_division_is_defined :
  forall (Sc : Scalar) (Cfg : @Config Sc)
         (this : FEValues) cell fe boundary,
    (FEValues_reinit this cell fe boundary = Err UB_DivisionByZero ->
     has (update_flags this) update_JxW_values = true /\
     exists j J,
       j < n_quadrature_points this /\
       jacobi_matrices (cell_filled this cell fe boundary) !! j = Some J /\
       s_is_zero (determinant J) = true) /\
    ((forall j J, j < n_quadrature_points this ->
        jacobi_matrices (cell_filled this cell fe boundary) !! j = Some J ->
        s_is_zero (determinant J) = false) ->
     FEValues_reinit this cell fe boundary <> Err UB_DivisionByZero) /\
    (forall this',
       FEValues_reinit this cell fe boundary = Ok this' ->
       has (update_flags this) update_JxW_values = true ->
       forall j, j < n_quadrature_points this ->
         exists w J,
           weights this !! j = Some w /\
           jacobi_matrices (cell_filled this cell fe boundary) !! j = Some J /\
           s_is_zero (determinant J) = false /\
           JxW_values this' !! j = Some (squot w (determinant J))) /\
    (has (update_flags this) update_JxW_values = true ->
     (debug = true -> has (update_flags this) update_jacobians = true) ->
     (has (update_flags this) update_gradients = true ->
      forall i j s,
        i < fe_total_dofs fe -> j < n_quadrature_points this -> s < dim ->
        pre_ok (rd3 (unit_shape_gradients this))
          (jacobi_matrices (cell_filled this cell fe boundary))
          (shape_gradients this) i j s) ->
     (forall j, j < n_quadrature_points this ->
        j < length (weights this) /\
        j < length (jacobi_matrices (cell_filled this cell fe boundary)) /\
        j < length (JxW_values this)) ->
     ((exists j J,
         j < n_quadrature_points this /\
         jacobi_matrices (cell_filled this cell fe boundary) !! j = Some J /\
         s_is_zero (determinant J) = true) ->
      FEValues_reinit this cell fe boundary = Err UB_DivisionByZero) /\
     ((forall j J, j < n_quadrature_points this ->
         jacobi_matrices (cell_filled this cell fe boundary) !! j = Some J ->
         s_is_zero (determinant J) = false) ->
      exists this', FEValues_reinit this cell fe boundary = Ok this')).
Proof.
  intros Sc Cfg this cell fe boundary.
  assert (H : FEValues_reinit this cell fe boundary = Err UB_DivisionByZero ->
    has (update_flags this) update_JxW_values = true /\
    exists j J,
      j < n_quadrature_points this /\
      jacobi_matrices (cell_filled this cell fe boundary) !! j = Some J /\
      s_is_zero (determinant J) = true).
  { intros [(He & _) | [[He|He] | (_ & Hfl & Hex)]]%FEValues_reinit_err;
      try discriminate. done. }
  split; [exact H|]. split; [|split].
  - intros Hnz Herr. destruct (H Herr) as (_ & j & J & Hj & HJ & Hz).
    rewrite (Hnz j J Hj HJ) in Hz. discriminate.
  - intros this' Hok Hflag j Hj.
    destruct (FEValues_reinit_JxW this this' cell fe boundary j Hok Hflag Hj)
      as (w & J & Hw & HJ & Hz & Hv & _).
    destruct (FEValues_reinit_frame _ _ _ _ _ Hok)
      as (_ & _ & _ & _ & Hw' & _ & _ & Hjac & _).
    exists w, J. rewrite <- Hw', <- Hjac. done.
  - intros Hflag Hsat Hgrad Hlen. split.
    + intros Hex.
      by apply FEValues_reinit_division_reached.
    + intros Hnz.
      apply FEValues_reinit_returns; cbv zeta.
      * intros Hd _. by apply Hsat.
      * exact Hgrad.
      * intros _ j Hj. destruct (Hlen j Hj) as (L1 & L2 & L3).
        split; [done|].
        destruct (lookup_lt_is_Some_2 _ _ L1) as [w Hw].
        destruct (lookup_lt_is_Some_2 _ _ L2) as [J HJ].
        exists w, J. split; [done|]. split; [done|]. by apply (Hnz j J).
Qed.

Lemma cell_JxW_division_is_defined_witness :
  FEValues_reinit Demo.fev0 2%Q Demo.fe tt <> Err UB_DivisionByZero /\
  JxW_values Demo.fev1 !! 0 = Some ((1 # 2) / ((1 / 2) * (1 / 2) - 0 * 0))%Q.
Proof.
  pose proof (cell_JxW_division_is_defined QScalar Demo.cfg
                Demo.fev0 2%Q Demo.fe tt) as (_ & Hdef & Hdiv & _).
  split.
  - apply Hdef.
    intros j J Hj HJ. simpl in Hj.
    destruct j as [|[|j]]; [| |lia]; injection HJ as <-; reflexivity.
  - destruct (Hdiv Demo.fev1 eq_refl eq_refl 0 ltac:(simpl; lia))
      as (w & J & Hw & HJ & _ & Hv).
    injection Hw as <-. injection HJ as <-. exact Hv.
Defined.

(** Nothing guards the division: on the degenerate cell of edge 0 the
    Jacobian the mapper returns is singular and [reinit] runs into it. *)
Example cell_JxW_division_by_zero_reached :
  FEValues_reinit Demo.fev0 0%Q Demo.fe tt = Err UB_DivisionByZero.
Proof. reflexivity. Qed.

(** C10.  A constructed face evaluator has [selected_face = 0] and its
    three per-face arrays have [2*dim] entries.  [reinit] stores [face_no]
    in [selected_face] whatever its value: when it returns, that is the
    recorded face, and with nothing to fill or transform it returns for
    every [face_no].  If the recorded face and [face_no] are below
    [2*dim], no access to a per-face array, in [reinit] or in an accessor,
    leaves the array, and the evaluator [reinit] returns again has its
    recorded face below [2*dim]. *)
Theorem selected_face_stays_in_bounds :
  forall (Sc : Scalar) (Cfg : @Config Sc),
    (forall fe quadrature flags this,
       FEFaceValues_ctor fe quadrature flags = Ok this ->
       selected_face this = 0 /\
       length (f_shape_values this) = 2 * dim /\
       length (f_unit_shape_gradients this) = 2 * dim /\
       length (f_global_unit_quadrature_points this) = 2 * dim /\
       (0 < dim -> face_inv this)) /\
    (forall (this : FEFaceValues) cell face_no fe boundary,
       (forall this',
          FEFaceValues_reinit this cell face_no fe boundary = Ok this' ->
          selected_face this' = face_no) /\
       (wants_face_fill (f_update_flags this) = false ->
        has (f_update_flags this) update_gradients = false ->
        FEFaceValues_reinit this cell face_no fe boundary
        = Ok (set_selected_face this face_no))) /\
    (forall (this : FEFaceValues) cell face_no fe boundary,
       face_inv this -> face_no < 2 * dim ->
       FEFaceValues_reinit this cell face_no fe boundary
       <> Err UB_ArrayOutOfBounds /\
       forall this',
         FEFaceValues_reinit this cell face_no fe boundary = Ok this' ->
         face_inv this') /\
    (forall (this : FEFaceValues) i j,
       face_inv this ->
       FEFaceValues_shape_value this i j <> Err UB_ArrayOutOfBounds /\
       FEFaceValues_shape_grad this i j <> Err UB_ArrayOutOfBounds /\
       FEFaceValues_quadrature_point this i <> Err UB_ArrayOutOfBounds /\
       FEFaceValues_ansatz_point this i <> Err UB_ArrayOutOfBounds /\
       FEFaceValues_normal_vector this i <> Err UB_ArrayOutOfBounds /\
       FEFaceValues_JxW this i <> Err UB_ArrayOutOfBounds).
Proof.
  intros Sc Cfg. split; [|split; [|split]].
  - intros fe quadrature flags this Hctor.
    apply FEFaceValues_ctor_inv in Hctor as (Hsel & _ & _ & _ & H1 & H2 & H3).
    unfold face_inv. rewrite Hsel, H1, H2, H3.
    repeat split; try done. lia.
  - intros this cell face_no fe boundary. split.
    + intros this' Hok. by apply FEFaceValues_reinit_frame in Hok as (H & _).
    + apply FEFaceValues_reinit_idle.
  - intros this cell face_no fe boundary (Hsel & H1 & H2 & H3) Hface. split.
    + intros [H | H]%FEFaceValues_reinit_array_err; lia.
    + intros this' Hok.
      apply FEFaceValues_reinit_frame in Hok
        as (Hs & _ & _ & Hsv & Husg & _ & _ & Hgq & _).
      unfold face_inv. rewrite Hs, Hsv, Husg, Hgq. done.
  - intros this i j (Hsel & H1 & _ & _).
    destruct (FEFaceValues_accessors_array_err this i j)
      as (Hv & Hg & Hq & Ha & Hn & Hj).
    repeat split; try done.
    + intros H%Hv. lia.
    + intros H%Hg. lia.
Qed.

Lemma selected_face_stays_in_bounds_witness :
  (FEFaceValues_reinit Demo.ffv0 2%Q 1 Demo.fe tt <> Err UB_ArrayOutOfBounds /\
   forall this',
     FEFaceValues_reinit Demo.ffv0 2%Q 1 Demo.fe tt = Ok this' ->
     face_inv this') /\
  FEFaceValues_shape_value Demo.ffv1 0 0 <> Err UB_ArrayOutOfBounds.
Proof.
  pose proof (selected_face_stays_in_bounds QScalar Demo.cfg)
    as (_ & _ & Hreinit & Hacc).
  split.
  - apply Hreinit; [|simpl; lia].
    unfold face_inv. simpl. repeat split; lia.
  - apply Hacc. unfold face_inv. simpl. repeat split; lia.
Defined.

(** The store is not guarded: a face number past the last face is
    recorded, and the next [shape_value] leaves the array. *)
Example reinit_records_a_face_that_does_not_exist :
  exists fthis0 fthis1,
    FEFaceValues_ctor Demo.fe Demo.face_quadrature 0%N = Ok fthis0 /\
    FEFaceValues_reinit fthis0 2%Q 7 Demo.fe tt = Ok fthis1 /\
    selected_face fthis1 = 7 /\
    FEFaceValues_shape_value fthis1 0 0 = Err UB_ArrayOutOfBounds.
Proof.
  eexists. eexists.
  split; [vm_compute; reflexivity|].
  split; [vm_compute; reflexivity|].
  split; reflexivity.
Qed.

(** * Further properties of the two classes *)

(** ** The bulk getters of [fe_values.h] *)

Section GettersAgree.
Context `{Sc : Scalar} `{Cfg : @Config Sc}.

(** X1.  For indices within the bounds it checks, each accessor of the
    cell evaluator is the bulk getter followed by indexing, failures
    included: a missing tag stops both at
    [ExcAccessToUninitializedField], and [get_shape_values], like
    [shape_value], checks no tag. *)
Lemma FEValues_accessor_is_getter_then_index (this : FEValues) (i j : nat) :
  (i < mat_m (shape_values this) -> j < mat_n (shape_values this) ->
   FEValues_shape_value this i j
   = (M <~ FEValues_get_shape_values this ;; mat_rd M i j) /\
   FEValues_shape_grad this i j
   = (v <~ FEValues_get_shape_grads this ;; rd2 v i j)) /\
  (i < n_quadrature_points this ->
   FEValues_quadrature_point this i
   = (v <~ FEValues_get_quadrature_points this ;; rd v i) /\
   FEValues_JxW this i = (v <~ FEValues_get_JxW_values this ;; rd v i)) /\
  (i < length (ansatz_points this) ->
   FEValues_ansatz_point this i
   = (v <~ FEValues_get_ansatz_points this ;; rd v i)).
Proof.
  unfold FEValues_shape_value, FEValues_shape_grad, FEValues_quadrature_point,
    FEValues_ansatz_point, FEValues_JxW, FEValues_get_shape_values,
    FEValues_get_shape_grads, FEValues_get_quadrature_points,
    FEValues_get_ansatz_points, FEValues_get_JxW_values.
  split; [|split].
  - intros Hi%Nat.ltb_lt Hj%Nat.ltb_lt. rewrite Hi, Hj, !Assert_true. simpl.
    split; [done|]. by destruct (Assert _ _) as [[]|].
  - intros Hi%Nat.ltb_lt. rewrite Hi, !Assert_true. simpl.
    split; by destruct (Assert _ _) as [[]|].
  - intros Hi%Nat.ltb_lt. rewrite Hi, !Assert_true. simpl.
    by destruct (Assert _ _) as [[]|].
Qed.

(** X2.  For indices within the bounds it checks, each accessor of the
    face evaluator is the bulk getter followed by indexing, failures
    included; [get_shape_values] and [shape_value] both go through the
    table of the recorded face. *)
Lemma FEFaceValues_accessor_is_getter_then_index (this : FEFaceValues)
  (M : dFMatrix) (i j : nat) :
  f_shape_values this !! selected_face this = Some M ->
  (i < mat_m M -> j < mat_n M ->
   FEFaceValues_shape_value this i j
   = (M <~ FEFaceValues_get_shape_values this ;; mat_rd M i j) /\
   FEFaceValues_shape_grad this i j
   = (v <~ FEFaceValues_get_shape_grads this ;; rd2 v i j)) /\
  (i < f_n_quadrature_points this ->
   FEFaceValues_quadrature_point this i
   = (v <~ FEFaceValues_get_quadrature_points this ;; rd v i) /\
   FEFaceValues_JxW this i
   = (v <~ FEFaceValues_get_JxW_values this ;; rd v i)) /\
  (i < length (f_ansatz_points this) ->
   FEFaceValues_ansatz_point this i
   = (v <~ FEFaceValues_get_ansatz_points this ;; rd v i)) /\
  (i < length (f_normal_vectors this) ->
   FEFaceValues_normal_vector this i
   = (v <~ FEFaceValues_get_normal_vectors this ;; rd v i)).
Proof.
  intros HM%rd_arr_ok.
  unfold FEFaceValues_shape_value, FEFaceValues_shape_grad,
    FEFaceValues_quadrature_point, FEFaceValues_ansatz_point,
    FEFaceValues_normal_vector, FEFaceValues_JxW,
    FEFaceValues_get_shape_values, FEFaceValues_get_shape_grads,
    FEFaceValues_get_quadrature_points, FEFaceValues_get_ansatz_points,
    FEFaceValues_get_normal_vectors, FEFaceValues_get_JxW_values.
  rewrite HM. simpl.
  split; [|split; [|split]].
  - intros Hi%Nat.ltb_lt Hj%Nat.ltb_lt. rewrite Hi, Hj, !Assert_true. simpl.
    split; [done|].
    rewrite (Assert_reading_true (Ok M) (fun M => i <? mat_m M) _ M eq_refl Hi).
    rewrite (Assert_reading_true (Ok M) (fun M => j <? mat_n M) _ M eq_refl Hj).
    simpl. by destruct (Assert _ _) as [[]|].
  - intros Hi%Nat.ltb_lt. rewrite Hi, !Assert_true. simpl.
    split; by destruct (Assert _ _) as [[]|].
  - intros Hi%Nat.ltb_lt. rewrite Hi, !Assert_true. simpl.
    by destruct (Assert _ _) as [[]|].
  - intros Hi%Nat.ltb_lt. rewrite Hi, !Assert_true. simpl.
    by destruct (Assert _ _) as [[]|].
Qed.

End GettersAgree.

Lemma FEValues_accessor_is_getter_then_index_witness :
  FEValues_shape_grad Demo.fev1 1 0
  = (v <~ FEValues_get_shape_grads Demo.fev1 ;; rd2 v 1 0) /\
  FEValues_quadrature_point Demo.fev1 1
  = (v <~ FEValues_get_quadrature_points Demo.fev1 ;; rd v 1) /\
  FEValues_ansatz_point Demo.fev1 3
  = (v <~ FEValues_get_ansatz_points Demo.fev1 ;; rd v 3).
Proof.
  destruct (FEValues_accessor_is_getter_then_index Demo.fev1 1 0)
    as (H1 & _ & _).
  destruct (FEValues_accessor_is_getter_then_index Demo.fev1 1 0)
    as (_ & H2 & _).
  destruct (FEValues_accessor_is_getter_then_index Demo.fev1 3 0)
    as (_ & _ & H3).
  split; [apply H1; simpl; lia|].
  split; [apply H2; simpl; lia | apply H3; simpl; lia].
Defined.

Lemma FEFaceValues_accessor_is_getter_then_index_witness :
  FEFaceValues_shape_value Demo.ffv1 1 1
  = (M <~ FEFaceValues_get_shape_values Demo.ffv1 ;; mat_rd M 1 1) /\
  FEFaceValues_normal_vector Demo.ffv1 1
  = (v <~ FEFaceValues_get_normal_vectors Demo.ffv1 ;; rd v 1).
Proof.
  destruct (FEFaceValues_accessor_is_getter_then_index Demo.ffv1 _ 1 1 eq_refl)
    as (H1 & _ & _ & H4).
  split; [apply H1; simpl; lia | apply H4; simpl; lia].
Defined.

(** ** What [reinit] never touches *)

Section ReinitFrames.
Context `{Sc : Scalar} `{Cfg : @Config Sc}.

Lemma FEValues_reinit_shapes (this this' : FEValues) (cell : Cell)
  (fe : FiniteElement) (boundary : Boundary) :
  FEValues_reinit this cell fe boundary = Ok this' ->
  skeleton (shape_gradients this') = skeleton (shape_gradients this) /\
  length (JxW_values this') = length (JxW_values this).
Proof.
  intros (_ & Hgrad & Hjxw)%FEValues_reinit_inv.
  destruct (cell_filled_frame this cell fe boundary)
    as (_ & _ & _ & Hsg & _ & _ & HJ & _).
  rewrite <- Hsg, <- HJ. split.
  - destruct (has (update_flags this) update_gradients).
    + destruct Hgrad as [_ Hgrad].
      pose proof (transform_gradients_spec
                    (rd3 (unit_shape_gradients (cell_filled this cell fe boundary)))
                    (jacobi_matrices (cell_filled this cell fe boundary))
                    (rd3_access_error _)
                    (fe_total_dofs fe)
                    (n_quadrature_points (cell_filled this cell fe boundary))
                    (shape_gradients (cell_filled this cell fe boundary)))
        as Hspec.
      rewrite Hgrad in Hspec. by destruct Hspec.
    + by rewrite Hgrad.
  - destruct (has (update_flags this) update_JxW_values).
    + destruct Hjxw as [_ Hjxw].
      pose proof (fill_loop_spec
                    (cell_JxW_at (cell_filled this cell fe boundary))
                    (n_quadrature_points (cell_filled this cell fe boundary))
                    (JxW_values (cell_filled this cell fe boundary)))
        as Hspec.
      rewrite Hjxw in Hspec. by destruct Hspec.
    + by rewrite Hjxw.
Qed.

Lemma last_cons_default (l : list nat) (a d d' : nat) :
  List.last (a :: l) d = List.last (a :: l) d'.
Proof.
  revert a. induction l as [|b l IH]; intros a; [done|].
  change (List.last (a :: b :: l) d) with (List.last (b :: l) d).
  change (List.last (a :: b :: l) d') with (List.last (b :: l) d').
  apply IH.
Qed.

(** X3.  Whatever the cells, elements and boundaries of a sequence of
    [reinit] calls that return, the cell evaluator keeps the data of its
    constructor (sizes, flags, the tables of values and unit gradients,
    weights and unit points), and [shape_gradients] and [JxW_values] keep
    their shape: [reinit] overwrites entries and never resizes. *)
Lemma FEValues_reinit_all_keeps_reference_data
  (calls : list (Cell * FiniteElement * Boundary)) (this this' : FEValues) :
  FEValues_reinit_all this calls = Ok this' ->
  n_quadrature_points this' = n_quadrature_points this /\
  total_dofs this' = total_dofs this /\
  update_flags this' = update_flags this /\
  shape_values this' = shape_values this /\
  unit_shape_gradients this' = unit_shape_gradients this /\
  weights this' = weights this /\
  unit_quadrature_points this' = unit_quadrature_points this /\
  skeleton (shape_gradients this') = skeleton (shape_gradients this) /\
  length (JxW_values this') = length (JxW_values this).
Proof.
  revert this. induction calls as [|[[cell fe] boundary] rest IH];
    intros this; simpl.
  - intros [= <-]. repeat split; done.
  - intros (mid & Hmid & Hrest)%bind_ok.
    destruct (FEValues_reinit_shapes _ _ _ _ _ Hmid) as [Hsk Hlen].
    apply FEValues_reinit_frame in Hmid
      as (H1 & H2 & H3 & H4 & H5 & H6 & H7 & _).
    destruct (IH mid Hrest) as (I1 & I2 & I3 & I4 & I5 & I6 & I7 & I8 & I9).
    repeat split; congruence.
Qed.

(** X4.  Through any sequence of [reinit] calls that return, the face
    evaluator keeps the data of its constructor (sizes, flags, the
    per-face tables of values and unit gradients, weights, unit points
    and embedded face points), [shape_gradients] and [JxW_values] keep
    their shape, and the recorded face is that of the last call. *)
Lemma FEFaceValues_reinit_all_keeps_reference_data
  (calls : list (Cell * nat * FiniteElement * Boundary))
  (this this' : FEFaceValues) :
  FEFaceValues_reinit_all this calls = Ok this' ->
  f_n_quadrature_points this' = f_n_quadrature_points this /\
  f_total_dofs this' = f_total_dofs this /\
  f_update_flags this' = f_update_flags this /\
  f_shape_values this' = f_shape_values this /\
  f_unit_shape_gradients this' = f_unit_shape_gradients this /\
  f_weights this' = f_weights this /\
  f_unit_quadrature_points this' = f_unit_quadrature_points this /\
  f_global_unit_quadrature_points this'
  = f_global_unit_quadrature_points this /\
  skeleton (f_shape_gradients this') = skeleton (f_shape_gradients this) /\
  length (f_JxW_values this') = length (f_JxW_values this) /\
  selected_face this'
  = List.last (map (fun c => snd (fst (fst c))) calls) (selected_face this).
Proof.
  revert this. induction calls as [|[[[cell face_no] fe] boundary] rest IH];
    intros this.
  - simpl. intros [= <-]. repeat split; done.
  - simpl FEFaceValues_reinit_all.
    intros (mid & Hmid & Hrest)%bind_ok.
    pose proof (FEFaceValues_reinit_describe _ _ _ _ _ _ Hmid)
      as (_ & _ & _ & _ & Hsk & _ & _ & Hlen & _).
    apply FEFaceValues_reinit_frame in Hmid
      as (Hs & H1 & H2 & H3 & H4 & H5 & H6 & H7 & H8).
    destruct (IH mid Hrest)
      as (I1 & I2 & I3 & I4 & I5 & I6 & I7 & I8 & I9 & I10 & I11).
    repeat split; try congruence.
    rewrite I11, Hs.
    change (map _ (_ :: rest))
      with (face_no :: map (fun c : Cell * nat * FiniteElement * Boundary =>
                              snd (fst (fst c))) rest).
    generalize (map (fun c : Cell * nat * FiniteElement * Boundary =>
                       snd (fst (fst c))) rest) as l.
    destruct l as [|x l]; [done|].
    change (List.last (face_no :: x :: l) (selected_face this))
      with (List.last (x :: l) (selected_face this)).
    apply last_cons_default.
Qed.

End ReinitFrames.

Lemma FEValues_reinit_all_keeps_reference_data_witness :
  unit_shape_gradients Demo.fev1 = unit_shape_gradients Demo.fev0 /\
  weights Demo.fev1 = weights Demo.fev0 /\
  skeleton (shape_gradients Demo.fev1) = skeleton (shape_gradients Demo.fev0).
Proof.
  destruct (FEValues_reinit_all_keeps_reference_data
              [((3%Q : @Cell QScalar Demo.cfg), Demo.fe, (tt : @Boundary QScalar Demo.cfg));
               ((2%Q : @Cell QScalar Demo.cfg), Demo.fe, (tt : @Boundary QScalar Demo.cfg))] Demo.fev0 Demo.fev1)
    as (_ & _ & _ & _ & H5 & H6 & _ & H8 & _); [reflexivity|].
  split; [exact H5|]. split; [exact H6 | exact H8].
Defined.

Lemma FEFaceValues_reinit_all_keeps_reference_data_witness :
  f_shape_values Demo.ffv1 = f_shape_values Demo.ffv0 /\
  f_global_unit_quadrature_points Demo.ffv1
  = f_global_unit_quadrature_points Demo.ffv0 /\
  selected_face Demo.ffv1 = 1.
Proof.
  destruct (FEFaceValues_reinit_all_keeps_reference_data
              [((2%Q : @Cell QScalar Demo.cfg), 1, Demo.fe, (tt : @Boundary QScalar Demo.cfg));
               ((2%Q : @Cell QScalar Demo.cfg), 2, Demo.fe, (tt : @Boundary QScalar Demo.cfg));
               ((2%Q : @Cell QScalar Demo.cfg), 1, Demo.fe, (tt : @Boundary QScalar Demo.cfg))]
              Demo.ffv0 Demo.ffv1)
    as (_ & _ & _ & H4 & _ & _ & _ & H8 & _ & _ & H11); [reflexivity|].
  split; [exact H4|]. split; [exact H8 | exact H11].
Defined.

(** ** The ways [reinit] fails *)

Section ReinitFailures.
Context `{Sc : Scalar} `{Cfg : @Config Sc}.

(** X5.  [reinit] of the cell evaluator fails in three ways only: the
    assertion [ExcCannotInitializeField] (debug build, gradients or JxW
    requested without jacobians), an access past the end of a vector
    while transforming gradients or weights, and the division by a zero
    determinant in the JxW loop.  With neither gradients nor JxW requested
    it always returns. *)
Lemma FEValues_reinit_failure_modes (this : FEValues) (cell : Cell)
  (fe : FiniteElement) (boundary : Boundary) :
  (forall e,
     FEValues_reinit this cell fe boundary = Err e ->
     (has (update_flags this) update_gradients = true \/
      has (update_flags this) update_JxW_values = true) /\
     ((e = ExcCannotInitializeField /\ debug = true /\
       has (update_flags this) update_jacobians = false) \/
      e = UB_OutOfBounds \/
      (e = UB_DivisionByZero /\
       has (update_flags this) update_JxW_values = true))) /\
  (has (update_flags this) update_gradients = false ->
   has (update_flags this) update_JxW_values = false ->
   FEValues_reinit this cell fe boundary
   = Ok (cell_filled this cell fe boundary)).
Proof.
  assert (Hidle : has (update_flags this) update_gradients = false ->
                  has (update_flags this) update_JxW_values = false ->
                  FEValues_reinit this cell fe boundary
                  = Ok (cell_filled this cell fe boundary)).
  { intros Hg Hj. rewrite FEValues_reinit_unfold. cbv zeta.
    rewrite Hg. simpl. by rewrite Hj. }
  split; [|exact Hidle].
  intros e Herr. split.
  - destruct (has (update_flags this) update_gradients); [by left|].
    destruct (has (update_flags this) update_JxW_values); [by right|].
    rewrite Hidle in Herr by done. discriminate.
  - pose proof Herr as [(-> & Hd & Hj & _) | [Hacc | (-> & Hj & _)]]%FEValues_reinit_err.
    + left. done.
    + right. left. destruct Hacc as [->| ->]; [done|]. exfalso.
      revert Herr. rewrite FEValues_reinit_unfold. cbv zeta.
      intros [Hg | (g & _ & Hjx)]%bind_err.
      * destruct (has (update_flags this) update_gradients); [|done].
        apply bind_err in Hg as [Ha | ([] & _ & Hg)].
        { unfold Assert in Ha. destruct (debug && _); done. }
        apply bind_err in Hg as [Hg | (sg & _ & [=])].
        apply transform_gradients_err_source in Hg
          as [Hg | (i & j & b & Hg)]; [done|].
        by apply rd3_err in Hg.
      * destruct (has (update_flags this) update_JxW_values); [|done].
        apply bind_err in Hjx as [Ha | ([] & _ & Hjx)].
        { unfold Assert in Ha. destruct (debug && _); done. }
        apply bind_err in Hjx as [Hjx | (jxw & _ & [=])].
        refine (for_upto_err (fun e => e = UB_ArrayOutOfBounds -> False)
                  _ _ _ _ _ Hjx eq_refl).
        intros i a e' _ [H | (x & _ & H)]%bind_err ->.
        -- apply cell_JxW_at_err in H as [[H _] | [H _]]; done.
        -- apply wr_err in H. by destruct H.
    + right. right. done.
Qed.

Lemma FEFaceValues_reinit_err (this : FEFaceValues) (cell : Cell)
  (face_no : nat) (fe : FiniteElement) (boundary : Boundary) (e : exc) :
  FEFaceValues_reinit this cell face_no fe boundary = Err e ->
  (e = ExcCannotInitializeField /\ debug = true /\
   has (f_update_flags this) update_jacobians = false) \/
  e = UB_OutOfBounds \/
  e = UB_ArrayOutOfBounds.
Proof.
  rewrite FEFaceValues_reinit_unfold. cbv zeta.
  assert (HA : forall e',
    Assert (has (f_update_flags this) update_jacobians)
      ExcCannotInitializeField = Err e' ->
    e' = ExcCannotInitializeField /\ debug = true /\
    has (f_update_flags this) update_jacobians = false).
  { intros e' Ha.
    destruct (Assert_cases (has (f_update_flags this) update_jacobians)
                ExcCannotInitializeField) as [[H _]|(H & Hd & Hc)];
      [congruence|].
    rewrite H in Ha. by injection Ha as <-. }
  intros [Hf | (f & Hf & [Hg | (g & Hg & Hj)]%bind_err)]%bind_err.
  - right. right. unfold face_filled in Hf. cbv zeta in Hf. simpl in Hf.
    destruct (wants_face_fill (f_update_flags this)); [|done].
    apply bind_err in Hf as [Hf | (gq & _ & [=])].
    apply rd_arr_err in Hf. tauto.
  - destruct (has (f_update_flags this) update_gradients); [|done].
    apply bind_err in Hg as [Ha | ([] & _ & Hg)]; [left; by apply HA|].
    apply bind_err in Hg as [Hg | (sg & _ & [=])].
    apply transform_gradients_err_source in Hg as [Hg | (i & j & b & Hg)];
      [by right; left|].
    apply rd_face_usg_err in Hg as [->| ->]; auto.
  - destruct (has (f_update_flags this) update_JxW_values); [|done].
    apply bind_err in Hj as [Ha | ([] & _ & Hj)]; [left; by apply HA|].
    apply bind_err in Hj as [Hj | (jxw & _ & [=])].
    right. left.
    refine (for_upto_err (fun e => e = UB_OutOfBounds) _ _ _ _ _ Hj).
    intros i a e' _ [H | (x & _ & H)]%bind_err.
    + by apply face_JxW_at_err in H.
    + apply wr_err in H. by destruct H.
Qed.

(** X6.  [reinit] of the face evaluator fails in three ways only: the
    assertion [ExcCannotInitializeField] (debug build, jacobians not
    requested), an access past the end of a vector, and [face_no] past
    the end of a per-face array; it never divides.  As soon as the
    mapper is to be called, a face number past the end of the array of
    embedded points is fatal. *)
Lemma FEFaceValues_reinit_failure_modes (this : FEFaceValues) (cell : Cell)
  (face_no : nat) (fe : FiniteElement) (boundary : Boundary) :
  (forall e,
     FEFaceValues_reinit this cell face_no fe boundary = Err e ->
     (e = ExcCannotInitializeField /\ debug = true /\
      has (f_update_flags this) update_jacobians = false) \/
     e = UB_OutOfBounds \/
     (e = UB_ArrayOutOfBounds /\
      (length (f_global_unit_quadrature_points this) <= face_no \/
       length (f_unit_shape_gradients this) <= face_no))) /\
  (wants_face_fill (f_update_flags this) = true ->
   length (f_global_unit_quadrature_points this) <= face_no ->
   FEFaceValues_reinit this cell face_no fe boundary
   = Err UB_ArrayOutOfBounds).
Proof.
  split.
  - intros e Herr.
    pose proof Herr as [H | [H | ->]]%FEFaceValues_reinit_err; auto.
    right. right. split; [done|].
    by apply FEFaceValues_reinit_array_err in Herr.
  - intros Hw Hlen. unfold FEFaceValues_reinit. cbv zeta. simpl.
    rewrite Hw.
    assert (Hr : rd_arr (f_global_unit_quadrature_points this) face_no
                 = Err UB_ArrayOutOfBounds) by by apply rd_arr_err.
    by rewrite Hr.
Qed.

End ReinitFailures.

Lemma FEValues_reinit_failure_modes_witness :
  FEValues_reinit Demo.fev0 (0%Q : @Cell QScalar Demo.cfg) Demo.fe tt = Err UB_DivisionByZero /\
  (has (update_flags Demo.fev0) update_gradients = true \/
   has (update_flags Demo.fev0) update_JxW_values = true).
Proof.
  split; [reflexivity|].
  apply (proj1 (FEValues_reinit_failure_modes Demo.fev0 (0%Q : @Cell QScalar Demo.cfg) Demo.fe tt)
           UB_DivisionByZero).
  reflexivity.
Defined.

Lemma FEFaceValues_reinit_failure_modes_witness :
  FEFaceValues_reinit Demo.ffv0 (2%Q : @Cell QScalar Demo.cfg) 4 Demo.fe tt = Err UB_ArrayOutOfBounds.
Proof.
  apply (proj2 (FEFaceValues_reinit_failure_modes Demo.ffv0 (2%Q : @Cell QScalar Demo.cfg) 4 Demo.fe tt));
    [reflexivity | simpl; lia].
Defined.

(** ** What the constructors leave behind *)

Lemma for_upto_noop {St : Type} (body : nat -> St -> result St) (n : nat)
  (st : St) :
  (forall i a, i < n -> body i a = Ok a) -> for_upto n body st = Ok st.
Proof.
  induction n as [|n IH]; intros Hb; [done|].
  rewrite for_upto_S, IH by (intros; apply Hb; lia). simpl. apply Hb. lia.
Qed.

Section FreshEvaluators.
Context `{Sc : Scalar} `{Cfg : @Config Sc}.

Lemma FEValues_ctor_zeroed (fe : FiniteElement) (quadrature : Quadrature)
  (flags : UpdateFlags) (this : FEValues) :
  FEValues_ctor fe quadrature flags = Ok this ->
  JxW_values this = replicate (q_n_quadrature_points quadrature) szero /\
  quadrature_points this
  = replicate (q_n_quadrature_points quadrature) (Point_origin dim) /\
  jacobi_matrices this
  = replicate (q_n_quadrature_points quadrature) (dFMatrix_new dim dim).
Proof.
  unfold FEValues_ctor. cbv zeta.
  intros (tabs & _ & (wq & _ & [= <-])%bind_ok)%bind_ok. done.
Qed.

(** X7.  The constructor of the cell evaluator returns for every element,
    quadrature rule and flags.  The object holds the weights and points
    of the rule and the reference gradients of the element at those
    points, and its per-cell arrays are sized and zero: one [dim] by
    [dim] Jacobian and one weight per quadrature point, one gradient per
    shape function and point. *)
Lemma FEValues_ctor_tabulates_reference_data (fe : FiniteElement)
  (quadrature : Quadrature) (flags : UpdateFlags) :
  let nq := q_n_quadrature_points quadrature in
  let td := fe_total_dofs fe in
  exists this,
    FEValues_ctor fe quadrature flags = Ok this /\
    (forall i j, i < td -> j < nq ->
       rd2 (unit_shape_gradients this) i j
       = Ok (fe_shape_grad fe i (quad_point quadrature j))) /\
    (forall j, j < nq ->
       rd (weights this) j = Ok (weight quadrature j) /\
       rd (unit_quadrature_points this) j = Ok (quad_point quadrature j)) /\
    jacobi_matrices this = replicate nq (dFMatrix_new dim dim) /\
    JxW_values this = replicate nq szero /\
    shape_gradients this = replicate td (replicate nq (Point_origin dim)) /\
    quadrature_points this = replicate nq (Point_origin dim) /\
    ansatz_points this = replicate td (Point_origin dim).
Proof.
  cbv zeta.
  destruct (FEValues_ctor_spec fe quadrature flags)
    as (this & Hc & _ & _ & _ & _ & _ & Htab & Hrows & Hsg & Hap).
  destruct (FEValues_ctor_zeroed _ _ _ _ Hc) as (Hj & Hq & HJ).
  exists this. split; [done|]. split; [intros; by apply Htab|].
  split; [|done].
  intros j Hj'. destruct (Hrows j Hj') as (Hw & Hu & _).
  split; by apply rd_ok.
Qed.

(** X8.  Nothing records whether [reinit] has run.  On an evaluator
    straight from the constructor, every accessor whose tag is among the
    flags answers for indices in range, with the zero or the origin the
    constructor stored. *)
Lemma FEValues_fresh_accessors_read_zero (fe : FiniteElement)
  (quadrature : Quadrature) (flags : UpdateFlags) (this : FEValues) :
  let nq := q_n_quadrature_points quadrature in
  let td := fe_total_dofs fe in
  FEValues_ctor fe quadrature flags = Ok this ->
  (forall i j, i < td -> j < nq -> has flags update_gradients = true ->
     FEValues_shape_grad this i j = Ok (Point_origin dim)) /\
  (forall j, j < nq -> has flags update_JxW_values = true ->
     FEValues_JxW this j = Ok szero) /\
  (forall j, j < nq -> has flags update_q_points = true ->
     FEValues_quadrature_point this j = Ok (Point_origin dim)) /\
  (forall i, i < td -> has flags update_ansatz_points = true ->
     FEValues_ansatz_point this i = Ok (Point_origin dim)).
Proof.
  cbv zeta. intros Hc.
  destruct (FEValues_ctor_spec fe quadrature flags)
    as (this' & Hc' & Hnq & Htd & Hfl & Hm & Hn & _ & _ & Hsg & Hap).
  assert (this' = this) as -> by congruence.
  destruct (FEValues_ctor_zeroed _ _ _ _ Hc) as (Hj & Hq & _).
  repeat match goal with |- _ /\ _ => split end.
  - intros i j Hi Hj' Hg. unfold FEValues_shape_grad.
    rewrite Hm, Hn, Hfl, Hg, Hsg.
    apply Nat.ltb_lt in Hi as Hi', Hj' as Hj''. rewrite Hi', Hj''.
    rewrite !Assert_true. simpl. by apply rd2_replicate.
  - intros j Hj' Hg. unfold FEValues_JxW.
    rewrite Hnq, Hfl, Hg, Hj.
    apply Nat.ltb_lt in Hj' as Hj''. rewrite Hj''.
    rewrite !Assert_true. simpl. apply rd_ok. by apply lookup_replicate_2.
  - intros j Hj' Hg. unfold FEValues_quadrature_point.
    rewrite Hnq, Hfl, Hg, Hq.
    apply Nat.ltb_lt in Hj' as Hj''. rewrite Hj''.
    rewrite !Assert_true. simpl. apply rd_ok. by apply lookup_replicate_2.
  - intros i Hi Hg. unfold FEValues_ansatz_point.
    rewrite Hfl, Hg, Hap, length_replicate.
    apply Nat.ltb_lt in Hi as Hi'. rewrite Hi'.
    rewrite !Assert_true. simpl. apply rd_ok. by apply lookup_replicate_2.
Qed.

End FreshEvaluators.

Lemma FEValues_fresh_accessors_read_zero_witness :
  FEValues_ctor Demo.fe Demo.quadrature Demo.flags_all = Ok Demo.fev0 /\
  FEValues_JxW Demo.fev0 1 = Ok 0%Q.
Proof.
  split; [reflexivity|].
  apply (proj1 (proj2 (FEValues_fresh_accessors_read_zero
                         Demo.fe Demo.quadrature Demo.flags_all Demo.fev0
                         eq_refl)));
    [simpl; lia | reflexivity].
Defined.

Section FreshFaceEvaluators2D.
Context `{Sc : Scalar} `{Cfg : @Config Sc}.
Hypothesis dim_is_2 : dim = 2.

(** X9.  In two dimensions the constructor of the face evaluator returns
    for every element, rule and flags.  It selects face 0; the tables of
    each of the four faces hold the values and gradients of the element
    at the embedded points stored for that face; all points of one face
    are the same point, the image of coordinate zero; and [shape_value]
    on the new object reads the table of face 0. *)
Lemma FEFaceValues_ctor_tables_follow_embedded_points (fe : FiniteElement)
  (quadrature : Quadrature) (flags : UpdateFlags) :
  let nq := q_n_quadrature_points quadrature in
  let td := fe_total_dofs fe in
  exists this,
    FEFaceValues_ctor fe quadrature flags = Ok this /\
    selected_face this = 0 /\
    (forall face i j, face < 4 -> i < td -> j < nq ->
       exists gp M t,
         (row <~ rd_arr (f_global_unit_quadrature_points this) face ;;
          rd row j) = Ok gp /\
         gp = embed_face face szero /\
         f_shape_values this !! face = Some M /\
         f_unit_shape_gradients this !! face = Some t /\
         mat_rd M i j = Ok (fe_shape_value fe i gp) /\
         rd2 t i j = Ok (fe_shape_grad fe i gp)) /\
    (forall i j, i < td -> j < nq ->
       FEFaceValues_shape_value this i j
       = Ok (fe_shape_value fe i (embed_face 0 szero))) /\
    (forall j, j < nq ->
       rd (f_weights this) j = Ok (weight quadrature j) /\
       rd (f_unit_quadrature_points this) j = Ok (quad_point quadrature j)).
Proof.
  cbv zeta.
  destruct (FEFaceValues_ctor_spec_2d dim_is_2 fe quadrature flags)
    as (this & Hc & Hgq & Htab & Hcopy).
  cbv zeta in *.
  destruct (FEFaceValues_ctor_inv _ _ _ _ Hc) as (Hsel & _).
  exists this. split; [done|]. split; [done|].
  repeat match goal with |- _ /\ _ => split end.
  - intros face i j Hface Hi Hj.
    destruct (Htab face Hface) as (M & t & HM & Ht & _ & _ & Hval).
    exists (embed_face face szero), M, t.
    destruct (Hval i j Hi Hj) as [Hv Hg].
    repeat match goal with |- _ /\ _ => split end; try done.
    assert (Hrow : rd_arr (f_global_unit_quadrature_points this) face
                   = Ok (replicate (q_n_quadrature_points quadrature)
                           (embed_face face szero))).
    { apply rd_arr_ok. rewrite Hgq.
      destruct face as [|[|[|[|face]]]]; [done..|lia]. }
    rewrite Hrow. simpl. apply rd_ok. by apply lookup_replicate_2.
  - intros i j Hi Hj.
    destruct (Htab 0 ltac:(lia)) as (M & t & HM & _ & Hm & Hn & Hval).
    unfold FEFaceValues_shape_value. rewrite Hsel.
    apply rd_arr_ok in HM. rewrite HM. simpl. rewrite Hm, Hn.
    apply Nat.ltb_lt in Hi as Hi', Hj as Hj'. rewrite Hi', Hj'.
    rewrite !Assert_true. simpl. by apply Hval.
  - intros j Hj. destruct (Hcopy j Hj) as [Hu Hw].
    split; by apply rd_ok.
Qed.

End FreshFaceEvaluators2D.

Lemma FEFaceValues_ctor_tables_follow_embedded_points_witness :
  exists this,
    FEFaceValues_ctor Demo.fe Demo.face_quadrature Demo.flags_all = Ok this /\
    selected_face this = 0.
Proof.
  destruct (FEFaceValues_ctor_tables_follow_embedded_points
              (eq_refl : @dim QScalar Demo.cfg = 2)
              Demo.fe Demo.face_quadrature Demo.flags_all)
    as (this & Hc & Hsel & _).
  exists this. split; [exact Hc | exact Hsel].
Defined.

Section FreshFaceEvaluatorsOtherDimensions.
Context `{Sc : Scalar} `{Cfg : @Config Sc}.

(** The tabulation of all faces when every face holds [nq] copies of one
    point. *)
Lemma tabulate_faces_at_point (fe : FiniteElement) (td nq n : nat)
  (pt : Point) :
  let N := dFMatrix_new td nq in
  let T := replicate td (replicate nq (Point_origin dim)) in
  let guqp := replicate n (replicate nq pt) in
  exists svs usgs,
    for_upto n (fun face =>
      for_upto td (fun i =>
        for_upto nq (fun j '(svs, usgs) =>
          gp <~ (row <~ rd_arr guqp face ;; rd row j) ;;
          M <~ rd_arr svs face ;;
          M' <~ mat_wr M i j (fe_shape_value fe i gp) ;;
          svs' <~ wr_arr svs face M' ;;
          gp' <~ (row <~ rd_arr guqp face ;; rd row j) ;;
          t <~ rd_arr usgs face ;;
          t' <~ wr2 t i j (fe_shape_grad fe i gp') ;;
          usgs' <~ wr_arr usgs face t' ;;
          Ok (svs', usgs')))) (replicate n N, replicate n T)
    = Ok (svs, usgs) /\
    forall face, face < n ->
      exists M t,
        svs !! face = Some M /\ usgs !! face = Some t /\
        forall i j, i < td -> j < nq ->
          mat_rd M i j = Ok (fe_shape_value fe i pt) /\
          rd2 t i j = Ok (fe_shape_grad fe i pt).
Proof.
  cbv zeta.
  set (N := dFMatrix_new td nq).
  set (T := replicate td (replicate nq (Point_origin dim))).
  set (guqp := replicate n (replicate nq pt)).
  assert (Hrange : forall i j, i < td -> j < nq ->
            is_ok (mat_rd N i j) = true /\ is_ok (rd2 T i j) = true).
  { intros i j Hi Hj. unfold N, T. rewrite mat_rd_new, rd2_replicate by done.
    done. }
  set (P := fun (k : nat) (st : list dFMatrix * list (list (list Point))) =>
    (forall face, k <= face < n ->
       fst st !! face = Some N /\ snd st !! face = Some T) /\
    (forall face, face < k ->
       exists M t,
         fst st !! face = Some M /\ snd st !! face = Some t /\
         forall i j, i < td -> j < nq ->
           mat_rd M i j = Ok (fe_shape_value fe i pt) /\
           rd2 t i j = Ok (fe_shape_grad fe i pt))).
  match goal with |- exists svs usgs, for_upto ?m ?body ?init = _ /\ _ =>
    apply (for_upto_elim P (fun _ => False) body m init
             (fun x => exists svs usgs, x = Ok (svs, usgs) /\
                forall face, face < n ->
                  exists M t,
                    svs !! face = Some M /\ usgs !! face = Some t /\
                    forall i j, i < td -> j < nq ->
                      mat_rd M i j = Ok (fe_shape_value fe i pt) /\
                      rd2 t i j = Ok (fe_shape_grad fe i pt)))
  end.
  - split; [|intros face Hf; lia].
    intros face Hf. simpl. split; apply lookup_replicate_2; lia.
  - intros face [svs usgs] Hface [Hrest Hdone]. simpl in Hrest, Hdone.
    destruct (Hrest face ltac:(lia)) as [HN HT].
    destruct (tabulate_face_loop fe td nq face pt guqp svs usgs N T
                ltac:(apply lookup_replicate_2; lia) HN HT Hrange)
      as (M & t & Heq & _ & _ & Hval).
    rewrite Heq. split; simpl.
    + intros f' Hf'. rewrite !list_lookup_insert_ne by lia.
      apply Hrest. lia.
    + intros f' Hf'. destruct (decide (f' = face)) as [->|Hne].
      * exists M, t.
        rewrite !list_lookup_insert_eq by by eapply lookup_lt_Some.
        done.
      * rewrite !list_lookup_insert_ne by done. apply Hdone. lia.
  - intros [svs usgs] [_ Hdone]. exists svs, usgs. split; [done|].
    exact Hdone.
  - intros e [].
Qed.

(** X10.  In a dimension other than two.  In a debug build, as soon as
    there is a face and the rule has a point, the constructor of the
    face evaluator stops at [ExcNotImplemented].  In a release build, or
    with an empty rule, or in dimension zero, it returns: every embedded
    point is left at the origin and the tables of all [2*dim] faces are
    tabulated there. *)
Lemma FEFaceValues_ctor_outside_2d (fe : FiniteElement)
  (quadrature : Quadrature) (flags : UpdateFlags) :
  let nq := q_n_quadrature_points quadrature in
  let td := fe_total_dofs fe in
  dim <> 2 ->
  (debug = true -> 0 < dim -> 0 < nq ->
   FEFaceValues_ctor fe quadrature flags = Err ExcNotImplemented) /\
  (debug = false \/ nq = 0 \/ dim = 0 ->
   exists this,
     FEFaceValues_ctor fe quadrature flags = Ok this /\
     f_global_unit_quadrature_points this
     = replicate (2 * dim) (replicate nq (Point_origin dim)) /\
     forall face i j, face < 2 * dim -> i < td -> j < nq ->
       exists M t,
         f_shape_values this !! face = Some M /\
         f_unit_shape_gradients this !! face = Some t /\
         mat_rd M i j = Ok (fe_shape_value fe i (Point_origin dim)) /\
         rd2 t i j = Ok (fe_shape_grad fe i (Point_origin dim))).
Proof.
  cbv zeta. intros Hdim. split.
  - intros Hd Hpos Hnq. by apply FEFaceValues_ctor_not_implemented.
  - intros Hcase. unfold FEFaceValues_ctor. cbv zeta.
    set (nq := q_n_quadrature_points quadrature) in *.
    set (td := fe_total_dofs fe).
    rewrite (size_face_arrays_spec td nq (2 * dim))
      by by rewrite length_replicate.
    cbn [bind fst snd].
    (* the embedding loop changes nothing *)
    rewrite for_upto_noop; cycle 1.
    { intros face g Hface.
      destruct Hcase as [Hd | [H0 | H0]]; [|by rewrite H0|lia].
      apply for_upto_noop. intros p g' _.
      unfold embed_face_point.
      assert (Hne : (dim =? 2) = false) by by apply Nat.eqb_neq.
      rewrite Hne. unfold Assert. by rewrite Hd. }
    cbn [bind].
    destruct (copy_quadrature_spec quadrature nq (replicate nq szero)
                (replicate nq (Point_origin (dim - 1))))
      as (w & uqp & -> & _); [by rewrite length_replicate..|].
    cbn [bind fst snd].
    destruct (tabulate_faces_at_point fe td nq (2 * dim) (Point_origin dim))
      as (svs & usgs & -> & Hval).
    cbn [bind fst snd].
    eexists. split; [reflexivity|].
    cbn [f_global_unit_quadrature_points f_shape_values
         f_unit_shape_gradients].
    split; [done|].
    intros face i j Hface Hi Hj.
    destruct (Hval face Hface) as (M & t & HM & Ht & Hv).
    exists M, t. destruct (Hv i j Hi Hj). done.
Qed.

End FreshFaceEvaluatorsOtherDimensions.

Lemma FEFaceValues_ctor_outside_2d_witness :
  @FEFaceValues_ctor QScalar (Demo3.cfg true) (Demo3.fe true)
    Demo3.face_quadrature 0%N = Err ExcNotImplemented /\
  is_ok (@FEFaceValues_ctor QScalar (Demo3.cfg false) (Demo3.fe false)
           Demo3.face_quadrature 0%N) = true.
Proof.
  split.
  - apply (proj1 (@FEFaceValues_ctor_outside_2d QScalar (Demo3.cfg true)
                    (Demo3.fe true) Demo3.face_quadrature 0%N
                    ltac:(discriminate)));
      [reflexivity | simpl; lia | simpl; lia].
  - destruct (proj2 (@FEFaceValues_ctor_outside_2d QScalar (Demo3.cfg false)
                       (Demo3.fe false) Demo3.face_quadrature 0%N
                       ltac:(discriminate)) (or_introl eq_refl))
      as (this & Hc & _).
    rewrite Hc. reflexivity.
Defined.

(** ** Flags that ask for nothing the mapper is called for *)

Section IdleReinit.
Context `{Sc : Scalar} `{Cfg : @Config Sc}.

Lemma set_selected_face_twice (this : FEFaceValues) (a b : nat) :
  set_selected_face (set_selected_face this a) b = set_selected_face this b.
Proof. reflexivity. Qed.

Lemma set_selected_face_same (this : FEFaceValues) :
  set_selected_face this (selected_face this) = this.
Proof. by destruct this. Qed.

(** X11.  [reinit] of the face evaluator calls the mapper only for
    Jacobians, quadrature points, ansatz points or JxW values.  With none
    of these and no gradients among the flags, a sequence of [reinit]
    calls never fails, whatever the face numbers, and changes nothing but
    the recorded face: normal vectors requested alone are never computed,
    and [normal_vector] keeps answering with what was stored before. *)
Lemma FEFaceValues_reinit_all_idle (this : FEFaceValues)
  (calls : list (Cell * nat * FiniteElement * Boundary)) :
  wants_face_fill (f_update_flags this) = false ->
  has (f_update_flags this) update_gradients = false ->
  exists this',
    FEFaceValues_reinit_all this calls = Ok this' /\
    this' = set_selected_face this
              (List.last (map (fun c => snd (fst (fst c))) calls)
                 (selected_face this)) /\
    forall i,
      FEFaceValues_normal_vector this' i = FEFaceValues_normal_vector this i.
Proof.
  intros Hw Hg.
  assert (H : FEFaceValues_reinit_all this calls
              = Ok (set_selected_face this
                      (List.last (map (fun c => snd (fst (fst c))) calls)
                         (selected_face this)))).
  { revert this Hw Hg.
    induction calls as [|[[[cell face_no] fe] boundary] rest IH];
      intros this Hw Hg.
    - simpl. by rewrite set_selected_face_same.
    - cbn [FEFaceValues_reinit_all].
      rewrite FEFaceValues_reinit_idle by done. cbn [bind].
      rewrite IH by done. rewrite set_selected_face_twice.
      do 2 f_equal. cbn [map fst snd].
      change (selected_face (set_selected_face this face_no)) with face_no.
      destruct rest as [|c rest]; [done|].
      cbn [map].
      rewrite (last_cons_default _ _ face_no (selected_face this)).
      reflexivity. }
  eexists. split; [exact H|]. split; [done|]. done.
Qed.

End IdleReinit.

Lemma FEFaceValues_reinit_all_idle_witness :
  exists this',
    FEFaceValues_reinit_all Demo.ffv_normals
      [((2%Q : @Cell QScalar Demo.cfg), 7, Demo.fe,
        (tt : @Boundary QScalar Demo.cfg))] = Ok this' /\
    FEFaceValues_normal_vector this' 0 = Ok [0%Q; 0%Q].
Proof.
  destruct (FEFaceValues_reinit_all_idle Demo.ffv_normals
              [((2%Q : @Cell QScalar Demo.cfg), 7, Demo.fe,
                (tt : @Boundary QScalar Demo.cfg))])
    as (this' & Hr & _ & Hn); [reflexivity..|].
  exists this'. split; [exact Hr|].
  rewrite Hn. reflexivity.
Defined.

(** ** A constructed evaluator through a sequence of [reinit] calls *)

Section CellLifecycle.
Context `{Sc : Scalar} `{Cfg : @Config Sc}.

Lemma FEValues_ctor_ready (fe : FiniteElement) (quadrature : Quadrature)
  (flags : UpdateFlags) :
  gradients_have_dim fe ->
  exists this,
    FEValues_ctor fe quadrature flags = Ok this /\
    cell_ready (fe_total_dofs fe) (q_n_quadrature_points quadrature) flags this.
Proof.
  intros Hwf. unfold FEValues_ctor. cbv zeta.
  set (nq := q_n_quadrature_points quadrature).
  set (td := fe_total_dofs fe).
  destruct (tabulate_spec fe quadrature td nq (dFMatrix_new td nq)
              (replicate td (replicate nq (Point_origin dim))))
    as (sv & usg & -> & Hm & Hn & _ & Htab).
  { intros i j Hi Hj. rewrite mat_rd_new, rd2_replicate by done. done. }
  simpl.
  destruct (copy_quadrature_spec quadrature nq (replicate nq szero)
              (replicate nq (Point_origin dim)))
    as (w & uqp & -> & Hlw & Hlu & _ & _); [by rewrite length_replicate..|].
  simpl. eexists. split; [reflexivity|]. unfold cell_ready. simpl.
  rewrite !length_replicate.
  repeat match goal with |- _ /\ _ => split end; try done.
  intros i j s Hi Hj Hs. split.
  - apply is_ok_true. exists szero.
    apply (rd3_replicate td nq dim i j s szero Hi Hj Hs).
  - destruct (Htab i j Hi Hj) as [_ (row & Hrow & Hp)%rd2_ok].
    assert (Hlen : s < length (fe_shape_grad fe i (quad_point quadrature j)))
      by by rewrite Hwf.
    destruct (lookup_lt_is_Some_2 _ _ Hlen) as [x Hx].
    apply is_ok_true. exists x. apply rd3_ok. eauto.
Qed.

Lemma FEValues_reinit_ready (td nq : nat) (flags : UpdateFlags)
  (this : FEValues) (cell : Cell) (fe : FiniteElement) (boundary : Boundary) :
  cell_ready td nq flags this ->
  (has flags update_gradients = true \/ has flags update_JxW_values = true ->
   has flags update_jacobians = true) ->
  fe_total_dofs fe <= td ->
  cell_mapper_regular fe cell nq ->
  exists this',
    FEValues_reinit this cell fe boundary = Ok this' /\
    cell_ready td nq flags this'.
Proof.
  intros (Hnq & Hfl & Hlu & Hlw & Hlj & HlJ & Hrd) Hsat Htd Hreg.
  set (f := cell_filled this cell fe boundary).
  assert (HJf : has flags update_jacobians = true ->
            length (jacobi_matrices f) = nq /\
            forall (j : nat) J, jacobi_matrices f !! j = Some J ->
              s_is_zero (determinant J) = false /\
              forall b s, b < dim -> s < dim -> is_ok (mat_rd J b s) = true).
  { intros Hj. unfold f, cell_filled. cbv zeta. rewrite Hfl.
    unfold wants_cell_fill. rewrite Hj. simpl.
    apply Hreg; [done | by apply HlJ]. }
  assert (Hret : exists this', FEValues_reinit this cell fe boundary = Ok this').
  { apply FEValues_reinit_returns; cbv zeta; fold f; rewrite ?Hfl, ?Hnq.
    - intros _. exact Hsat.
    - intros Hg i j s Hi Hj Hs.
      destruct (HJf (Hsat (or_introl Hg))) as [Hlen HJ].
      split; [apply Hrd; [lia|done..]|].
      intros b Hb. split; [apply Hrd; [lia|done..]|].
      assert (Hj' : j < length (jacobi_matrices f)) by by rewrite Hlen.
      destruct (lookup_lt_is_Some_2 _ _ Hj') as [J HJj].
      unfold rd_jac. apply rd_ok in HJj as Hr. rewrite Hr. simpl.
      by apply (HJ j J HJj).
    - intros Hg j Hj.
      destruct (HJf (Hsat (or_intror Hg))) as [Hlen HJ].
      split; [by rewrite Hlj|].
      assert (Hj' : j < length (jacobi_matrices f)) by by rewrite Hlen.
      destruct (lookup_lt_is_Some_2 _ _ Hj') as [J HJj].
      assert (Hj'' : j < length (weights this)) by by rewrite Hlw.
      destruct (lookup_lt_is_Some_2 _ _ Hj'') as [w Hw].
      exists w, J. split; [done|]. split; [done|].
      by apply (HJ j J HJj). }
  destruct Hret as [this' Hok]. exists this'. split; [done|].
  destruct (FEValues_reinit_frame _ _ _ _ _ Hok)
    as (F1 & _ & _ & F4 & F5 & F6 & F7 & F8 & _).
  destruct (FEValues_reinit_shapes _ _ _ _ _ Hok) as [Hsk HlenJ].
  unfold cell_ready. rewrite F1, F7, F6, F5, F4, F8, HlenJ.
  repeat match goal with |- _ /\ _ => split end; try done.
  - intros Hj. by apply HJf.
  - intros i j s Hi Hj Hs.
    rewrite (rd3_is_ok_same_skeleton _ _ i j s Hsk). by apply Hrd.
Qed.

(** X12.  A cell evaluator as its constructor leaves it goes through any
    sequence of [reinit] calls without failing, given that the gradients
    of the constructor's element have [dim] coordinates, that gradients
    or JxW values are requested only together with Jacobians, and that
    at every call the element has no more shape functions than the one
    the evaluator was constructed for and its mapper delivers one
    regular [dim] by [dim] Jacobian per quadrature point. *)
Lemma FEValues_lifecycle_returns (fe0 : FiniteElement)
  (quadrature : Quadrature) (flags : UpdateFlags)
  (calls : list (Cell * FiniteElement * Boundary)) :
  gradients_have_dim fe0 ->
  (has flags update_gradients = true \/ has flags update_JxW_values = true ->
   has flags update_jacobians = true) ->
  Forall (fun c : Cell * FiniteElement * Boundary =>
            fe_total_dofs (snd (fst c)) <= fe_total_dofs fe0 /\
            cell_mapper_regular (snd (fst c)) (fst (fst c))
              (q_n_quadrature_points quadrature)) calls ->
  exists this0 this',
    FEValues_ctor fe0 quadrature flags = Ok this0 /\
    FEValues_reinit_all this0 calls = Ok this' /\
    cell_ready (fe_total_dofs fe0) (q_n_quadrature_points quadrature)
      flags this'.
Proof.
  intros Hwf Hsat Hcalls.
  destruct (FEValues_ctor_ready fe0 quadrature flags Hwf) as (this0 & Hc & Hr).
  exists this0.
  assert (H : exists this',
            FEValues_reinit_all this0 calls = Ok this' /\
            cell_ready (fe_total_dofs fe0) (q_n_quadrature_points quadrature)
              flags this').
  { clear Hc. revert this0 Hr.
    induction Hcalls as [|[[cell fe] boundary] rest [Htd Hreg] _ IH];
      intros this0 Hr.
    - exists this0. done.
    - simpl in Htd, Hreg.
      destruct (FEValues_reinit_ready _ _ _ this0 cell fe boundary
                  Hr Hsat Htd Hreg) as (this1 & Hok & Hr1).
      cbn [FEValues_reinit_all]. rewrite Hok. cbn [bind]. by apply IH. }
  destruct H as (this' & H1 & H2). exists this'. done.
Qed.

End CellLifecycle.

Lemma demo_cell_mapper_is_regular :
  cell_mapper_regular Demo.fe (2%Q : @Cell QScalar Demo.cfg) 2 /\
  cell_mapper_regular Demo.fe (3%Q : @Cell QScalar Demo.cfg) 2.
Proof.
  split; intros uqp jac ap ba qp bq boundary Hu _;
    destruct uqp as [|p0 [|p1 [|p2 uqp]]]; try discriminate Hu;
    (split; [reflexivity|]);
    intros [|[|j]] J [= <-];
    (split; [reflexivity|]);
    intros [|[|b]] [|[|s]] Hb Hs; simpl in Hb, Hs; try lia; reflexivity.
Qed.

Lemma demo_gradients_have_dim : gradients_have_dim Demo.fe.
Proof.
  intros i p. simpl. unfold Demo.q1_grad.
  destruct p as [|x [|y [|z p]]]; try reflexivity.
  destruct i as [|[|[|i]]]; reflexivity.
Qed.

Lemma FEValues_lifecycle_returns_witness :
  exists this0 this',
    FEValues_ctor Demo.fe Demo.quadrature Demo.flags_all = Ok this0 /\
    FEValues_reinit_all this0
      [((2%Q : @Cell QScalar Demo.cfg), Demo.fe,
        (tt : @Boundary QScalar Demo.cfg));
       ((3%Q : @Cell QScalar Demo.cfg), Demo.fe,
        (tt : @Boundary QScalar Demo.cfg))] = Ok this'.
Proof.
  assert (Hcalls :
    Forall (fun c : @Cell QScalar Demo.cfg * FiniteElement
                    * @Boundary QScalar Demo.cfg =>
              fe_total_dofs (snd (fst c)) <= fe_total_dofs Demo.fe /\
              cell_mapper_regular (snd (fst c)) (fst (fst c))
                (q_n_quadrature_points Demo.quadrature))
      [((2%Q : @Cell QScalar Demo.cfg), Demo.fe,
        (tt : @Boundary QScalar Demo.cfg));
       ((3%Q : @Cell QScalar Demo.cfg), Demo.fe,
        (tt : @Boundary QScalar Demo.cfg))]).
  { apply List.Forall_cons;
      [split; [simpl; lia | exact (proj1 demo_cell_mapper_is_regular)]|].
    apply List.Forall_cons;
      [split; [simpl; lia | exact (proj2 demo_cell_mapper_is_regular)]|].
    apply List.Forall_nil. }
  destruct (FEValues_lifecycle_returns Demo.fe Demo.quadrature Demo.flags_all
              _ demo_gradients_have_dim (fun _ => eq_refl) Hcalls)
    as (this0 & this' & Hc & Hr & _).
  exists this0, this'. split; [exact Hc | exact Hr].
Defined.

Section FaceLifecycle.
Context `{Sc : Scalar} `{Cfg : @Config Sc}.

Lemma FEFaceValues_ctor_zeroed (fe : FiniteElement) (quadrature : Quadrature)
  (flags : UpdateFlags) (this : FEFaceValues) :
  let nq := q_n_quadrature_points quadrature in
  FEFaceValues_ctor fe quadrature flags = Ok this ->
  length (f_weights this) = nq /\
  f_JxW_values this = replicate nq szero /\
  f_jacobi_matrices this = replicate nq (dFMatrix_new dim dim) /\
  f_face_jacobi_determinants this = replicate nq szero /\
  f_shape_gradients this
  = replicate (fe_total_dofs fe) (replicate nq (Point_origin dim)) /\
  f_normal_vectors this = replicate nq (Point_origin dim) /\
  f_quadrature_points this = replicate nq (Point_origin dim) /\
  f_ansatz_points this = replicate (fe_total_dofs fe) (Point_origin dim).
Proof.
  cbv zeta. unfold FEFaceValues_ctor. cbv zeta.
  intros (arrs & _ & (guqp & _ & (wq & Hwq & (tabs & _ & [= <-])%bind_ok)%bind_ok)%bind_ok)%bind_ok.
  simpl. split; [|done].
  destruct (copy_quadrature_spec quadrature (q_n_quadrature_points quadrature)
              (replicate (q_n_quadrature_points quadrature) szero)
              (replicate (q_n_quadrature_points quadrature)
                 (Point_origin (dim - 1))))
    as (w & uqp & Heq & Hlw & _); [by rewrite length_replicate..|].
  rewrite Heq in Hwq. by injection Hwq as <-.
Qed.

Lemma FEFaceValues_reinit_ready (td nq : nat) (flags : UpdateFlags)
  (this : FEFaceValues) (cell : Cell) (face_no : nat) (fe : FiniteElement)
  (boundary : Boundary) :
  face_ready td nq flags this ->
  (has flags update_gradients = true \/ has flags update_JxW_values = true ->
   has flags update_jacobians = true) ->
  face_no < 2 * dim ->
  fe_total_dofs fe <= td ->
  face_mapper_regular fe cell face_no nq ->
  exists this',
    FEFaceValues_reinit this cell face_no fe boundary = Ok this' /\
    face_ready td nq flags this'.
Proof.
  intros (Hnq & Hfl & Hlg & Hrows & Hlw & Hlj & HlJ & Hrd) Hsat Hface Htd Hreg.
  destruct (rd_arr_in_range (f_global_unit_quadrature_points this) face_no)
    as (gq & Hgq & Hgq'); [lia|].
  assert (Hf : exists f, face_filled this cell face_no fe boundary = Ok f).
  { unfold face_filled. cbv zeta. simpl. rewrite Hgq. simpl.
    destruct (wants_face_fill (f_update_flags this)); eauto. }
  destruct Hf as [f Hf].
  assert (HJf : has flags update_jacobians = true ->
            length (f_jacobi_matrices f) = nq /\
            length (f_face_jacobi_determinants f) = nq /\
            forall (j : nat) J, f_jacobi_matrices f !! j = Some J ->
              forall b s, b < dim -> s < dim -> is_ok (mat_rd J b s) = true).
  { intros Hj. revert Hf. unfold face_filled. cbv zeta. simpl.
    rewrite Hgq, Hfl. unfold wants_face_fill. rewrite Hj. simpl.
    intros [= <-]. simpl.
    destruct (HlJ Hj) as [H1 H2].
    apply Hreg; [by eapply Hrows | done | done]. }
  assert (Hret : exists this',
            FEFaceValues_reinit this cell face_no fe boundary = Ok this').
  { apply (FEFaceValues_reinit_returns this f); cbv zeta;
      rewrite ?Hfl, ?Hnq; [done | | |].
    - intros _. exact Hsat.
    - intros Hg i j s Hi Hj Hs.
      destruct (HJf (Hsat (or_introl Hg))) as (Hlen & _ & HJ).
      split; [apply (Hrd face_no); [done|lia|done..]|].
      intros b Hb. split; [apply (Hrd face_no); [done|lia|done..]|].
      assert (Hj' : j < length (f_jacobi_matrices f)) by by rewrite Hlen.
      destruct (lookup_lt_is_Some_2 _ _ Hj') as [J HJj].
      unfold rd_jac. apply rd_ok in HJj as Hr. rewrite Hr. simpl.
      by apply (HJ j J HJj).
    - intros Hg j Hj.
      destruct (HJf (Hsat (or_intror Hg))) as (_ & Hlen & _).
      rewrite Hlj, Hlw, Hlen. done. }
  destruct Hret as [this' Hok]. exists this'. split; [done|].
  pose proof (FEFaceValues_reinit_describe _ _ _ _ _ _ Hok)
    as (f' & Hf' & Heq & _ & Hsk & _ & _ & Hlen & _).
  assert (f' = f) as -> by congruence.
  destruct (FEFaceValues_reinit_frame _ _ _ _ _ _ Hok)
    as (_ & F1 & _ & _ & F4 & F5 & _ & F7 & F8).
  unfold face_ready. rewrite F1, F8, F7, F5, F4, Hlen.
  repeat match goal with |- _ /\ _ => split end; try done.
  - intros Hj. rewrite Heq. simpl. destruct (HJf Hj) as (H1 & H2 & _). done.
  - intros face i j s Hf0 Hi Hj Hs.
    rewrite (rd3_is_ok_same_skeleton _ _ i j s Hsk). by apply Hrd.
Qed.

End FaceLifecycle.

Section FaceLifecycle2D.
Context `{Sc : Scalar} `{Cfg : @Config Sc}.
Hypothesis dim_is_2 : dim = 2.

Lemma FEFaceValues_ctor_ready (fe : FiniteElement) (quadrature : Quadrature)
  (flags : UpdateFlags) :
  gradients_have_dim fe ->
  exists this,
    FEFaceValues_ctor fe quadrature flags = Ok this /\
    face_ready (fe_total_dofs fe) (q_n_quadrature_points quadrature) flags this.
Proof.
  intros Hwf.
  destruct (FEFaceValues_ctor_spec_2d dim_is_2 fe quadrature flags)
    as (this & Hc & Hgq & Htab & _).
  cbv zeta in *.
  destruct (FEFaceValues_ctor_inv _ _ _ _ Hc)
    as (_ & Hfl & Hnq & _ & _ & _ & Hlg).
  destruct (FEFaceValues_ctor_zeroed _ _ _ _ Hc)
    as (Hlw & Hj & HJ & Hd & Hsg & _).
  exists this. split; [done|]. unfold face_ready.
  rewrite Hj, HJ, Hd, Hsg, !length_replicate.
  repeat match goal with |- _ /\ _ => split end; try done.
  - intros face row. rewrite Hgq.
    destruct face as [|[|[|[|face]]]]; simpl; try discriminate;
      intros [= <-]; apply length_replicate.
  - intros face i j s Hface Hi Hj' Hs. split.
    { apply is_ok_true. exists szero.
      apply (rd3_replicate _ _ dim i j s szero Hi Hj' Hs). }
    destruct (Htab face ltac:(lia)) as (M & t & _ & Ht & _ & _ & Hval).
    destruct (Hval i j Hi Hj') as [_ (row & Hrow & Hp)%rd2_ok].
    assert (Hlen : s < length (fe_shape_grad fe i (embed_face face szero)))
      by by rewrite Hwf.
    destruct (lookup_lt_is_Some_2 _ _ Hlen) as [x Hx].
    apply is_ok_true. exists x. unfold rd_face_usg.
    apply rd_arr_ok in Ht. rewrite Ht. simpl. apply rd3_ok. eauto.
Qed.

(** X13.  In two dimensions, a face evaluator as its constructor leaves
    it goes through any sequence of [reinit] calls on faces 0 to 3
    without failing, given that the gradients of the constructor's
    element have [dim] coordinates, that gradients or JxW values are
    requested only together with Jacobians, and that at every call the
    element has no more shape functions than the one the evaluator was
    constructed for and its mapper delivers one [dim] by [dim] Jacobian
    and one face determinant per quadrature point.  No determinant has
    to be different from zero. *)
Lemma FEFaceValues_lifecycle_returns (fe0 : FiniteElement)
  (quadrature : Quadrature) (flags : UpdateFlags)
  (calls : list (Cell * nat * FiniteElement * Boundary)) :
  gradients_have_dim fe0 ->
  (has flags update_gradients = true \/ has flags update_JxW_values = true ->
   has flags update_jacobians = true) ->
  Forall (fun c : Cell * nat * FiniteElement * Boundary =>
            snd (fst (fst c)) < 4 /\
            fe_total_dofs (snd (fst c)) <= fe_total_dofs fe0 /\
            face_mapper_regular (snd (fst c)) (fst (fst (fst c)))
              (snd (fst (fst c))) (q_n_quadrature_points quadrature)) calls ->
  exists this0 this',
    FEFaceValues_ctor fe0 quadrature flags = Ok this0 /\
    FEFaceValues_reinit_all this0 calls = Ok this' /\
    face_ready (fe_total_dofs fe0) (q_n_quadrature_points quadrature)
      flags this'.
Proof.
  intros Hwf Hsat Hcalls.
  destruct (FEFaceValues_ctor_ready fe0 quadrature flags Hwf)
    as (this0 & Hc & Hr).
  exists this0.
  assert (H : exists this',
            FEFaceValues_reinit_all this0 calls = Ok this' /\
            face_ready (fe_total_dofs fe0) (q_n_quadrature_points quadrature)
              flags this').
  { clear Hc. revert this0 Hr.
    induction Hcalls as [|[[[cell face_no] fe] boundary] rest (Hf & Htd & Hreg) _ IH];
      intros this0 Hr.
    - exists this0. done.
    - simpl in Hf, Htd, Hreg.
      destruct (FEFaceValues_reinit_ready _ _ _ this0 cell face_no fe boundary
                  Hr Hsat ltac:(rewrite dim_is_2; lia) Htd Hreg)
        as (this1 & Hok & Hr1).
      cbn [FEFaceValues_reinit_all]. rewrite Hok. cbn [bind]. by apply IH. }
  destruct H as (this' & H1 & H2). exists this'. done.
Qed.

End FaceLifecycle2D.

Lemma demo_face_mapper_is_regular (face : nat) :
  face_mapper_regular Demo.fe (2%Q : @Cell QScalar Demo.cfg) face 2.
Proof.
  intros uqp gq jac ap ba qp bq fjd bd nv bn boundary Hg Hj Hd.
  destruct gq as [|p0 [|p1 [|p2 gq]]]; try discriminate Hg.
  split; [reflexivity|]. split; [by destruct bd|].
  intros [|[|j]] J [= <-];
    intros [|[|b]] [|[|s]] Hb Hs; simpl in Hb, Hs; try lia; reflexivity.
Qed.

Lemma FEFaceValues_lifecycle_returns_witness :
  exists this0 this',
    FEFaceValues_ctor Demo.fe Demo.face_quadrature Demo.flags_all = Ok this0 /\
    FEFaceValues_reinit_all this0
      [((2%Q : @Cell QScalar Demo.cfg), 1, Demo.fe,
        (tt : @Boundary QScalar Demo.cfg));
       ((2%Q : @Cell QScalar Demo.cfg), 3, Demo.fe,
        (tt : @Boundary QScalar Demo.cfg))] = Ok this'.
Proof.
  assert (Hcalls :
    Forall (fun c : @Cell QScalar Demo.cfg * nat * FiniteElement
                    * @Boundary QScalar Demo.cfg =>
              snd (fst (fst c)) < 4 /\
              fe_total_dofs (snd (fst c)) <= fe_total_dofs Demo.fe /\
              face_mapper_regular (snd (fst c)) (fst (fst (fst c)))
                (snd (fst (fst c)))
                (q_n_quadrature_points Demo.face_quadrature))
      [((2%Q : @Cell QScalar Demo.cfg), 1, Demo.fe,
        (tt : @Boundary QScalar Demo.cfg));
       ((2%Q : @Cell QScalar Demo.cfg), 3, Demo.fe,
        (tt : @Boundary QScalar Demo.cfg))]).
  { apply List.Forall_cons;
      [split; [simpl; lia | split;
         [simpl; lia | exact (demo_face_mapper_is_regular 1)]]|].
    apply List.Forall_cons;
      [split; [simpl; lia | split;
         [simpl; lia | exact (demo_face_mapper_is_regular 3)]]|].
    apply List.Forall_nil. }
  destruct (FEFaceValues_lifecycle_returns
              (eq_refl : @dim QScalar Demo.cfg = 2)
              Demo.fe Demo.face_quadrature Demo.flags_all
              _ demo_gradients_have_dim (fun _ => eq_refl) Hcalls)
    as (this0 & this' & Hc & Hr & _).
  exists this0, this'. split; [exact Hc | exact Hr].
Defined.

(** ** [reinit] of the cell evaluator on the same cell again *)

Section GradientLoopAgain.
Context `{Sc : Scalar} `{Cfg : @Config Sc}.

(** The gradient loop nest reads nothing of what it writes: run on its
    own result, it returns that result. *)
Lemma transform_gradients_again (td nq : nat)
  (rd_usg : nat -> nat -> nat -> result S_) (jacobi : list dFMatrix)
  (sg sg' : list (list Point)) :
  (forall i j b e, rd_usg i j b = Err e -> access_error e) ->
  transform_gradients td nq rd_usg jacobi sg = Ok sg' ->
  transform_gradients td nq rd_usg jacobi sg' = Ok sg'.
Proof.
  intros Herr Hok.
  pose proof (transform_gradients_spec rd_usg jacobi Herr td nq sg) as H1.
  rewrite Hok in H1. destruct H1 as (Hsk & Hin & Hout).
  pose proof (transform_gradients_spec rd_usg jacobi Herr td nq sg') as H2.
  destruct (transform_gradients td nq rd_usg jacobi sg') as [sg''|e].
  - destruct H2 as (Hsk2 & Hin2 & Hout2). f_equal.
    apply skeleton_ext; [done|]. intros i j s.
    destruct (decide (i < td /\ j < nq /\ s < dim)) as [HD|HD].
    + destruct (Hin i j s HD) as [-> _]. by destruct (Hin2 i j s HD) as [-> _].
    + by apply Hout2.
  - exfalso. destruct H2 as [_ Hpre]. apply Hpre.
    intros i j s Hi Hj Hs.
    destruct (Hin i j s (conj Hi (conj Hj Hs))) as [Hv Hr].
    split; [by rewrite Hv | done].
Qed.

(** The same for a loop [for (i = 0; i < n; ++i) l[i] = f(i);]. *)
Lemma fill_loop_again {A : Type} (f : nat -> result A) (n : nat)
  (l l' : list A) :
  for_upto n (fun i l => x <~ f i ;; wr l i x) l = Ok l' ->
  for_upto n (fun i l => x <~ f i ;; wr l i x) l' = Ok l'.
Proof.
  intros Hok.
  pose proof (fill_loop_spec f n l) as H1. rewrite Hok in H1.
  destruct H1 as (Hlen & Hin & Hout).
  pose proof (fill_loop_spec f n l') as H2.
  destruct (for_upto n _ l') as [l''|e].
  - destruct H2 as (Hlen2 & Hin2 & Hout2). f_equal.
    apply list_eq. intros i. destruct (decide (i < n)) as [Hi|Hi].
    + destruct (Hin i Hi) as (x & Hx & ->).
      destruct (Hin2 i Hi) as (y & Hy & ->). congruence.
    + apply Hout2. lia.
  - exfalso. destruct H2 as (i & Hi & [Hf | [_ Hl]]);
      destruct (Hin i Hi) as (x & Hx & Hlk).
    + congruence.
    + apply lookup_lt_Some in Hlk. lia.
Qed.

Lemma set_cell_fill_id (s : FEValues) (r : CellFill) :
  cf_jacobians r = jacobi_matrices s ->
  cf_ansatz_points r = ansatz_points s ->
  cf_q_points r = quadrature_points s ->
  set_cell_fill s r = s.
Proof. destruct s, r. simpl. by intros -> -> ->. Qed.

Lemma set_shape_gradients_same (s : FEValues) :
  set_shape_gradients s (shape_gradients s) = s.
Proof. by destruct s. Qed.

Lemma set_JxW_values_same (s : FEValues) :
  set_JxW_values s (JxW_values s) = s.
Proof. by destruct s. Qed.

(** X14.  With a mapper that computes what it is asked for from the cell
    and the unit points alone, and returns the other arrays as they
    came, [reinit] of the cell evaluator is idempotent: called again
    with the same cell, element and boundary on the evaluator it has
    returned, it returns that evaluator unchanged. *)
Lemma FEValues_reinit_is_idempotent (this s : FEValues) (cell : Cell)
  (fe : FiniteElement) (boundary : Boundary) :
  cell_mapper_honest fe ->
  FEValues_reinit this cell fe boundary = Ok s ->
  FEValues_reinit s cell fe boundary = Ok s.
Proof.
  intros Hhon Hok.
  destruct (FEValues_reinit_frame _ _ _ _ _ Hok)
    as (Hnq & _ & _ & Husg & Hw & Huqp & Hfl & Hjac & Hqp & Hap).
  pose proof (FEValues_reinit_inv _ _ _ _ _ Hok) as (_ & Hgrad & Hjxw).
  cbv zeta in Hgrad, Hjxw.
  destruct (cell_filled_frame this cell fe boundary)
    as (Fnq & _ & _ & _ & Fusg & Fw & _ & _ & _).
  (* the mapper gives back what the evaluator already holds *)
  assert (Hfs : cell_filled s cell fe boundary = s).
  { unfold cell_filled. cbv zeta. rewrite Hfl.
    destruct (wants_cell_fill (update_flags this)) eqn:Hwant; [|done].
    revert Hjac Hqp Hap. unfold cell_filled. cbv zeta. rewrite Hwant. simpl.
    intros Hjac Hqp Hap. rewrite Huqp.
    destruct (Hhon cell (unit_quadrature_points this) boundary
                (has (update_flags this) update_jacobians)
                (has (update_flags this) update_ansatz_points)
                (has (update_flags this) update_q_points)
                (jacobi_matrices s) (ansatz_points s) (quadrature_points s)
                (jacobi_matrices this) (ansatz_points this)
                (quadrature_points this)) as (HJ & HA & HQ).
    cbv zeta in HJ, HA, HQ.
    apply set_cell_fill_id.
    - rewrite HJ. by destruct (has _ update_jacobians).
    - rewrite HA. by destruct (has _ update_ansatz_points).
    - rewrite HQ. by destruct (has _ update_q_points). }
  rewrite FEValues_reinit_unfold. cbv zeta. rewrite Hfs, Hfl.
  assert (Hg : (if has (update_flags this) update_gradients
                then
                  Assert (has (update_flags this) update_jacobians)
                    ExcCannotInitializeField ;;;
                  sg <~ transform_gradients (fe_total_dofs fe)
                          (n_quadrature_points s)
                          (rd3 (unit_shape_gradients s))
                          (jacobi_matrices s) (shape_gradients s) ;;
                  Ok (set_shape_gradients s sg)
                else Ok s) = Ok s).
  { destruct (has (update_flags this) update_gradients); [|done].
    destruct Hgrad as [Hd Hgrad].
    destruct (Assert_cases (has (update_flags this) update_jacobians)
                ExcCannotInitializeField) as [[-> _]|(_ & Hd' & Hc)];
      [|rewrite Hd in Hc by done; done].
    simpl. rewrite Hnq, <- Fnq, Husg, <- Fusg, Hjac.
    rewrite (transform_gradients_again _ _ _ _ _ _
               (rd3_access_error _) Hgrad).
    simpl. by rewrite set_shape_gradients_same. }
  rewrite Hg. simpl.
  destruct (has (update_flags this) update_JxW_values); [|done].
  destruct Hjxw as [Hd Hjxw].
  destruct (Assert_cases (has (update_flags this) update_jacobians)
              ExcCannotInitializeField) as [[-> _]|(_ & Hd' & Hc)];
    [|rewrite Hd in Hc by done; done].
  simpl.
  assert (Hbody : forall i, cell_JxW_at s i
                  = cell_JxW_at (cell_filled this cell fe boundary) i).
  { intros i. unfold cell_JxW_at. by rewrite Hw, Hjac, Fw. }
  rewrite (for_upto_ext _
             (fun i jxw => x <~ cell_JxW_at (cell_filled this cell fe boundary) i ;;
                           wr jxw i x))
    by (intros i a; by rewrite Hbody).
  rewrite Hnq, <- Fnq.
  rewrite (fill_loop_again _ _ _ _ Hjxw). simpl.
  by rewrite set_JxW_values_same.
Qed.

End GradientLoopAgain.

Lemma demo_cell_mapper_is_honest : cell_mapper_honest Demo.fe.
Proof.
  intros cell uqp boundary bj ba bq jac ap qp jac' ap' qp'. simpl.
  by destruct bj, ba, bq.
Qed.

Lemma FEValues_reinit_is_idempotent_witness :
  FEValues_reinit Demo.fev1 (2%Q : @Cell QScalar Demo.cfg) Demo.fe tt
  = Ok Demo.fev1.
Proof.
  apply (FEValues_reinit_is_idempotent Demo.fev0 Demo.fev1
           (2%Q : @Cell QScalar Demo.cfg) Demo.fe tt
           demo_cell_mapper_is_honest).
  reflexivity.
Defined.
